(** * toy.py: lexer, precedence-climbing parser and top-level driver

    A shallow embedding of [src/toy.py] (a Python 3 port of the first
    Kaleidoscope chapters).  The module-level globals of the script
    ([IdentifierStr], [NumVal], [LastChar], [CurTok], [BinopPrecedence]) and
    the two streams it touches are the fields of one [state] record that every
    function threads.  A Python call may return, raise, or run forever; the
    three cases are the constructors of [outcome], the last one through a
    fuel counter that every loop iteration and every recursive call spends.

    A Python [str] is a [string]; its characters are the code points below
    256.  What is not modelled: the depth limit of the Python call stack
    (where Python raises [RecursionError], as after a thousand comment lines
    in a row, the run here goes on; statements of termination therefore say
    "returns or raises" and promise no return), and the rounding of a
    numeric literal to binary64 ([NumVal] holds the exact decimal value;
    the only values stated below are the integers 1, 2 and 3, which binary64
    holds exactly). *)

From Stdlib Require Import ZArith QArith String Ascii List Lia Bool.
From stdpp Require Import gmap strings.
Import ListNotations.

Set Warnings "-register-all".
Local Open Scope Z_scope.
Local Open Scope string_scope.
Local Open Scope list_scope.

(** ** Python values *)

(** A token is what [gettok] returns: one of the negative integers of the
    [Token] dictionary, or a [str] holding the character read. *)
Inductive token :=
| TokInt (n : Z)
| TokStr (c : string).

Definition tok_eof : token := TokInt (-1).
Definition tok_def : token := TokInt (-2).
Definition tok_extern : token := TokInt (-3).
Definition tok_identifier : token := TokInt (-4).
Definition tok_number : token := TokInt (-5).

(** Python [==] on tokens: an [int] and a [str] are never equal. *)
Definition tok_eqb (a b : token) : bool :=
  match a, b with
  | TokInt x, TokInt y => Z.eqb x y
  | TokStr x, TokStr y => String.eqb x y
  | _, _ => false
  end.

(** The result of a parse function: [None], the integer [0] that some paths
    return instead, or an object. *)
Inductive pyval (A : Type) :=
| PyNone
| PyInt (n : Z)
| PyObj (a : A).
Arguments PyNone {A}.
Arguments PyInt {A} n.
Arguments PyObj {A} a.

(** Truth value, as [if x:] and [not x] see it: instances of the AST classes
    define neither [__bool__] nor [__len__], so every object is true. *)
Definition truthy {A} (v : pyval A) : bool :=
  match v with
  | PyNone => false
  | PyInt n => negb (Z.eqb n 0)
  | PyObj _ => true
  end.

(** [v == 0]: the AST classes do not define [__eq__]. *)
Definition eq_zero {A} (v : pyval A) : bool :=
  match v with
  | PyInt n => Z.eqb n 0
  | _ => false
  end.

(** The AST classes.  A field holds whatever value the constructor was
    given, so the children of a node are [pyval]s. *)
Inductive ExprAST :=
| NumberExprAST (val : Q)
| VariableExprAST (name : string)
| BinaryExprAST (op : token) (lhs rhs : pyval ExprAST)
| CallExprAST (callee : string) (args : list (pyval ExprAST)).

Inductive PrototypeAST :=
| MkPrototypeAST (name : string) (args : list string).

Inductive FunctionAST :=
| MkFunctionAST (proto : pyval PrototypeAST) (body : pyval ExprAST).

Definition proto_name (p : PrototypeAST) : string :=
  match p with MkPrototypeAST name _ => name end.

(** ** Global state *)

Record state := mkState {
  IdentifierStr : string;          (* filled in if tok_identifier *)
  NumVal : Q;                      (* filled in if tok_number *)
  LastChar : string;
  CurTok : token;
  BinopPrecedence : gmap string Z;
  stdin : string;                  (* characters not yet read *)
  stderr : list string             (* what was written, oldest first *)
}.

Definition set_IdentifierStr (x : string) (s : state) : state :=
  mkState x (NumVal s) (LastChar s) (CurTok s) (BinopPrecedence s) (stdin s) (stderr s).
Definition set_NumVal (x : Q) (s : state) : state :=
  mkState (IdentifierStr s) x (LastChar s) (CurTok s) (BinopPrecedence s) (stdin s) (stderr s).
Definition set_LastChar (x : string) (s : state) : state :=
  mkState (IdentifierStr s) (NumVal s) x (CurTok s) (BinopPrecedence s) (stdin s) (stderr s).
Definition set_CurTok (x : token) (s : state) : state :=
  mkState (IdentifierStr s) (NumVal s) (LastChar s) x (BinopPrecedence s) (stdin s) (stderr s).
Definition set_BinopPrecedence (x : gmap string Z) (s : state) : state :=
  mkState (IdentifierStr s) (NumVal s) (LastChar s) (CurTok s) x (stdin s) (stderr s).
Definition set_stdin (x : string) (s : state) : state :=
  mkState (IdentifierStr s) (NumVal s) (LastChar s) (CurTok s) (BinopPrecedence s) x (stderr s).
Definition set_stderr (x : list string) (s : state) : state :=
  mkState (IdentifierStr s) (NumVal s) (LastChar s) (CurTok s) (BinopPrecedence s) (stdin s) x.

(** The globals as the module body leaves them, reading from [input]. *)
Definition initial (input : string) : state :=
  {| IdentifierStr := ""; NumVal := 0; LastChar := " "; CurTok := TokInt 0;
     BinopPrecedence := ∅; stdin := input; stderr := [] |}.

(** ** Calls that return, raise or diverge *)

Inductive exn :=
| NameError (name : string)
| ValueError (arg : string).

Inductive outcome (A : Type) :=
| Ret (a : A) (s : state)
| Raise (e : exn) (s : state)
| OutOfFuel.
Arguments Ret {A} a s.
Arguments Raise {A} e s.
Arguments OutOfFuel {A}.

Definition M (A : Type) : Type := state -> outcome A.

Definition ret {A} (a : A) : M A := fun s => Ret a s.

Definition bind {A B} (m : M A) (k : A -> M B) : M B :=
  fun s => match m s with
           | Ret a s' => k a s'
           | Raise e s' => Raise e s'
           | OutOfFuel => OutOfFuel
           end.

Definition raise {A} (e : exn) : M A := fun s => Raise e s.
Definition get : M state := fun s => Ret s s.
Definition modify (f : state -> state) : M unit := fun s => Ret tt (f s).

Notation "'do' x '<-' m ';' k" := (bind m (fun x => k))
  (at level 10, x name, m at level 100, k at level 200, only parsing).
Notation "'run' m ';' k" := (bind m (fun _ => k))
  (at level 10, m at level 100, k at level 200, only parsing).

(** One pass through the body of a [while] loop either goes round again with
    the new values of the loop's local variables, or leaves the loop. *)
Inductive flow (L R : Type) :=
| Continue (l : L)
| Done (r : R).
Arguments Continue {L R} l.
Arguments Done {L R} r.

Fixpoint loop {L R} (fuel : nat) (body : L -> M (flow L R)) (l : L) : M R :=
  match fuel with
  | O => fun _ => OutOfFuel
  | S n => do r <- body l;
           match r with
           | Continue l' => loop n body l'
           | Done r => ret r
           end
  end.

(** ** Lexer *)

Definition nl : string := String (ascii_of_nat 10) "".
Definition cr : string := String (ascii_of_nat 13) "".

(** [sys.stdin.read(1)]: the next character as a one-character string, the
    empty string at the end of the input. *)
Definition getchar : M string :=
  fun s => match stdin s with
           | EmptyString => Ret "" s
           | String c rest => Ret (String c "") (set_stdin rest s)
           end.

(** Character classes of the regular expressions, on code points below 256.
    [\s] on a [str] is Unicode white space: tab to carriage return, the four
    separators 28-31, space, NEL and the no-break space. *)
Definition is_space (c : ascii) : bool :=
  let n := N_of_ascii c in
  ((9 <=? n) && (n <=? 13) || (28 <=? n) && (n <=? 32) || (n =? 133) || (n =? 160))%N.

Definition is_digit (c : ascii) : bool :=
  let n := N_of_ascii c in ((48 <=? n) && (n <=? 57))%N.

Definition is_alpha (c : ascii) : bool :=
  let n := N_of_ascii c in
  ((65 <=? n) && (n <=? 90) || (97 <=? n) && (n <=? 122))%N.

Definition is_alnum (c : ascii) : bool := is_alpha c || is_digit c.

(** [re.match(cls, x)] for a one-character class: the first character of [x]
    must be in the class; nothing matches in the empty string. *)
Definition re_match (cls : ascii -> bool) (x : string) : bool :=
  match x with
  | String c _ => cls c
  | EmptyString => false
  end.

(** The leading digits of [x]: their value on top of [acc], how many there
    are on top of [cnt], and what follows them. *)
Fixpoint read_digits (x : string) (acc : N) (cnt : nat) : N * nat * string :=
  match x with
  | String c rest =>
      if is_digit c
      then read_digits rest (10 * acc + (N_of_ascii c - 48))%N (S cnt)
      else (acc, cnt, x)
  | EmptyString => (acc, cnt, x)
  end.

(** [float(NumStr)] on the strings [gettok] builds (digits and dots): the
    literal needs at least one digit and at most one dot, anything else is a
    [ValueError] ([None] here).  The value is the exact decimal, in lowest
    terms. *)
Definition float (x : string) : option Q :=
  let '(ip, ni, rest) := read_digits x 0%N 0%nat in
  match rest with
  | EmptyString => if Nat.eqb ni 0 then None else Some (inject_Z (Z.of_N ip))
  | String c rest' =>
      if Ascii.eqb c "."%char then
        let '(m, nf, rest'') := read_digits rest' ip 0%nat in
        match rest'' with
        | EmptyString =>
            if Nat.eqb (ni + nf) 0 then None
            else Some (Qred (Z.of_N m # Pos.of_nat (10 ^ nf)))
        | String _ _ => None
        end
      else None
  end.

(** The body of [gettok]; [gettok] is the recursive call after a comment. *)
Definition gettok_ (n : nat) (gettok : M token) : M token :=
  (* Skip any whitespace. *)
  run loop n (fun _ : unit =>
        do s <- get;
        if re_match is_space (LastChar s)
        then do c <- getchar; run modify (set_LastChar c); ret (Continue tt)
        else ret (Done tt)) tt;
  do s <- get;
  if re_match is_alpha (LastChar s) then
    (* identifier: [a-zA-Z][a-zA-Z0-9]* *)
    run modify (set_IdentifierStr (LastChar s));
    do c <- getchar;
    run modify (set_LastChar c);
    run loop n (fun _ : unit =>
          do s <- get;
          if re_match is_alnum (LastChar s)
          then run modify (set_IdentifierStr (IdentifierStr s +:+ LastChar s));
               do c <- getchar; run modify (set_LastChar c); ret (Continue tt)
          else ret (Done tt)) tt;
    do s <- get;
    if String.eqb (IdentifierStr s) "def" then ret tok_def
    else if String.eqb (IdentifierStr s) "extern" then ret tok_extern
    else ret tok_identifier
  else if re_match is_digit (LastChar s) || String.eqb (LastChar s) "." then
    (* Number: [0-9.]+ *)
    do NumStr <- loop n (fun NumStr : string =>
          do s <- get;
          let NumStr := NumStr +:+ LastChar s in
          do c <- getchar;
          run modify (set_LastChar c);
          if negb (re_match is_digit c || String.eqb c ".")
          then ret (Done NumStr)
          else ret (Continue NumStr)) "";
    match float NumStr with
    | Some v => run modify (set_NumVal v); ret tok_number
    | None => raise (ValueError NumStr)
    end
  else
    do r <-
      (if String.eqb (LastChar s) "#" then
         (* Comment until end of line.  [LastChar != None] holds of every
            string, the empty one included. *)
         run loop n (fun _ : unit =>
               do c <- getchar;
               run modify (set_LastChar c);
               if negb (true && negb (String.eqb c nl) && negb (String.eqb c cr))
               then ret (Done tt)
               else ret (Continue tt)) tt;
         do s <- get;
         if negb (String.eqb (LastChar s) "")
         then do t <- gettok; ret (Some t)
         else ret None
       else ret None);
    match r with
    | Some t => ret t
    | None =>
        do s <- get;
        (* Check for end of file.  Don't eat the EOF. *)
        if String.eqb (LastChar s) "" then ret tok_eof
        else
          (* Otherwise, just return the character. *)
          let ThisChar := LastChar s in
          do c <- getchar;
          run modify (set_LastChar c);
          ret (TokStr ThisChar)
    end.

Fixpoint gettok (fuel : nat) : M token :=
  match fuel with
  | O => fun _ => OutOfFuel
  | S n => gettok_ n (gettok n)
  end.

Definition getNextToken (fuel : nat) : M token :=
  do t <- gettok fuel;
  run modify (set_CurTok t);
  ret t.

(** ** Parser *)

(** [print(x, file=sys.stderr)] and [print(x, end="", file=sys.stderr)]. *)
Definition eprint (x : string) : M unit :=
  modify (fun s => set_stderr (stderr s ++ [x +:+ nl]) s).
Definition eprint_noend (x : string) : M unit :=
  modify (fun s => set_stderr (stderr s ++ [x]) s).

(** Get the precedence of the pending binary operator token. *)
Definition GetTokPrecedence : M Z :=
  do s <- get;
  match CurTok s with
  | TokInt _ => ret (-1)                    (* type(CurTok) != str *)
  | TokStr c =>
      (* Make sure it's a declared binop. *)
      let TokPrec := default (-1) (BinopPrecedence s !! c) in
      if (TokPrec <=? 0)%Z then ret (-1) else ret TokPrec
  end.

(** [error] prints the message and returns [None]; [errorP] calls it and
    returns [None] as well. *)
Definition error {A} (msg : string) : M (pyval A) :=
  run eprint ("Error: " +:+ msg);
  ret PyNone.

Definition errorP {A} (msg : string) : M (pyval A) :=
  run error (A := A) msg;
  ret PyNone.

(** Reading a global name that no statement of the module binds. *)
Definition unbound_name {A} (name : string) : M A := raise (NameError name).

Section ParserBodies.

(** The fuel of the calls and loops made from the body. *)
Variable n : nat.

(** identifierexpr ::= identifier | identifier '(' expression* ')' *)
Definition ParseIdentifierExpr_ (ParseExpression : M (pyval ExprAST))
  : M (pyval ExprAST) :=
  do s <- get;
  let IdName := IdentifierStr s in
  run getNextToken n;                                (* eat identifier. *)
  do s <- get;
  if negb (tok_eqb (CurTok s) (TokStr "("))          (* Simple variable ref. *)
  then ret (PyObj (VariableExprAST IdName))
  else
    (* Call. *)
    run getNextToken n;                              (* eat ( *)
    do s <- get;
    do r <-
      (if negb (tok_eqb (CurTok s) (TokStr ")")) then
         loop n (fun args : list (pyval ExprAST) =>
           do arg <- ParseExpression;
           if negb (truthy arg) then ret (Done (inr PyNone))
           else
             let args := args ++ [arg] in
             do s <- get;
             if tok_eqb (CurTok s) (TokStr ")") then ret (Done (inl args))
             else if negb (tok_eqb (CurTok s) (TokStr ","))
             then do e <- error "Expected ')' or ',' in argument list";
                  ret (Done (inr e))
             else run getNextToken n; ret (Continue args)) []
       else ret (inl []));
    match r with
    | inr v => ret v
    | inl args =>
        (* Eat the ')'. *)
        run getNextToken n;
        ret (PyObj (CallExprAST IdName args))
    end.

(** numberexpr ::= number *)
Definition ParseNumberExpr : M (pyval ExprAST) :=
  do s <- get;
  let result := PyObj (NumberExprAST (NumVal s)) in
  run getNextToken n;                                (* consume the number *)
  ret result.

(** parenexpr ::= '(' expression ')'.  The result of [ParseExpression] is
    bound to [v]; the statements after it read [V]. *)
Definition ParseParenExpr_ (ParseExpression : M (pyval ExprAST))
  : M (pyval ExprAST) :=
  run getNextToken n;                                (* eat (. *)
  do v <- ParseExpression;
  do V <- unbound_name (A := pyval ExprAST) "V";
  if negb (truthy V) then ret PyNone
  else
    do s <- get;
    if negb (tok_eqb (CurTok s) (TokStr ")"))
    then error "expected ')'"
    else
      run getNextToken n;                            (* eat ). *)
      do V <- unbound_name (A := pyval ExprAST) "V";
      ret V.

(** primary ::= identifierexpr | numberexpr | parenexpr *)
Definition ParsePrimary_ (ParseIdentifierExpr ParseParenExpr : M (pyval ExprAST))
  : M (pyval ExprAST) :=
  do s <- get;
  if tok_eqb (CurTok s) tok_identifier then ParseIdentifierExpr
  else if tok_eqb (CurTok s) tok_number then ParseNumberExpr
  else if tok_eqb (CurTok s) (TokStr "(") then ParseParenExpr
  else error "unknown token when expecting an expression".

(** binoprhs ::= ('+' primary)* *)
Definition ParseBinOpRHS_
    (ParsePrimary : M (pyval ExprAST))
    (ParseBinOpRHS : Z -> pyval ExprAST -> M (pyval ExprAST))
    (ExprPrec : Z) (LHS : pyval ExprAST) : M (pyval ExprAST) :=
  loop n (fun LHS : pyval ExprAST =>
    (* If this is a binop, find its precedence. *)
    do TokPrec <- GetTokPrecedence;
    (* If this is a binop that binds at least as tightly as the current
       binop, consume it, otherwise we are done. *)
    if (TokPrec <? ExprPrec)%Z then ret (Done LHS)
    else
      (* Okay, we know this is a binop. *)
      do s <- get;
      let BinOp := CurTok s in
      run getNextToken n;                            (* eat binop *)
      (* Parse the primary expression after the binary operator. *)
      do RHS <- ParsePrimary;
      if negb (truthy RHS) then ret (Done PyNone)
      else
        (* If BinOp binds less tightly with RHS than the operator after
           RHS, let the pending operator take RHS as its LHS. *)
        do NextPrec <- GetTokPrecedence;
        do r <-
          (if (TokPrec <? NextPrec)%Z then
             do RHS <- ParseBinOpRHS (TokPrec + 1) RHS;
             if eq_zero RHS then ret (inr (PyInt 0)) else ret (inl RHS)
           else ret (inl RHS));
        match r with
        | inr v => ret (Done v)
        | inl RHS =>
            (* Merge LHS/RHS. *)
            ret (Continue (PyObj (BinaryExprAST BinOp LHS RHS)))
        end) LHS.

(** expression ::= primary binoprhs *)
Definition ParseExpression_
    (ParsePrimary : M (pyval ExprAST))
    (ParseBinOpRHS : Z -> pyval ExprAST -> M (pyval ExprAST))
  : M (pyval ExprAST) :=
  do LHS <- ParsePrimary;
  if negb (truthy LHS) then ret (PyInt 0)
  else ParseBinOpRHS 0 LHS.

End ParserBodies.

Fixpoint ParseExpression (fuel : nat) : M (pyval ExprAST) :=
  match fuel with
  | O => fun _ => OutOfFuel
  | S n => ParseExpression_ (ParsePrimary n) (ParseBinOpRHS n)
  end
with ParsePrimary (fuel : nat) : M (pyval ExprAST) :=
  match fuel with
  | O => fun _ => OutOfFuel
  | S n => ParsePrimary_ n (ParseIdentifierExpr n) (ParseParenExpr n)
  end
with ParseIdentifierExpr (fuel : nat) : M (pyval ExprAST) :=
  match fuel with
  | O => fun _ => OutOfFuel
  | S n => ParseIdentifierExpr_ n (ParseExpression n)
  end
with ParseParenExpr (fuel : nat) : M (pyval ExprAST) :=
  match fuel with
  | O => fun _ => OutOfFuel
  | S n => ParseParenExpr_ n (ParseExpression n)
  end
with ParseBinOpRHS (fuel : nat) (ExprPrec : Z) (LHS : pyval ExprAST)
  : M (pyval ExprAST) :=
  match fuel with
  | O => fun _ => OutOfFuel
  | S n => ParseBinOpRHS_ n (ParsePrimary n) (ParseBinOpRHS n) ExprPrec LHS
  end.

(** prototype ::= id '(' id* ')' *)
Definition ParsePrototype (fuel : nat) : M (pyval PrototypeAST) :=
  do s <- get;
  if negb (tok_eqb (CurTok s) tok_identifier)
  then errorP "Expected function name in prototype"
  else
    let FnName := IdentifierStr s in
    run getNextToken fuel;
    do s <- get;
    if negb (tok_eqb (CurTok s) (TokStr "("))
    then errorP "Expected '(' in prototype"
    else
      do ArgNames <- loop fuel (fun ArgNames : list string =>
            do t <- getNextToken fuel;
            if tok_eqb t tok_identifier
            then do s <- get; ret (Continue (ArgNames ++ [IdentifierStr s]))
            else ret (Done ArgNames)) [];
      do s <- get;
      if negb (tok_eqb (CurTok s) (TokStr ")"))
      then errorP "Expected ')' in prototype"
      else
        (* success. *)
        run getNextToken fuel;                         (* eat ')'. *)
        ret (PyObj (MkPrototypeAST FnName ArgNames)).

(** definition ::= 'def' prototype expression *)
Definition ParseDefinition (fuel : nat) : M (pyval FunctionAST) :=
  run getNextToken fuel;                               (* eat def. *)
  do Proto <- ParsePrototype fuel;
  if negb (truthy Proto) then ret PyNone
  else
    do E <- ParseExpression fuel;
    if truthy E then ret (PyObj (MkFunctionAST Proto E))
    else ret PyNone.

(** toplevelexpr ::= expression *)
Definition ParseTopLevelExpr (fuel : nat) : M (pyval FunctionAST) :=
  do E <- ParseExpression fuel;
  if truthy E then
    (* Make an anonymous proto. *)
    let Proto := PyObj (MkPrototypeAST "" []) in
    ret (PyObj (MkFunctionAST Proto E))
  else ret PyNone.

(** external ::= 'extern' prototype *)
Definition ParseExtern (fuel : nat) : M (pyval PrototypeAST) :=
  run getNextToken fuel;                               (* eat extern. *)
  ParsePrototype fuel.

(** ** Top-level parsing *)

Definition HandleDefinition (fuel : nat) : M unit :=
  do r <- ParseDefinition fuel;
  if truthy r then eprint "Parsed a function definition."
  else run getNextToken fuel; ret tt.   (* Skip token for error recovery. *)

Definition HandleExtern (fuel : nat) : M unit :=
  do r <- ParseExtern fuel;
  if truthy r then eprint "Parsed an extern"
  else run getNextToken fuel; ret tt.

Definition HandleTopLevelExpression (fuel : nat) : M unit :=
  (* Evaluate a top-level expression into an anonymous function. *)
  do r <- ParseTopLevelExpr fuel;
  if truthy r then eprint "Parsed a top-level expr"
  else run getNextToken fuel; ret tt.

(** top ::= definition | external | expression | ';' *)
Definition MainLoop (fuel : nat) : M unit :=
  loop fuel (fun _ : unit =>
    run eprint_noend "ready> ";
    do s <- get;
    if tok_eqb (CurTok s) tok_eof then ret (Done tt)
    else if tok_eqb (CurTok s) (TokStr ";")
    then run getNextToken fuel; ret (Continue tt)
    else if tok_eqb (CurTok s) tok_def
    then run HandleDefinition fuel; ret (Continue tt)
    else if tok_eqb (CurTok s) tok_extern
    then run HandleExtern fuel; ret (Continue tt)
    else run HandleTopLevelExpression fuel; ret (Continue tt)) tt.

(** Install standard binary operators. *)
Definition install_operators : M unit :=
  run modify (fun s => set_BinopPrecedence (<["<" := 10]> (BinopPrecedence s)) s);
  run modify (fun s => set_BinopPrecedence (<["+" := 20]> (BinopPrecedence s)) s);
  run modify (fun s => set_BinopPrecedence (<["-" := 20]> (BinopPrecedence s)) s);
  modify (fun s => set_BinopPrecedence (<["*" := 40]> (BinopPrecedence s)) s).

(** [main] up to the priming of the first token. *)
Definition main_prime (fuel : nat) : M unit :=
  run install_operators;
  run eprint_noend "ready> ";
  run getNextToken fuel;
  ret tt.

Definition main (fuel : nat) : M unit :=
  run main_prime fuel;
  (* Run the main "interpreter loop" now. *)
  MainLoop fuel.

(** ** Predicates of the statements below *)

(** [wp m Q s]: if [m] returns from [s], the value and the final state
    satisfy [Q]. *)
Definition wp {A} (m : M A) (Q : A -> state -> Prop) (s : state) : Prop :=
  forall a s', m s = Ret a s' -> Q a s'.

(** [refines m m']: wherever [m] returns or raises, [m'] does the same;
    [m] may run out of fuel where [m'] does not. *)
Definition refines {A} (m m' : M A) : Prop :=
  forall s, m s = OutOfFuel \/ m s = m' s.

(** The call [f], run from [s] on any amount of fuel, ends in [o] or runs
    out of fuel, and some amount is enough for [o]. *)
Definition settles {A} (f : nat -> M A) (s : state) (o : outcome A) : Prop :=
  (exists n, f n s = o) /\ forall n, f n s = OutOfFuel \/ f n s = o.

Definition table_is (T : gmap string Z) (s : state) : Prop :=
  BinopPrecedence s = T.

(** [op] is a character token that is a key of [T] with a positive value. *)
Definition op_in_table (T : gmap string Z) (op : token) : bool :=
  match op with
  | TokStr c => match T !! c with
                | Some p => (0 <? p)%Z
                | None => false
                end
  | TokInt _ => false
  end.

(** Every [BinaryExprAST] node of the tree has an operator that satisfies
    [P]. *)
Fixpoint all_ops (P : token -> bool) (e : ExprAST) : bool :=
  match e with
  | NumberExprAST _ => true
  | VariableExprAST _ => true
  | BinaryExprAST op lhs rhs =>
      P op
      && match lhs with PyObj l => all_ops P l | _ => true end
      && match rhs with PyObj r => all_ops P r | _ => true end
  | CallExprAST _ args =>
      forallb (fun a => match a with
                        | PyObj e' => all_ops P e'
                        | _ => true
                        end) args
  end.

(** The same of a value a parse function returned. *)
Definition value_ops (P : token -> bool) (v : pyval ExprAST) : bool :=
  match v with
  | PyObj e => all_ops P e
  | _ => true
  end.

Definition function_ops (P : token -> bool) (v : pyval FunctionAST) : bool :=
  match v with
  | PyObj (MkFunctionAST _ body) => value_ops P body
  | _ => true
  end.

(** Every [BinaryExprAST] node has its operator in [T]. *)
Definition binops_in_table (T : gmap string Z) (e : ExprAST) : bool :=
  all_ops (op_in_table T) e.
Definition value_ok (T : gmap string Z) (v : pyval ExprAST) : bool :=
  value_ops (op_in_table T) v.
Definition function_ok (T : gmap string Z) (v : pyval FunctionAST) : bool :=
  function_ops (op_in_table T) v.

(** A string token of exactly one character. *)
Definition char_token (t : token) : bool :=
  match t with
  | TokStr (String _ EmptyString) => true
  | _ => false
  end.

(** The first character of [x] is a letter. *)
Definition starts_alpha (x : string) : bool := re_match is_alpha x.

(** A character that starts neither white space, nor an identifier, nor a
    number, nor a comment. *)
Definition plain_char (c : ascii) : bool :=
  negb (is_space c) && negb (is_alpha c) && negb (is_digit c)
  && negb (Ascii.eqb c ".") && negb (Ascii.eqb c "#").

(** The tokens of the lexer: the five integers of [Token], or a string
    holding exactly one plain character. *)
Definition token_shape (t : token) : bool :=
  match t with
  | TokInt z => (-5 <=? z)%Z && (z <=? -1)%Z
  | TokStr (String c EmptyString) => plain_char c
  | TokStr _ => false
  end.

(** A string that [getchar] may have returned. *)
Definition one_char (x : string) : bool := (String.length x <=? 1)%nat.

(** A state the lexer may have left: [LastChar] as [getchar] returns it, and
    as current token an integer or one character. *)
Definition lexer_ok (s : state) : bool :=
  one_char (LastChar s)
  && match CurTok s with
     | TokInt _ => true
     | TokStr c => char_token (TokStr c)
     end.

(** What a call of an expression parser guarantees when it returns: the
    invariant [Inv] of the state, and a tree whose operators satisfy [P]. *)
Definition ops_post (Inv : state -> Prop) (P : token -> bool)
    (v : pyval ExprAST) (s : state) : Prop :=
  Inv s /\ value_ops P v = true.

(** When the current token is an identifier, the payload buffer holds a name
    that starts with a letter. *)
Definition payload_ok (s : state) : bool :=
  if tok_eqb (CurTok s) tok_identifier then starts_alpha (IdentifierStr s) else true.

(** [None], or a prototype whose name starts with a letter. *)
Definition proto_named (v : pyval PrototypeAST) : bool :=
  match v with
  | PyObj p => starts_alpha (proto_name p)
  | PyNone => true
  | PyInt _ => false
  end.

(** [c] ends a comment line. *)
Definition is_line_end (c : ascii) : bool :=
  String.eqb (String c "") nl || String.eqb (String c "") cr.

(** A line feed or a carriage return occurs in [x]. *)
Fixpoint has_line_end (x : string) : bool :=
  match x with
  | EmptyString => false
  | String c rest => is_line_end c || has_line_end rest
  end.

(** [x] holds nothing but white space and comments that a line end closes;
    [in_comment] tells whether [x] starts inside a comment. *)
Fixpoint blank (in_comment : bool) (x : string) : bool :=
  match x with
  | EmptyString => negb in_comment
  | String c rest =>
      if in_comment then blank (negb (is_line_end c)) rest
      else if is_space c then blank false rest
      else if Ascii.eqb c "#" then blank true rest
      else false
  end.

(** The white space and the comments before the first token of [x] are
    closed: like [blank], but anything may follow them. *)
Fixpoint head_closed (in_comment : bool) (x : string) : bool :=
  match x with
  | EmptyString => negb in_comment
  | String c rest =>
      if in_comment then head_closed (negb (is_line_end c)) rest
      else if is_space c then head_closed false rest
      else if Ascii.eqb c "#" then head_closed true rest
      else true
  end.

(** [gettok] came back: with a token of the lexer, or with the [ValueError]
    of a numeric literal that [float] rejects. *)
Definition lexed (o : outcome token) : Prop :=
  match o with
  | Ret t _ => token_shape t = true
  | Raise (ValueError x) _ => float x = None
  | Raise (NameError _) _ => False
  | OutOfFuel => False
  end.

(** The state a call stopped in, for stating what a run left behind. *)
Definition final_state {A} (o : outcome A) (dflt : state) : state :=
  match o with
  | Ret _ s => s
  | Raise _ s => s
  | OutOfFuel => dflt
  end.

(** The globals after [main] has installed the operators and primed the
    first token of [input]. *)
Definition primed (fuel : nat) (input : string) : state :=
  final_state (main_prime fuel (initial input)) (initial input).

(** The table [main] installs. *)
Definition builtin_table : gmap string Z :=
  <["*" := 40]> (<["-" := 20]> (<["+" := 20]> (<["<" := 10]> ∅))).

(** Short forms of the trees in the worked inputs: the literal [z], and a
    binary node whose operator is the character token [c]. *)
Definition num (z : Z) : pyval ExprAST := PyObj (NumberExprAST (inject_Z z)).
Definition binop (c : string) (lhs rhs : pyval ExprAST) : pyval ExprAST :=
  PyObj (BinaryExprAST (TokStr c) lhs rhs).

(** ** Predicates of the further properties *)

(** What is left to read: the character in hand and the input after it. *)
Definition pending (s : state) : string := LastChar s +:+ stdin s.

(** The input is exhausted as soon as [getchar] has returned the empty
    string. *)
Definition eof_seen (s : state) : Prop := LastChar s = "" -> stdin s = "".

(** The longest prefix of [x] whose characters satisfy [p], and the rest. *)
Fixpoint span (p : ascii -> bool) (x : string) : string * string :=
  match x with
  | EmptyString => ("", "")
  | String c rest =>
      if p c then let '(a, b) := span p rest in (String c a, b)
      else ("", x)
  end.

(** A character of a numeric literal. *)
Definition is_numchar (c : ascii) : bool := is_digit c || Ascii.eqb c ".".

(** The token of a word: one of the two keywords, or an identifier. *)
Definition keyword (x : string) : token :=
  if String.eqb x "def" then tok_def
  else if String.eqb x "extern" then tok_extern
  else tok_identifier.

(** The shape of the trees the parser builds: the left operand of a binary
    node and every argument of a call is an object, the right operand of a
    binary node is an object or [None]. *)
Fixpoint tree_shape (e : ExprAST) : bool :=
  match e with
  | NumberExprAST _ => true
  | VariableExprAST _ => true
  | BinaryExprAST _ lhs rhs =>
      match lhs with PyObj l => tree_shape l | _ => false end
      && match rhs with
         | PyObj r => tree_shape r
         | PyNone => true
         | PyInt _ => false
         end
  | CallExprAST _ args =>
      forallb (fun a => match a with
                        | PyObj e' => tree_shape e'
                        | _ => false
                        end) args
  end.

(** An object of that shape. *)
Definition object_shape (v : pyval ExprAST) : bool :=
  match v with
  | PyObj e => tree_shape e
  | _ => false
  end.

(** [stderr] still starts with [base] and holds [k] lines or more. *)
Definition written (base : list string) (k : nat) (s : state) : Prop :=
  base `prefix_of` stderr s /\ (k <= length (stderr s))%nat.

(** What [ParsePrimary] and [ParseBinOpRHS] answer: an object of the shape
    above, or [None] after one more line at least was written. *)
Definition primary_post (base : list string) (k : nat)
    (v : pyval ExprAST) (s : state) : Prop :=
  written base k s /\
  match v with
  | PyObj e => tree_shape e = true
  | PyNone => (k < length (stderr s))%nat
  | PyInt _ => False
  end.

(** What [ParseExpression] answers: the same, or the integer 0 in the place
    of [None]. *)
Definition expression_post (base : list string) (k : nat)
    (v : pyval ExprAST) (s : state) : Prop :=
  written base k s /\
  match v with
  | PyObj e => tree_shape e = true
  | PyNone => (k < length (stderr s))%nat
  | PyInt z => z = 0 /\ (k < length (stderr s))%nat
  end.

(** What the parsers of top-level forms answer: an object, or [None] after
    one more line at least was written. *)
Definition toplevel_post {A} (ok : A -> Prop) (base : list string) (k : nat)
    (v : pyval A) (s : state) : Prop :=
  written base k s /\
  match v with
  | PyObj a => ok a
  | PyNone => (k < length (stderr s))%nat
  | PyInt _ => False
  end.

(** A function object as the parser builds it: the prototype is an object
    and the body an object of the shape above. *)
Definition function_shape (f : FunctionAST) : Prop :=
  match f with
  | MkFunctionAST proto body =>
      (exists p, proto = PyObj p) /\ object_shape body = true
  end.

(** What [GetTokPrecedence] answers when [t] is the current token and [T]
    the table. *)
Definition precedence (T : gmap string Z) (t : token) : Z :=
  match t with
  | TokInt _ => -1
  | TokStr c =>
      let TokPrec := default (-1) (T !! c) in
      if (TokPrec <=? 0)%Z then -1 else TokPrec
  end.

(** A tree that is not a binary node: what [ParsePrimary] builds. *)
Definition is_primary (e : ExprAST) : bool :=
  match e with
  | BinaryExprAST _ _ _ => false
  | _ => true
  end.

(** No operand is missing: both operands of every binary node and every
    argument of every call are objects. *)
Fixpoint complete (e : ExprAST) : bool :=
  match e with
  | NumberExprAST _ => true
  | VariableExprAST _ => true
  | BinaryExprAST _ lhs rhs =>
      match lhs with PyObj l => complete l | _ => false end
      && match rhs with PyObj r => complete r | _ => false end
  | CallExprAST _ args =>
      forallb (fun a => match a with
                        | PyObj e' => complete e'
                        | _ => false
                        end) args
  end.

Definition value_complete (v : pyval ExprAST) : bool :=
  match v with
  | PyObj e => complete e
  | _ => false
  end.

(** When [v] is a binary node, its operator binds with [p] at least. *)
Definition root_ge (T : gmap string Z) (p : Z) (v : pyval ExprAST) : bool :=
  match v with
  | PyObj (BinaryExprAST op _ _) => (p <=? precedence T op)%Z
  | _ => true
  end.

(** The tree follows the precedences of [T]: a binary node that is the left
    operand of another binds at least as tightly as that one, a binary node
    that is the right operand of another binds strictly tighter; the same
    inside the operands and the arguments of calls. *)
Fixpoint ordered (T : gmap string Z) (e : ExprAST) : bool :=
  match e with
  | NumberExprAST _ => true
  | VariableExprAST _ => true
  | BinaryExprAST op lhs rhs =>
      root_ge T (precedence T op) lhs
      && root_ge T (precedence T op + 1) rhs
      && match lhs with PyObj l => ordered T l | _ => true end
      && match rhs with PyObj r => ordered T r | _ => true end
  | CallExprAST _ args =>
      forallb (fun a => match a with
                        | PyObj e' => ordered T e'
                        | _ => true
                        end) args
  end.

Definition value_ordered (T : gmap string Z) (v : pyval ExprAST) : bool :=
  match v with
  | PyObj e => ordered T e
  | _ => true
  end.

(** Arguments that are in order as far as they are complete. *)
Definition argument_ok (T : gmap string Z) (a : pyval ExprAST) : bool :=
  implb (value_complete a) (value_ordered T a).

(** An operand as [ParsePrimary] returns it. *)
Definition primary_ok (T : gmap string Z) (v : pyval ExprAST) : Prop :=
  match v with
  | PyObj e => is_primary e = true /\ (complete e = true -> ordered T e = true)
  | _ => True
  end.

Definition climb_primary (T : gmap string Z) (v : pyval ExprAST) (s : state) : Prop :=
  table_is T s /\ primary_ok T v.

(** What [ParseBinOpRHS] called with the minimal precedence [E] answers: it
    stops in front of a token that binds less tightly than [E], and every
    operator it has merged at its own level binds with [E] at least. *)
Definition climb_binop (T : gmap string Z) (E : Z)
    (v : pyval ExprAST) (s : state) : Prop :=
  table_is T s /\
  match v with
  | PyObj e =>
      precedence T (CurTok s) < E /\
      (complete e = true -> ordered T e = true /\ root_ge T E v = true)
  | _ => True
  end.

Definition climb_expression (T : gmap string Z)
    (v : pyval ExprAST) (s : state) : Prop :=
  table_is T s /\
  match v with
  | PyObj e => complete e = true -> ordered T e = true
  | _ => True
  end.

(** The input is used up where the lexer has said so: an empty [LastChar]
    comes with an empty [stdin], and the token [tok_eof] with an empty
    [LastChar]. *)
Definition at_end (s : state) : Prop :=
  eof_seen s /\ (CurTok s = tok_eof -> LastChar s = "").

(** Every '#' of [x] is followed, sooner or later, by a line end: no comment
    is cut off by the end of the input. *)
Fixpoint comments_closed (x : string) : bool :=
  match x with
  | EmptyString => true
  | String c rest =>
      (if Ascii.eqb c "#" then has_line_end rest else true) && comments_closed rest
  end.

(** The number of characters not yet turned into a token. *)
Definition unread (s : state) : nat := String.length (pending s).

(** The same, counting the current token unless it is [tok_eof]. *)
Definition work_left (s : state) : nat :=
  (unread s + if tok_eqb (CurTok s) tok_eof then 0 else 1)%nat.

(** A state the lexer may have left, on an input whose comments are closed. *)
Definition tame (s : state) : Prop :=
  one_char (LastChar s) = true /\ comments_closed (pending s) = true.

(** From [s] to [s'] nothing was put back. *)
Definition advance (s s' : state) : Prop :=
  tame s' /\ (unread s' <= unread s)%nat /\ (work_left s' <= work_left s)%nat.

(** The same, and a true answer has used up a token at least. *)
Definition parsed {A} (s : state) (v : pyval A) (s' : state) : Prop :=
  advance s s' /\ (truthy v = true -> (work_left s' < work_left s)%nat).

(** What [gettok] has used up between [s] and [x]: [pending s] is [consumed]
    followed by [pending x], and [consumed] is not empty when [b] is set. *)
Definition used (s x : state) (b : bool) : Prop :=
  exists consumed, pending s = consumed +:+ pending x /\ (b = true -> consumed <> "").

(** What one call of the lexer does to a tame state. *)
Definition lexer_step (s : state) (t : token) (s' : state) : Prop :=
  tame s' /\ CurTok s' = CurTok s /\ (unread s' <= unread s)%nat /\
  (tok_eqb t tok_eof = false -> (unread s' < unread s)%nat).

(** What reading a token into [CurTok] does. *)
Definition token_step (s : state) (t : token) (s' : state) : Prop :=
  CurTok s' = t /\ advance s s' /\
  (tok_eqb (CurTok s) tok_eof = false -> (work_left s' < work_left s)%nat).

(** The same as [advance], with less left to do in any case. *)
Definition used_up {A} (s : state) (v : A) (s' : state) : Prop :=
  advance s s' /\ (work_left s' < work_left s)%nat.

(** Total correctness: from some amount of fuel on, the call [f] started in
    [s] has one and the same outcome, which is not running out of fuel; when
    it returns, [Q] holds. *)
Definition halts {A} (f : nat -> M A) (Q : A -> state -> Prop) (s : state) : Prop :=
  exists N o,
    (forall n, (N <= n)%nat -> f n s = o) /\
    match o with
    | Ret a s' => Q a s'
    | Raise _ _ => True
    | OutOfFuel => False
    end.

Fixpoint all_alnum (x : string) : bool :=
  match x with
  | EmptyString => true
  | String c rest => is_alnum c && all_alnum rest
  end.

(** A letter followed by letters and digits. *)
Definition is_word (x : string) : bool :=
  match x with
  | String c rest => is_alpha c && all_alnum rest
  | EmptyString => false
  end.

(** A word that is not one of the two key words. *)
Definition is_name (x : string) : bool :=
  is_word x && negb (String.eqb x "def") && negb (String.eqb x "extern").

(** Every variable and every callee of the tree is such a name. *)
Fixpoint all_names (e : ExprAST) : bool :=
  match e with
  | NumberExprAST _ => true
  | VariableExprAST x => is_name x
  | BinaryExprAST _ lhs rhs =>
      match lhs with PyObj l => all_names l | _ => true end
      && match rhs with PyObj r => all_names r | _ => true end
  | CallExprAST f args =>
      is_name f
      && forallb (fun a => match a with
                           | PyObj e' => all_names e'
                           | _ => true
                           end) args
  end.

Definition value_names (v : pyval ExprAST) : bool :=
  match v with
  | PyObj e => all_names e
  | _ => true
  end.

Definition prototype_names (v : pyval PrototypeAST) : bool :=
  match v with
  | PyObj (MkPrototypeAST name args) => is_name name && forallb is_name args
  | _ => true
  end.

Definition function_names (v : pyval FunctionAST) : bool :=
  match v with
  | PyObj (MkFunctionAST proto body) => prototype_names proto && value_names body
  | _ => true
  end.

(** A state the lexer may have left, with a name in the payload buffer when
    the current token is an identifier. *)
Definition named (s : state) : Prop :=
  one_char (LastChar s) = true /\
  (CurTok s = tok_identifier -> is_name (IdentifierStr s) = true).

Definition names_post (v : pyval ExprAST) (s : state) : Prop :=
  named s /\ value_names v = true.


(** ** Reasoning about calls that return *)

(** Running a [bind] whose first part is known. *)
Lemma bind_returns {A B} (m : M A) (k : A -> M B) s a s1 :
  m s = Ret a s1 -> bind m k s = k a s1.
Proof. intros E. unfold bind. rewrite E. reflexivity. Qed.

Lemma bind_out_of_fuel {A B} (m : M A) (k : A -> M B) s :
  m s = OutOfFuel -> bind m k s = OutOfFuel.
Proof. intros E. unfold bind. rewrite E. reflexivity. Qed.

Lemma wp_ret {A} (a : A) (Q : A -> state -> Prop) s : Q a s -> wp (ret a) Q s.
Proof. intros H a' s' E. inversion E; subst; exact H. Qed.

Lemma wp_bind {A B} (m : M A) (k : A -> M B) (Q : B -> state -> Prop) s :
  wp m (fun a s1 => wp (k a) Q s1) s -> wp (bind m k) Q s.
Proof.
  intros H b s' E. unfold bind in E.
  destruct (m s) as [a s1| |] eqn:Em; try discriminate.
  exact (H a s1 Em b s' E).
Qed.

Lemma wp_get (Q : state -> state -> Prop) s : Q s s -> wp get Q s.
Proof. intros H a s' E. inversion E; subst; exact H. Qed.

Lemma wp_modify f (Q : unit -> state -> Prop) s : Q tt (f s) -> wp (modify f) Q s.
Proof. intros H a s' E. inversion E; subst; exact H. Qed.

Lemma wp_raise {A} e (Q : A -> state -> Prop) s : wp (raise e) Q s.
Proof. intros a s' E. discriminate. Qed.

Lemma wp_out_of_fuel {A} (Q : A -> state -> Prop) s : wp (fun _ => OutOfFuel) Q s.
Proof. intros a s' E. discriminate. Qed.

Lemma wp_mono {A} (m : M A) (Q Q' : A -> state -> Prop) s :
  wp m Q s -> (forall a s', Q a s' -> Q' a s') -> wp m Q' s.
Proof. intros H HQ a s' E. apply HQ, H, E. Qed.

Lemma wp_getchar (Q : string -> state -> Prop) s :
  Q "" s -> (forall c rest, Q (String c "") (set_stdin rest s)) -> wp getchar Q s.
Proof.
  intros H0 H1 a s' E. unfold getchar in E.
  destruct (stdin s); inversion E; subst; auto.
Qed.

(** A loop keeps an invariant [I] of its local variables and the state, and
    leaves with [J]. *)
Lemma wp_loop {L R} (body : L -> M (flow L R))
    (I : L -> state -> Prop) (J : R -> state -> Prop) (Q : R -> state -> Prop) :
  (forall l s, I l s ->
     wp (body l) (fun r s' => match r with
                              | Continue l' => I l' s'
                              | Done r => J r s'
                              end) s) ->
  (forall r s, J r s -> Q r s) ->
  forall n l s, I l s -> wp (loop n body l) Q s.
Proof.
  intros Hbody HJ n. induction n as [|n IH]; intros l s Hl.
  - apply wp_out_of_fuel.
  - cbn [loop]. apply wp_bind. eapply wp_mono; [apply Hbody, Hl|].
    intros [l'|r] s' H; cbv beta iota in *.
    + apply IH, H.
    + apply wp_ret, HJ, H.
Qed.

Ltac wp_step :=
  lazymatch goal with
  | |- wp (bind _ _) _ _ => apply wp_bind
  | |- wp (ret _) _ _ => apply wp_ret
  | |- wp get _ _ => apply wp_get
  | |- wp (modify _) _ _ => apply wp_modify
  | |- wp (raise _) _ _ => apply wp_raise
  | |- wp (unbound_name _) _ _ => apply wp_raise
  | |- wp getchar _ _ => apply wp_getchar; [|intros ? ?]
  | |- wp (fun _ => OutOfFuel) _ _ => apply wp_out_of_fuel
  | |- wp (error _) _ _ => unfold error
  | |- wp (errorP _) _ _ => unfold errorP
  | |- wp (eprint _) _ _ => unfold eprint
  | |- wp (eprint_noend _) _ _ => unfold eprint_noend
  | |- wp (if ?b then _ else _) _ _ => destruct b eqn:?
  | |- wp (match ?x with _ => _ end) _ _ => destruct x eqn:?
  end; cbv beta.

Ltac wp_steps := repeat wp_step.

(** A call whose postcondition is known from the lemma [H]. *)
Ltac wp_call H :=
  eapply wp_mono; [apply H; auto | cbv beta].

(** ** More fuel changes no answer *)

Lemma refines_refl {A} (m : M A) : refines m m.
Proof. intros s. right. reflexivity. Qed.

Lemma refines_out_of_fuel {A} (m : M A) : refines (fun _ => OutOfFuel) m.
Proof. intros s. left. reflexivity. Qed.

Lemma bind_mono {A B} (m m' : M A) (k k' : A -> M B) :
  refines m m' -> (forall a, refines (k a) (k' a)) -> refines (bind m k) (bind m' k').
Proof.
  intros Hm Hk s. unfold bind.
  destruct (Hm s) as [E|E]; rewrite E; [left; reflexivity|].
  destruct (m' s) as [a s1|e s1|]; [apply Hk|right; reflexivity|left; reflexivity].
Qed.

Lemma loop_mono {L R} (body body' : L -> M (flow L R)) (n n' : nat) :
  (forall l, refines (body l) (body' l)) -> (n <= n')%nat ->
  forall l, refines (loop n body l) (loop n' body' l).
Proof.
  intros Hbody. revert n'. induction n as [|n IH]; intros n' Hle l.
  - apply refines_out_of_fuel.
  - destruct n' as [|n']; [lia|]. cbn [loop].
    apply bind_mono; [apply Hbody|].
    intros [l'|r]; [apply IH; lia|apply refines_refl].
Qed.

Ltac mono :=
  repeat first
    [ assumption
    | solve [auto]
    | apply refines_refl
    | apply refines_out_of_fuel
    | apply bind_mono; [|intros ?]
    | apply loop_mono; [intros ?|lia]
    | match goal with
      | |- refines (if ?b then _ else _) _ => destruct b
      | |- refines (match ?x with _ => _ end) _ => destruct x
      | H : forall n', (_ <= n')%nat -> _ |- _ => apply H; lia
      end ].

Lemma gettok_mono n : forall n', (n <= n')%nat -> refines (gettok n) (gettok n').
Proof.
  induction n as [|n IH]; intros n' Hle; [apply refines_out_of_fuel|].
  destruct n' as [|n']; [lia|]. cbn [gettok]. unfold gettok_.
  assert (Hrec : refines (gettok n) (gettok n')) by (apply IH; lia).
  mono.
Qed.

Lemma getNextToken_mono n n' :
  (n <= n')%nat -> refines (getNextToken n) (getNextToken n').
Proof.
  intros Hle. unfold getNextToken.
  pose proof (gettok_mono n n' Hle). mono.
Qed.

Section BodiesMono.

Variables n n' : nat.
Hypothesis Hle : (n <= n')%nat.
Variables PE PE' PP PP' PI PI' PR PR' : M (pyval ExprAST).
Variables PB PB' : Z -> pyval ExprAST -> M (pyval ExprAST).
Hypothesis PE_mono : refines PE PE'.
Hypothesis PP_mono : refines PP PP'.
Hypothesis PI_mono : refines PI PI'.
Hypothesis PR_mono : refines PR PR'.
Hypothesis PB_mono : forall E L, refines (PB E L) (PB' E L).

Let tok_mono : refines (getNextToken n) (getNextToken n') := getNextToken_mono n n' Hle.

Lemma ParseIdentifierExpr__mono :
  refines (ParseIdentifierExpr_ n PE) (ParseIdentifierExpr_ n' PE').
Proof. unfold ParseIdentifierExpr_. mono. Qed.

Lemma ParseParenExpr__mono :
  refines (ParseParenExpr_ n PE) (ParseParenExpr_ n' PE').
Proof. unfold ParseParenExpr_. mono. Qed.

Lemma ParsePrimary__mono :
  refines (ParsePrimary_ n PI PR) (ParsePrimary_ n' PI' PR').
Proof. unfold ParsePrimary_, ParseNumberExpr. mono. Qed.

Lemma ParseBinOpRHS__mono E L :
  refines (ParseBinOpRHS_ n PP PB E L) (ParseBinOpRHS_ n' PP' PB' E L).
Proof. unfold ParseBinOpRHS_. mono. Qed.

Lemma ParseExpression__mono :
  refines (ParseExpression_ PP PB) (ParseExpression_ PP' PB').
Proof. unfold ParseExpression_. mono. Qed.

End BodiesMono.

Lemma parser_mono n :
  forall n', (n <= n')%nat ->
    refines (ParseExpression n) (ParseExpression n') /\
    refines (ParsePrimary n) (ParsePrimary n') /\
    refines (ParseIdentifierExpr n) (ParseIdentifierExpr n') /\
    refines (ParseParenExpr n) (ParseParenExpr n') /\
    (forall E L, refines (ParseBinOpRHS n E L) (ParseBinOpRHS n' E L)).
Proof.
  induction n as [|n IH]; intros n' Hle.
  - split; [|split; [|split; [|split]]]; intros; apply refines_out_of_fuel.
  - destruct n' as [|n']; [lia|].
    destruct (IH n' ltac:(lia)) as (He & Hp & Hi & Hr & Hb).
    assert (Hn : (n <= n')%nat) by lia.
    split; [|split; [|split; [|split]]]; intros.
    + apply (ParseExpression__mono _ _ _ _ Hp Hb).
    + apply (ParsePrimary__mono n n' Hn _ _ _ _ Hi Hr).
    + apply (ParseIdentifierExpr__mono n n' Hn _ _ He).
    + apply (ParseParenExpr__mono n n' Hn _ _ He).
    + apply (ParseBinOpRHS__mono n n' Hn _ _ _ _ Hp Hb).
Qed.

Lemma ParseExpression_mono n n' :
  (n <= n')%nat -> refines (ParseExpression n) (ParseExpression n').
Proof. intros H. apply parser_mono, H. Qed.

Lemma ParsePrototype_mono n n' :
  (n <= n')%nat -> refines (ParsePrototype n) (ParsePrototype n').
Proof.
  intros Hle. pose proof (getNextToken_mono n n' Hle).
  unfold ParsePrototype. mono.
Qed.

Lemma main_prime_mono n n' :
  (n <= n')%nat -> refines (main_prime n) (main_prime n').
Proof.
  intros Hle. pose proof (getNextToken_mono n n' Hle).
  unfold main_prime. mono.
Qed.

(** The whole program: a run that returned or raised with [n] does the same
    with any larger amount. *)
Lemma main_mono n n' : (n <= n')%nat -> refines (main n) (main n').
Proof.
  intros Hle.
  pose proof (getNextToken_mono n n' Hle).
  pose proof (ParseExpression_mono n n' Hle).
  pose proof (ParsePrototype_mono n n' Hle).
  pose proof (main_prime_mono n n' Hle).
  unfold main, MainLoop, HandleDefinition, HandleExtern, HandleTopLevelExpression,
    ParseDefinition, ParseExtern, ParseTopLevelExpr.
  mono.
Qed.

Lemma refines_returns {A} (m m' : M A) s a s' :
  refines m m' -> m s = Ret a s' -> m' s = Ret a s'.
Proof. intros H E. destruct (H s) as [E'|E']; congruence. Qed.

Lemma refines_raises {A} (m m' : M A) s e s' :
  refines m m' -> m s = Raise e s' -> m' s = Raise e s'.
Proof. intros H E. destruct (H s) as [E'|E']; congruence. Qed.

(** ** The tokens of the lexer *)

(** Whatever [gettok] returns is a token of [token_shape]: a string token
    holds one character, and that character is a plain one. *)
Lemma gettok_token_shape n :
  forall s, one_char (LastChar s) = true ->
    wp (gettok n) (fun t s' => one_char (LastChar s') = true /\ token_shape t = true) s.
Proof.
  induction n as [|n IH]; intros s Hs; cbn [gettok].
  - apply wp_out_of_fuel.
  - unfold gettok_.
    wp_step.
    apply (wp_loop _ (fun _ s => one_char (LastChar s) = true)
             (fun _ s => one_char (LastChar s) = true
                         /\ re_match is_space (LastChar s) = false));
      [| |exact Hs].
    { intros _ s0 H0. wp_steps; auto. }
    intros _ s1 [H1 Hsp]. wp_steps.
    + apply (wp_loop _ (fun _ s => one_char (LastChar s) = true)
               (fun _ s => one_char (LastChar s) = true)); [| |reflexivity].
      * intros _ s2 H2. wp_steps; auto.
      * intros _ s2 H2. wp_steps; auto.
    + apply (wp_loop _ (fun _ s => one_char (LastChar s) = true)
               (fun _ s => one_char (LastChar s) = true)); [| |reflexivity].
      * intros _ s2 H2. wp_steps; auto.
      * intros _ s2 H2. wp_steps; auto.
    + apply (wp_loop _ (fun _ s => one_char (LastChar s) = true)
               (fun _ s => one_char (LastChar s) = true)); [| |exact H1].
      * intros l s2 H2. wp_steps; auto.
      * intros r s2 H2. wp_steps; auto.
    + apply (wp_loop _ (fun _ s => one_char (LastChar s) = true)
               (fun _ s => one_char (LastChar s) = true
                           /\ String.eqb (LastChar s) "" = false));
        [| |exact H1].
      * intros _ s2 H2. wp_steps; auto.
      * intros _ s2 [H2 Hne].
        wp_steps;
          try match goal with
              | H : negb false = false |- _ => discriminate H
              | H : negb _ = false |- _ => rewrite Hne in H; discriminate H
              end.
        wp_call IH. intros t s3 H3. wp_steps. exact H3.
    + auto.
    + split; [reflexivity|].
      destruct (LastChar s1) as [|a [|a' r]]; try discriminate.
      cbn in *. unfold plain_char.
      rewrite Hsp, Heqb. apply orb_false_iff in Heqb0 as [-> Hdot].
      destruct (Ascii.eqb a ".") eqn:E1; [discriminate|].
      destruct (Ascii.eqb a "#") eqn:E2; [discriminate|]. reflexivity.
    + split; [reflexivity|].
      destruct (LastChar s1) as [|a [|a' r]]; try discriminate.
      cbn in *. unfold plain_char.
      rewrite Hsp, Heqb. apply orb_false_iff in Heqb0 as [-> Hdot].
      destruct (Ascii.eqb a ".") eqn:E1; [discriminate|].
      destruct (Ascii.eqb a "#") eqn:E2; [discriminate|]. reflexivity.
Qed.

(** Conversely a plain character in [LastChar] is returned as it is, and
    the lexer moves one character on. *)
Lemma gettok_plain_char n s c :
  LastChar s = String c "" -> plain_char c = true ->
  exists next rest,
    getchar s = Ret next rest /\
    gettok (S (S n)) s = Ret (TokStr (String c "")) (set_LastChar next rest).
Proof.
  intros HL Hc. unfold plain_char in Hc.
  repeat (apply andb_true_iff in Hc as [Hc ?]).
  apply negb_true_iff in Hc. repeat match goal with
    | H : negb _ = true |- _ => apply negb_true_iff in H end.
  assert (Hg : exists next rest, getchar s = Ret next rest).
  { unfold getchar. destruct (stdin s); eauto. }
  destruct Hg as (next & rest & Hg). exists next, rest. split; [exact Hg|].
  cbn [gettok]. unfold gettok_.
  erewrite bind_returns
    by (cbn [loop]; unfold bind, get; rewrite HL; cbn [re_match]; rewrite Hc; reflexivity).
  erewrite bind_returns by reflexivity. cbv beta. rewrite HL. cbn [re_match].
  replace (String c "" =? ".")%string with false
    by (cbn; destruct (Ascii.eqb c "."); [discriminate|reflexivity]).
  replace (String c "" =? "#")%string with false
    by (cbn; destruct (Ascii.eqb c "#"); [discriminate|reflexivity]).
  repeat match goal with H : _ = false |- _ => rewrite H end. cbn [orb].
  erewrite bind_returns by reflexivity. cbv beta iota.
  erewrite bind_returns by reflexivity. cbv beta. rewrite HL.
  change (String c "" =? "")%string with false. cbv iota.
  erewrite bind_returns by exact Hg. reflexivity.
Qed.

(** ** What the parser does to the tokens it reads *)

Lemma gettok_table T n :
  forall s, table_is T s -> wp (gettok n) (fun _ s' => table_is T s') s.
Proof.
  induction n as [|n IH]; intros s Hs; cbn [gettok].
  - apply wp_out_of_fuel.
  - unfold gettok_.
    wp_step.
    apply (wp_loop _ (fun _ s => table_is T s) (fun _ s => table_is T s));
      [| |exact Hs].
    { intros _ s0 H0. wp_steps; exact H0. }
    intros _ s1 H1. wp_steps; try exact H1.
    all: apply (wp_loop _ (fun _ s => table_is T s) (fun _ s => table_is T s));
      [intros ? s0 H0; wp_steps; exact H0 | | exact H1].
    all: intros ? s2 H2; wp_steps; try exact H2.
    wp_call IH. intros t s3 H3. wp_steps; exact H3.
Qed.

Lemma getNextToken_table T n s :
  table_is T s -> wp (getNextToken n) (fun _ s' => table_is T s') s.
Proof.
  intros Hs. unfold getNextToken. wp_step.
  wp_call (gettok_table T). intros t s1 H1. wp_steps. exact H1.
Qed.

Lemma getNextToken_lexer_ok n s :
  lexer_ok s = true -> wp (getNextToken n) (fun _ s' => lexer_ok s' = true) s.
Proof.
  unfold lexer_ok. intros Hs. apply andb_true_iff in Hs as [Hl _].
  unfold getNextToken. wp_step.
  wp_call gettok_token_shape. intros t s1 [H1 Ht]. wp_steps.
  cbn [LastChar CurTok set_CurTok]. rewrite H1. cbn [andb].
  destruct t as [z|[|c [|c' r]]]; cbn in *; congruence.
Qed.

Lemma wp_GetTokPrecedence (Q : Z -> state -> Prop) s :
  (forall p, p = -1 \/ (0 < p /\ op_in_table (BinopPrecedence s) (CurTok s) = true) ->
             Q p s) ->
  wp GetTokPrecedence Q s.
Proof.
  intros H. unfold GetTokPrecedence. wp_steps; apply H; auto.
  right. unfold op_in_table.
  destruct (BinopPrecedence s !! c) as [p|]; cbn in *; [|discriminate].
  split; [lia|]. apply Z.ltb_lt. lia.
Qed.

(** The parser under an invariant [Inv] of the state that reading a token
    and writing a message keep, and that makes [P] hold of the current token
    whenever that is a declared operator: every operator of a returned tree
    satisfies [P]. *)
Section OperatorInvariant.

Variable Inv : state -> Prop.
Variable P : token -> bool.

Hypothesis Inv_token : forall n s,
  Inv s -> wp (getNextToken n) (fun _ s' => Inv s') s.
Hypothesis Inv_stderr : forall x s, Inv s -> Inv (set_stderr x s).
Hypothesis Inv_operator : forall s,
  Inv s -> op_in_table (BinopPrecedence s) (CurTok s) = true -> P (CurTok s) = true.

Lemma all_ops_BinaryExprAST op lhs rhs :
  all_ops P (BinaryExprAST op lhs rhs) = P op && value_ops P lhs && value_ops P rhs.
Proof. reflexivity. Qed.

Section Bodies.

Variable n : nat.
Variables PE PP PI PR : M (pyval ExprAST).
Variable PB : Z -> pyval ExprAST -> M (pyval ExprAST).

Hypothesis PE_ok : forall s, Inv s -> wp PE (ops_post Inv P) s.
Hypothesis PP_ok : forall s, Inv s -> wp PP (ops_post Inv P) s.
Hypothesis PI_ok : forall s, Inv s -> wp PI (ops_post Inv P) s.
Hypothesis PR_ok : forall s, Inv s -> wp PR (ops_post Inv P) s.
Hypothesis PB_ok : forall E L s,
  0 <= E -> value_ops P L = true -> Inv s -> wp (PB E L) (ops_post Inv P) s.

Lemma ParseNumberExpr_ok s :
  Inv s -> wp (ParseNumberExpr n) (ops_post Inv P) s.
Proof.
  intros Hs. unfold ParseNumberExpr. wp_steps.
  wp_call Inv_token. intros t s1 H1. wp_steps. split; auto.
Qed.

Lemma ParseIdentifierExpr__ok s :
  Inv s -> wp (ParseIdentifierExpr_ n PE) (ops_post Inv P) s.
Proof.
  intros Hs. unfold ParseIdentifierExpr_. wp_steps.
  wp_call Inv_token. intros t s1 H1. wp_steps.
  { split; auto. }
  wp_call Inv_token. intros t2 s2 H2. wp_steps.
  - apply (wp_loop _ (fun args s => Inv s /\ forallb (value_ops P) args = true)
             (fun r s => Inv s /\
                         match r with
                         | inl args => forallb (value_ops P) args = true
                         | inr v => value_ops P v = true
                         end)).
    + intros args s3 [H3 Hargs]. wp_step.
      wp_call PE_ok. intros arg s4 [H4 Harg]. wp_steps; try (split; auto).
      * rewrite forallb_app, Hargs. cbn. rewrite Harg. reflexivity.
      * wp_call Inv_token. intros t5 s5 H5. wp_steps. split; auto.
        rewrite forallb_app, Hargs. cbn. rewrite Harg. reflexivity.
    + intros [args|v] s3 [H3 Hr]; wp_steps.
      * wp_call Inv_token. intros t4 s4 H4. wp_steps. split; auto.
      * split; auto.
    + split; auto.
  - wp_call Inv_token. intros t3 s3 H3. wp_steps. split; auto.
Qed.

Lemma ParseParenExpr__ok s :
  Inv s -> wp (ParseParenExpr_ n PE) (ops_post Inv P) s.
Proof.
  intros Hs. unfold ParseParenExpr_. wp_step.
  wp_call Inv_token. intros t s1 H1. wp_step.
  wp_call PE_ok. intros v s2 _. wp_steps.
Qed.

Lemma ParsePrimary__ok s :
  Inv s -> wp (ParsePrimary_ n PI PR) (ops_post Inv P) s.
Proof.
  intros Hs. unfold ParsePrimary_. wp_steps.
  - apply PI_ok, Hs.
  - apply ParseNumberExpr_ok, Hs.
  - apply PR_ok, Hs.
  - split; auto.
Qed.

Lemma ParseBinOpRHS__ok E L s :
  0 <= E -> value_ops P L = true -> Inv s ->
  wp (ParseBinOpRHS_ n PP PB E L) (ops_post Inv P) s.
Proof.
  intros HE HL Hs. unfold ParseBinOpRHS_.
  apply (wp_loop _ (fun L s => Inv s /\ value_ops P L = true) (ops_post Inv P));
    [|auto|split; auto].
  clear L s HL Hs. intros L s [Hs HL]. wp_step.
  apply wp_GetTokPrecedence. intros p Hp. wp_steps.
  { split; auto. }
  assert (Hop : P (CurTok s) = true).
  { apply Z.ltb_ge in Heqb. destruct Hp as [->|[_ Hp]]; [lia|].
    apply Inv_operator; assumption. }
  assert (Hp0 : 0 <= p + 1) by (apply Z.ltb_ge in Heqb; lia).
  wp_call Inv_token. intros t s1 H1. wp_step.
  wp_call PP_ok. intros RHS s2 [H2 HR]. wp_steps.
  { split; auto. }
  apply wp_GetTokPrecedence. intros q _. wp_steps.
  - wp_call PB_ok. intros RHS' s3 [H3 HR']. wp_steps.
    + split; auto.
    + split; auto. cbn [value_ops]. rewrite all_ops_BinaryExprAST, Hop, HL, HR'.
      reflexivity.
  - split; auto. cbn [value_ops]. rewrite all_ops_BinaryExprAST, Hop, HL, HR.
    reflexivity.
Qed.

Lemma ParseExpression__ok s :
  Inv s -> wp (ParseExpression_ PP PB) (ops_post Inv P) s.
Proof.
  intros Hs. unfold ParseExpression_. wp_step.
  wp_call PP_ok. intros LHS s1 [H1 HL]. wp_steps.
  - split; auto.
  - apply PB_ok; auto. lia.
Qed.

End Bodies.

(** The five mutually recursive functions, at every depth. *)
Lemma parser_ops fuel :
  (forall s, Inv s -> wp (ParseExpression fuel) (ops_post Inv P) s) /\
  (forall s, Inv s -> wp (ParsePrimary fuel) (ops_post Inv P) s) /\
  (forall s, Inv s -> wp (ParseIdentifierExpr fuel) (ops_post Inv P) s) /\
  (forall s, Inv s -> wp (ParseParenExpr fuel) (ops_post Inv P) s) /\
  (forall E L s, 0 <= E -> value_ops P L = true -> Inv s ->
                 wp (ParseBinOpRHS fuel E L) (ops_post Inv P) s).
Proof.
  induction fuel as [|n (IHe & IHp & IHi & IHr & IHb)].
  - split; [|split; [|split; [|split]]]; intros; apply wp_out_of_fuel.
  - split; [|split; [|split; [|split]]]; intros.
    + change (wp (ParseExpression_ (ParsePrimary n) (ParseBinOpRHS n)) (ops_post Inv P) s).
      apply ParseExpression__ok; auto.
    + change (wp (ParsePrimary_ n (ParseIdentifierExpr n) (ParseParenExpr n))
                (ops_post Inv P) s).
      apply ParsePrimary__ok; auto.
    + change (wp (ParseIdentifierExpr_ n (ParseExpression n)) (ops_post Inv P) s).
      apply ParseIdentifierExpr__ok; auto.
    + change (wp (ParseParenExpr_ n (ParseExpression n)) (ops_post Inv P) s).
      apply ParseParenExpr__ok; auto.
    + change (wp (ParseBinOpRHS_ n (ParsePrimary n) (ParseBinOpRHS n) E L)
                (ops_post Inv P) s).
      apply ParseBinOpRHS__ok; auto.
Qed.

Lemma ParsePrototype_inv fuel s :
  Inv s -> wp (ParsePrototype fuel) (fun _ s' => Inv s') s.
Proof.
  intros Hs. unfold ParsePrototype. wp_steps; auto.
  wp_call Inv_token. intros t s1 H1. wp_steps; auto.
  apply (wp_loop _ (fun _ s => Inv s) (fun _ s => Inv s)); auto.
  - intros args s2 H2. wp_step.
    wp_call Inv_token. intros t2 s3 H3. wp_steps; auto.
  - intros args s2 H2. wp_steps; auto.
    wp_call Inv_token. intros t3 s3 H3. wp_steps; auto.
Qed.

Lemma ParseDefinition_ops fuel s :
  Inv s ->
  wp (ParseDefinition fuel) (fun f s' => Inv s' /\ function_ops P f = true) s.
Proof.
  intros Hs. unfold ParseDefinition. wp_step.
  wp_call Inv_token. intros t s1 H1. wp_step.
  wp_call ParsePrototype_inv. intros Proto s2 H2. wp_steps; auto.
  wp_call (proj1 (parser_ops fuel)). intros E s3 [H3 HE]. wp_steps; auto.
Qed.

Lemma ParseTopLevelExpr_ops fuel s :
  Inv s ->
  wp (ParseTopLevelExpr fuel) (fun f s' => Inv s' /\ function_ops P f = true) s.
Proof.
  intros Hs. unfold ParseTopLevelExpr. wp_step.
  wp_call (proj1 (parser_ops fuel)). intros E s3 [H3 HE]. wp_steps; auto.
Qed.

End OperatorInvariant.

(** First use: the table stays what it was, and the operators are keys of
    it with a positive value. *)
Lemma table_operator T s :
  table_is T s -> op_in_table (BinopPrecedence s) (CurTok s) = true ->
  op_in_table T (CurTok s) = true.
Proof. intros <- H. exact H. Qed.

(** Second use: in a state the lexer may have left, the operators are
    one-character tokens. *)
Lemma lexer_ok_operator s :
  lexer_ok s = true -> op_in_table (BinopPrecedence s) (CurTok s) = true ->
  char_token (CurTok s) = true.
Proof.
  unfold lexer_ok. intros Hs Hop. apply andb_true_iff in Hs as [_ Hs].
  destruct (CurTok s) as [z|c]; [discriminate Hop|exact Hs].
Qed.

(** [op_in_table] spelled out: a character token, present in the table, with
    a positive binding power; an integer token never qualifies. *)
Lemma op_in_table_spec (T : gmap string Z) (op : token) :
  op_in_table T op = true <->
  exists c p, op = TokStr c /\ T !! c = Some p /\ 0 < p.
Proof.
  split.
  - destruct op as [z|c]; cbn; [discriminate|].
    destruct (T !! c) as [p|] eqn:E; [|discriminate].
    intros H. exists c, p. repeat split; auto. apply Z.ltb_lt, H.
  - intros (c & p & -> & E & Hp). cbn. rewrite E. apply Z.ltb_lt, Hp.
Qed.

(** [GetTokPrecedence] answers a positive number exactly for those tokens,
    and [-1] for every other one. *)
Lemma GetTokPrecedence_spec (s : state) :
  exists p, GetTokPrecedence s = Ret p s /\
            (if op_in_table (BinopPrecedence s) (CurTok s) then 0 < p else p = -1).
Proof.
  unfold GetTokPrecedence, bind, get, op_in_table.
  destruct (CurTok s) as [z|c]; [eexists; split; [reflexivity|reflexivity]|].
  destruct (BinopPrecedence s !! c) as [p|]; cbn.
  - destruct (p <=? 0)%Z eqn:E; eexists; (split; [reflexivity|]).
    + apply Z.leb_le in E. destruct (0 <? p)%Z eqn:E'; [apply Z.ltb_lt in E'; lia|reflexivity].
    + apply Z.leb_gt in E. destruct (0 <? p)%Z eqn:E'; [lia|apply Z.ltb_ge in E'; lia].
  - eexists; split; reflexivity.
Qed.

(** C8: whenever an expression parser or a top-level entry point returns, the
    precedence table is the one it started with, and the operator of every
    [BinaryExprAST] node of the returned tree is a character token that is a
    key of that table with a positive precedence ([op_in_table_spec]); the
    integer tokens and the characters absent from the table never are.  The
    same holds of [ParseBinOpRHS] when it is called, as everywhere in the
    program, with a minimal precedence that is not negative and a left
    operand that has the property.  From a state the lexer may have left
    ([lexer_ok]: at most one character in [LastChar], and an integer or one
    character as current token) the operators moreover hold exactly one
    character. *)
Theorem binary_operators_in_table (fuel : nat) (s s' : state) :
  (forall v, ParseExpression fuel s = Ret v s' ->
     BinopPrecedence s' = BinopPrecedence s /\
     value_ok (BinopPrecedence s) v = true) /\
  (forall v, ParsePrimary fuel s = Ret v s' ->
     BinopPrecedence s' = BinopPrecedence s /\
     value_ok (BinopPrecedence s) v = true) /\
  (forall f, ParseDefinition fuel s = Ret f s' ->
     BinopPrecedence s' = BinopPrecedence s /\
     function_ok (BinopPrecedence s) f = true) /\
  (forall f, ParseTopLevelExpr fuel s = Ret f s' ->
     BinopPrecedence s' = BinopPrecedence s /\
     function_ok (BinopPrecedence s) f = true) /\
  (forall ExprPrec LHS v,
     0 <= ExprPrec -> value_ok (BinopPrecedence s) LHS = true ->
     ParseBinOpRHS fuel ExprPrec LHS s = Ret v s' ->
     BinopPrecedence s' = BinopPrecedence s /\
     value_ok (BinopPrecedence s) v = true) /\
  (lexer_ok s = true ->
     (forall v, ParseExpression fuel s = Ret v s' -> value_ops char_token v = true) /\
     (forall f, ParseDefinition fuel s = Ret f s' -> function_ops char_token f = true) /\
     (forall f, ParseTopLevelExpr fuel s = Ret f s' -> function_ops char_token f = true)).
Proof.
  set (T := BinopPrecedence s).
  pose proof (parser_ops (table_is T) (op_in_table T)
                (getNextToken_table T) (fun _ _ H => H) (table_operator T) fuel)
    as (He & Hp & _ & _ & Hb).
  split; [|split; [|split; [|split; [|split]]]].
  - intros v E. exact (He s eq_refl v s' E).
  - intros v E. exact (Hp s eq_refl v s' E).
  - intros v E.
    exact (ParseDefinition_ops (table_is T) (op_in_table T)
             (getNextToken_table T) (fun _ _ H => H) (table_operator T)
             fuel s eq_refl v s' E).
  - intros v E.
    exact (ParseTopLevelExpr_ops (table_is T) (op_in_table T)
             (getNextToken_table T) (fun _ _ H => H) (table_operator T)
             fuel s eq_refl v s' E).
  - intros ExprPrec LHS v HE HL E. exact (Hb ExprPrec LHS s HE HL eq_refl v s' E).
  - intros Hs. split; [|split]; intros v E.
    + exact (proj2 (proj1 (parser_ops (fun s => lexer_ok s = true) char_token
                             getNextToken_lexer_ok (fun _ _ H => H) lexer_ok_operator
                             fuel) s Hs v s' E)).
    + exact (proj2 (ParseDefinition_ops (fun s => lexer_ok s = true) char_token
                      getNextToken_lexer_ok (fun _ _ H => H) lexer_ok_operator
                      fuel s Hs v s' E)).
    + exact (proj2 (ParseTopLevelExpr_ops (fun s => lexer_ok s = true) char_token
                      getNextToken_lexer_ok (fun _ _ H => H) lexer_ok_operator
                      fuel s Hs v s' E)).
Qed.

Lemma binary_operators_in_table_witness :
  (exists v s', ParseExpression 10 (primed 10 "1+2*3") = Ret (PyObj v) s' /\
     binops_in_table (BinopPrecedence (primed 10 "1+2*3")) v = true /\
     all_ops char_token v = true) /\
  (exists v s', ParsePrimary 10 (primed 10 "f(a<b, 2)-1") = Ret (PyObj v) s' /\
     binops_in_table (BinopPrecedence (primed 10 "f(a<b, 2)-1")) v = true) /\
  (exists p v s',
     ParseDefinition 10 (primed 10 "def foo(x y) x+y") = Ret (PyObj (MkFunctionAST p (PyObj v))) s' /\
     binops_in_table (BinopPrecedence (primed 10 "def foo(x y) x+y")) v = true) /\
  (exists p v s',
     ParseTopLevelExpr 10 (primed 10 "1+2*") = Ret (PyObj (MkFunctionAST p (PyObj v))) s' /\
     binops_in_table (BinopPrecedence (primed 10 "1+2*")) v = true).
Proof.
  split; [|split; [|split]].
  - assert (E : exists v s', ParseExpression 10 (primed 10 "1+2*3") = Ret (PyObj v) s')
      by (eexists _, _; vm_compute; reflexivity).
    assert (Hs : lexer_ok (primed 10 "1+2*3") = true) by (vm_compute; reflexivity).
    destruct E as (v & s' & E). exists v, s'. split; [exact E|]. split.
    + exact (proj2 (proj1 (binary_operators_in_table 10 _ s') _ E)).
    + exact (proj1 (proj2 (proj2 (proj2 (proj2 (proj2
               (binary_operators_in_table 10 _ s'))))) Hs) _ E).
  - assert (E : exists v s', ParsePrimary 10 (primed 10 "f(a<b, 2)-1") = Ret (PyObj v) s')
      by (eexists _, _; vm_compute; reflexivity).
    destruct E as (v & s' & E). exists v, s'. split; [exact E|].
    exact (proj2 (proj1 (proj2 (binary_operators_in_table 10 _ s')) _ E)).
  - assert (E : exists p v s', ParseDefinition 10 (primed 10 "def foo(x y) x+y")
                               = Ret (PyObj (MkFunctionAST p (PyObj v))) s')
      by (eexists _, _, _; vm_compute; reflexivity).
    destruct E as (p & v & s' & E). exists p, v, s'. split; [exact E|].
    exact (proj2 (proj1 (proj2 (proj2 (binary_operators_in_table 10 _ s'))) _ E)).
  - assert (E : exists p v s', ParseTopLevelExpr 10 (primed 10 "1+2*")
                               = Ret (PyObj (MkFunctionAST p (PyObj v))) s')
      by (eexists _, _, _; vm_compute; reflexivity).
    destruct E as (p & v & s' & E). exists p, v, s'. split; [exact E|].
    exact (proj2 (proj1 (proj2 (proj2 (proj2 (binary_operators_in_table 10 _ s')))) _ E)).
Defined.

(** ** Identifier payloads *)

Lemma tok_eqb_eq (a b : token) : tok_eqb a b = true -> a = b.
Proof.
  destruct a as [x|x], b as [y|y]; cbn; try discriminate; intros H.
  - apply Z.eqb_eq in H. congruence.
  - apply String.eqb_eq in H. congruence.
Qed.

Lemma tok_eqb_refl (a : token) : tok_eqb a a = true.
Proof. destruct a; cbn; [apply Z.eqb_refl|apply String.eqb_refl]. Qed.

Lemma starts_alpha_app (a b : string) :
  starts_alpha a = true -> starts_alpha (a +:+ b) = true.
Proof. destruct a; cbn; [discriminate|auto]. Qed.

Lemma starts_alpha_nonempty (a : string) : starts_alpha a = true -> a <> "".
Proof. destruct a; cbn; [discriminate|discriminate]. Qed.

(** The lexer answers [tok_identifier] only with such a name in the buffer. *)
Lemma gettok_identifier n :
  forall s, wp (gettok n)
              (fun t s' => t = tok_identifier -> starts_alpha (IdentifierStr s') = true) s.
Proof.
  induction n as [|n IH]; intros s; cbn [gettok].
  - apply wp_out_of_fuel.
  - unfold gettok_.
    wp_step.
    apply (wp_loop _ (fun _ _ => True) (fun _ _ => True)); [| |exact I].
    { intros _ s0 _. wp_steps; exact I. }
    intros _ s1 _. wp_steps; try discriminate.
    + (* identifier *)
      apply (wp_loop _ (fun _ s => starts_alpha (IdentifierStr s) = true)
               (fun _ s => starts_alpha (IdentifierStr s) = true));
        [| |exact Heqb].
      * intros _ s2 H2. wp_steps; try exact H2; cbn; apply starts_alpha_app, H2.
      * intros _ s2 H2. wp_steps; try discriminate. intros _. exact H2.
    + apply (wp_loop _ (fun _ s => starts_alpha (IdentifierStr s) = true)
               (fun _ s => starts_alpha (IdentifierStr s) = true));
        [| |exact Heqb].
      * intros _ s2 H2. wp_steps; try exact H2; cbn; apply starts_alpha_app, H2.
      * intros _ s2 H2. wp_steps; try discriminate. intros _. exact H2.
    + (* number *)
      apply (wp_loop _ (fun _ _ => True) (fun _ _ => True)); [| |exact I].
      * intros l s2 _. wp_steps; exact I.
      * intros r s2 _. wp_steps. discriminate.
    + (* comment *)
      apply (wp_loop _ (fun _ _ => True) (fun _ _ => True)); [| |exact I].
      * intros _ s2 _. wp_steps; exact I.
      * intros _ s2 _. wp_steps; try discriminate.
        wp_call IH. intros t s3 H3. wp_steps. exact H3.
Qed.

Lemma getNextToken_payload n s :
  wp (getNextToken n) (fun t s' => CurTok s' = t /\ payload_ok s' = true) s.
Proof.
  unfold getNextToken. wp_step.
  wp_call gettok_identifier. intros t s1 H1. wp_steps. split; [reflexivity|].
  unfold payload_ok. cbn.
  destruct (tok_eqb t tok_identifier) eqn:E; [|reflexivity].
  apply H1, tok_eqb_eq, E.
Qed.

Lemma ParsePrototype_named fuel s :
  payload_ok s = true ->
  wp (ParsePrototype fuel) (fun v _ => proto_named v = true) s.
Proof.
  intros Hs. unfold ParsePrototype. wp_steps; try reflexivity.
  assert (Hname : starts_alpha (IdentifierStr s) = true).
  { unfold payload_ok in Hs. apply negb_false_iff in Heqb. rewrite Heqb in Hs. exact Hs. }
  wp_call getNextToken_payload. intros t s1 _. wp_steps; try reflexivity.
  apply (wp_loop _ (fun _ _ => True) (fun _ _ => True)); [| |exact I].
  - intros args s2 _. wp_step.
    wp_call getNextToken_payload. intros t2 s3 _. wp_steps; exact I.
  - intros args s2 _. wp_steps; try reflexivity.
    wp_call getNextToken_payload. intros t3 s3 _. wp_steps. exact Hname.
Qed.

Lemma wp_any {A} (m : M A) s : wp m (fun _ _ => True) s.
Proof. intros a s' _. exact I. Qed.

(** C10: a prototype that [ParsePrototype] returns, directly from a state
    whose identifier payload is in order, or through [ParseExtern] or
    [ParseDefinition] from any state, has a name that starts with a letter
    and so is not empty; the function [ParseTopLevelExpr] returns carries the
    prototype with the empty name and no parameters. *)
Theorem prototype_names_nonempty (fuel : nat) (s s' : state) :
  (forall name args,
     payload_ok s = true ->
     ParsePrototype fuel s = Ret (PyObj (MkPrototypeAST name args)) s' ->
     starts_alpha name = true /\ name <> "") /\
  (forall name args,
     ParseExtern fuel s = Ret (PyObj (MkPrototypeAST name args)) s' ->
     starts_alpha name = true /\ name <> "") /\
  (forall proto body,
     ParseDefinition fuel s = Ret (PyObj (MkFunctionAST proto body)) s' ->
     exists name args, proto = PyObj (MkPrototypeAST name args) /\
                       starts_alpha name = true /\ name <> "") /\
  (forall f,
     ParseTopLevelExpr fuel s = Ret (PyObj f) s' ->
     exists body, f = MkFunctionAST (PyObj (MkPrototypeAST "" [])) body).
Proof.
  split; [|split; [|split]].
  - intros name args Hs E.
    pose proof (ParsePrototype_named fuel s Hs _ _ E) as H. cbn in H.
    split; [exact H|apply starts_alpha_nonempty, H].
  - intros name args E.
    assert (H : wp (ParseExtern fuel) (fun v _ => proto_named v = true) s).
    { unfold ParseExtern. wp_step.
      wp_call getNextToken_payload. intros t s1 [_ H1].
      apply ParsePrototype_named, H1. }
    specialize (H _ _ E). cbn in H.
    split; [exact H|apply starts_alpha_nonempty, H].
  - intros proto body E.
    assert (H : wp (ParseDefinition fuel)
                  (fun v _ => match v with
                              | PyObj (MkFunctionAST p _) =>
                                  truthy p = true /\ proto_named p = true
                              | _ => True
                              end) s).
    { unfold ParseDefinition. wp_step.
      wp_call getNextToken_payload. intros t s1 [_ H1]. wp_step.
      wp_call ParsePrototype_named. intros Proto s2 H2. wp_steps; try exact I.
      wp_call (wp_any (ParseExpression fuel)). intros E' s3 _. wp_steps; try exact I.
      split; [|exact H2]. apply negb_false_iff. assumption. }
    specialize (H _ _ E). cbn in H. destruct H as [Ht Hn].
    destruct proto as [|z|[name args]]; cbn in *; try discriminate.
    exists name, args. split; [reflexivity|].
      split; [exact Hn|apply starts_alpha_nonempty, Hn].
  - intros f E.
    assert (H : wp (ParseTopLevelExpr fuel)
                  (fun v _ => match v with
                              | PyObj (MkFunctionAST p _) =>
                                  p = PyObj (MkPrototypeAST "" [])
                              | _ => True
                              end) s).
    { unfold ParseTopLevelExpr. wp_step.
      wp_call (wp_any (ParseExpression fuel)). intros E' s3 _. wp_steps; auto. }
    specialize (H _ _ E). cbn in H. destruct f as [p body]. subst p.
    exists body. reflexivity.
Qed.

Lemma prototype_names_nonempty_witness :
  (exists name args s',
     payload_ok (primed 10 "sin(x)") = true /\
     ParsePrototype 10 (primed 10 "sin(x)") = Ret (PyObj (MkPrototypeAST name args)) s' /\
     name <> "") /\
  (exists name args s',
     ParseExtern 10 (primed 10 "extern sin(x)") = Ret (PyObj (MkPrototypeAST name args)) s' /\
     name <> "") /\
  (exists name args body s',
     ParseDefinition 10 (primed 10 "def foo(x y) x+y")
     = Ret (PyObj (MkFunctionAST (PyObj (MkPrototypeAST name args)) body)) s' /\
     name <> "") /\
  (exists body s',
     ParseTopLevelExpr 10 (primed 10 "1+2")
     = Ret (PyObj (MkFunctionAST (PyObj (MkPrototypeAST "" [])) body)) s').
Proof.
  split; [|split; [|split]].
  - assert (E : exists name args s',
               ParsePrototype 10 (primed 10 "sin(x)") = Ret (PyObj (MkPrototypeAST name args)) s')
      by (eexists _, _, _; vm_compute; reflexivity).
    destruct E as (name & args & s' & E). exists name, args, s'.
    assert (Hs : payload_ok (primed 10 "sin(x)") = true) by (vm_compute; reflexivity).
    split; [exact Hs|]. split; [exact E|].
    exact (proj2 (proj1 (prototype_names_nonempty 10 _ s') name args Hs E)).
  - assert (E : exists name args s',
               ParseExtern 10 (primed 10 "extern sin(x)")
               = Ret (PyObj (MkPrototypeAST name args)) s')
      by (eexists _, _, _; vm_compute; reflexivity).
    destruct E as (name & args & s' & E). exists name, args, s'.
    split; [exact E|].
    exact (proj2 (proj1 (proj2 (prototype_names_nonempty 10 _ s')) name args E)).
  - assert (E : exists proto body s',
               ParseDefinition 10 (primed 10 "def foo(x y) x+y")
               = Ret (PyObj (MkFunctionAST proto body)) s')
      by (eexists _, _, _; vm_compute; reflexivity).
    destruct E as (proto & body & s' & E).
    destruct (proj1 (proj2 (proj2 (prototype_names_nonempty 10 _ s'))) proto body E)
      as (name & args & -> & _ & Hne).
    exists name, args, body, s'. split; [exact E|exact Hne].
  - assert (E : exists f s',
               ParseTopLevelExpr 10 (primed 10 "1+2") = Ret (PyObj f) s')
      by (eexists _, _; vm_compute; reflexivity).
    destruct E as (f & s' & E).
    destruct (proj2 (proj2 (proj2 (prototype_names_nonempty 10 _ s'))) f E) as (body & ->).
    exists body, s'. exact E.
Defined.

(** ** Calls without arguments *)

Lemma getNextToken_CurTok n s t s' : getNextToken n s = Ret t s' -> CurTok s' = t.
Proof.
  unfold getNextToken, bind, modify, ret.
  destruct (gettok n s) as [t0 s0| |]; try discriminate.
  intros E. inversion E; subst. reflexivity.
Qed.

(** Where the lexer delivers '(' and then ')' after the identifier, and a
    token [t] after that, whatever it is, [ParseIdentifierExpr] returns the
    call of the buffered name with the empty argument list, in the state
    reached by the third [getNextToken]: both parentheses are consumed.  The
    body is run with an arbitrary [PE] in the place of [ParseExpression], so
    the result does not depend on it: it is never called. *)
Lemma call_with_no_arguments
    (n : nat) (PE : M (pyval ExprAST)) (s s1 s2 s3 : state) (t : token) :
  getNextToken n s = Ret (TokStr "(") s1 ->
  getNextToken n s1 = Ret (TokStr ")") s2 ->
  getNextToken n s2 = Ret t s3 ->
  ParseIdentifierExpr_ n PE s = Ret (PyObj (CallExprAST (IdentifierStr s) [])) s3 /\
  ParseIdentifierExpr (S n) s = Ret (PyObj (CallExprAST (IdentifierStr s) [])) s3 /\
  (CurTok s = tok_identifier ->
   ParsePrimary (S (S n)) s = Ret (PyObj (CallExprAST (IdentifierStr s) [])) s3).
Proof.
  intros H1 H2 H3.
  assert (body : forall PE', ParseIdentifierExpr_ n PE' s
                             = Ret (PyObj (CallExprAST (IdentifierStr s) [])) s3).
  { intros PE'. unfold ParseIdentifierExpr_, bind, get, ret.
    rewrite H1. rewrite (getNextToken_CurTok _ _ _ _ H1). cbn.
    rewrite H2. rewrite (getNextToken_CurTok _ _ _ _ H2). cbn.
    rewrite H3. reflexivity. }
  split; [apply body|]. split.
  - exact (body (ParseExpression n)).
  - intros Hc.
    change (ParsePrimary_ (S n) (ParseIdentifierExpr (S n)) (ParseParenExpr (S n)) s
            = Ret (PyObj (CallExprAST (IdentifierStr s) [])) s3).
    unfold ParsePrimary_, bind, get. rewrite Hc. cbn.
    exact (body (ParseExpression n)).
Qed.

Lemma call_with_no_arguments_witness :
  exists s3,
    ParseIdentifierExpr_ 9 (raise (NameError "ParseExpression")) (primed 10 "foo()")
    = Ret (PyObj (CallExprAST "foo" [])) s3 /\
    ParsePrimary 11 (primed 10 "foo()") = Ret (PyObj (CallExprAST "foo" [])) s3.
Proof.
  pose (s := primed 10 "foo()").
  pose (s1 := final_state (getNextToken 9 s) s).
  pose (s2 := final_state (getNextToken 9 s1) s).
  pose (s3 := final_state (getNextToken 9 s2) s).
  assert (H1 : getNextToken 9 s = Ret (TokStr "(") s1) by (vm_compute; reflexivity).
  assert (H2 : getNextToken 9 s1 = Ret (TokStr ")") s2) by (vm_compute; reflexivity).
  assert (H3 : getNextToken 9 s2 = Ret tok_eof s3) by (vm_compute; reflexivity).
  assert (Hc : CurTok s = tok_identifier) by (vm_compute; reflexivity).
  assert (Hid : IdentifierStr s = "foo") by (vm_compute; reflexivity).
  exists s3.
  destruct (call_with_no_arguments 9 (raise (NameError "ParseExpression"))
              s s1 s2 s3 tok_eof H1 H2 H3) as (Ha & _ & Hb).
  specialize (Hb Hc). rewrite Hid in Ha, Hb.
  split; [exact Ha|exact Hb].
Defined.

(** ** Worked inputs *)

(** [main_prime] and then an expression parse, on more fuel. *)
Lemma primed_expression_mono (n n' : nat) (input : string) v s' :
  (n <= n')%nat ->
  bind (main_prime n) (fun _ => ParseExpression n) (initial input) = Ret v s' ->
  bind (main_prime n') (fun _ => ParseExpression n') (initial input) = Ret v s'.
Proof.
  intros Hle. apply refines_returns, bind_mono.
  - apply main_prime_mono, Hle.
  - intros _. apply ParseExpression_mono, Hle.
Qed.

(** C5: after [main] has installed its four operators and primed the first
    token of "1+2*3", [ParseExpression] (on any fuel from 10 up) returns
    1 + (2 * 3) and stops at the end of the input; the right operand is what
    the recursive call [ParseBinOpRHS(21, 2)] returns when entered with '*'
    as current token. *)
Theorem precedence_of_times_over_plus :
  exists s',
    (forall fuel, (10 <= fuel)%nat ->
       bind (main_prime fuel) (fun _ => ParseExpression fuel) (initial "1+2*3")
       = Ret (binop "+" (num 1) (binop "*" (num 2) (num 3))) s') /\
    BinopPrecedence s' = builtin_table /\ CurTok s' = tok_eof /\
    bind (main_prime 10) (fun _ =>
      bind (ParsePrimary 10) (fun _ =>
        bind (getNextToken 10) (fun _ =>
          bind (ParsePrimary 10) (fun RHS => ParseBinOpRHS 10 21 RHS))))
      (initial "1+2*3")
    = Ret (binop "*" (num 2) (num 3)) s'.
Proof.
  eexists. split; [|split; [|split]].
  - intros fuel Hle. apply (primed_expression_mono 10 fuel _ _ _ Hle).
    vm_compute; reflexivity.
  - vm_compute; reflexivity.
  - vm_compute; reflexivity.
  - vm_compute; reflexivity.
Qed.

Lemma precedence_of_times_over_plus_witness :
  exists s',
    bind (main_prime 12) (fun _ => ParseExpression 12) (initial "1+2*3")
    = Ret (binop "+" (num 1) (binop "*" (num 2) (num 3))) s'.
Proof.
  destruct precedence_of_times_over_plus as (s' & H & _).
  exists s'. apply (H 12%nat). lia.
Defined.

(** C6: in the same setting "1+2+3" parses to (1 + 2) + 3. *)
Theorem equal_precedence_associates_left :
  exists s',
    (forall fuel, (10 <= fuel)%nat ->
       bind (main_prime fuel) (fun _ => ParseExpression fuel) (initial "1+2+3")
       = Ret (binop "+" (binop "+" (num 1) (num 2)) (num 3)) s') /\
    BinopPrecedence s' = builtin_table /\ CurTok s' = tok_eof.
Proof.
  eexists. split; [|split].
  - intros fuel Hle. apply (primed_expression_mono 10 fuel _ _ _ Hle).
    vm_compute; reflexivity.
  - vm_compute; reflexivity.
  - vm_compute; reflexivity.
Qed.

Lemma equal_precedence_associates_left_witness :
  exists s',
    bind (main_prime 12) (fun _ => ParseExpression 12) (initial "1+2+3")
    = Ret (binop "+" (binop "+" (num 1) (num 2)) (num 3)) s'.
Proof.
  destruct equal_precedence_associates_left as (s' & H & _).
  exists s'. apply (H 12%nat). lia.
Defined.

(** ** Where the code departs from its description *)

Lemma settles_intro {A} (f : nat -> M A) (s : state) (o : outcome A) (n0 : nat) :
  (forall n n', (n <= n')%nat -> refines (f n) (f n')) ->
  f n0 s = o -> o <> OutOfFuel -> settles f s o.
Proof.
  intros Hmono E Ho. split; [exists n0; exact E|]. intros n.
  destruct (Nat.le_ge_cases n n0) as [Hle|Hle].
  - destruct (Hmono n n0 Hle s) as [H|H]; [left; exact H|right; congruence].
  - destruct (Hmono n0 n Hle s) as [H|H]; [congruence|right; congruence].
Qed.

(** A parse function of the expression grammar, run after [main_prime]. *)
Lemma primed_mono (f : nat -> M (pyval ExprAST)) :
  (forall n n', (n <= n')%nat -> refines (f n) (f n')) ->
  forall n n', (n <= n')%nat ->
    refines (bind (main_prime n) (fun _ => f n)) (bind (main_prime n') (fun _ => f n')).
Proof.
  intros Hf n n' Hle. apply bind_mono; [apply main_prime_mono, Hle|].
  intros _. apply Hf, Hle.
Qed.

(** [ParseParenExpr] never returns: whatever [ParseExpression] did, the next
    statement reads the unbound name [V]. *)
Lemma ParseParenExpr_never_returns fuel s :
  wp (ParseParenExpr fuel) (fun _ _ => False) s.
Proof.
  destruct fuel as [|n]; [apply wp_out_of_fuel|].
  change (wp (ParseParenExpr_ n (ParseExpression n)) (fun _ _ => False) s).
  unfold ParseParenExpr_. wp_step.
  wp_call (wp_any (getNextToken n)). intros t s1 _. wp_step.
  wp_call (wp_any (ParseExpression n)). intros v s2 _. wp_steps.
Qed.

(** C1 (what the code does): entered with '(' as current token on "(1)" and
    on "(1+2", [ParseParenExpr] raises [NameError] for [V], on whatever fuel
    lets it come back; nothing is returned and no message is written after
    the prompt. *)
Theorem ParseParenExpr_raises_NameError :
  (exists s', settles (fun n => bind (main_prime n) (fun _ => ParseParenExpr n))
                (initial "(1)") (Raise (NameError "V") s') /\
              CurTok s' = TokStr ")" /\ stderr s' = ["ready> "]) /\
  (exists s', settles (fun n => bind (main_prime n) (fun _ => ParseParenExpr n))
                (initial "(1+2") (Raise (NameError "V") s') /\
              CurTok s' = tok_eof /\ stderr s' = ["ready> "]).
Proof.
  assert (Hmono : forall n n', (n <= n')%nat ->
            refines (bind (main_prime n) (fun _ => ParseParenExpr n))
                    (bind (main_prime n') (fun _ => ParseParenExpr n'))).
  { apply (primed_mono ParseParenExpr). intros n n' Hle. apply parser_mono, Hle. }
  split; eexists; (split; [|split]).
  - apply (settles_intro _ _ _ 10 Hmono); [vm_compute; reflexivity|discriminate].
  - vm_compute; reflexivity.
  - vm_compute; reflexivity.
  - apply (settles_intro _ _ _ 10 Hmono); [vm_compute; reflexivity|discriminate].
  - vm_compute; reflexivity.
  - vm_compute; reflexivity.
Qed.

(** C2 (what the code does): on "1+2*" the recursive call returns [None],
    which is not equal to [0], so [ParseBinOpRHS] stores it as right operand
    and returns the node; on "1+2*+3" it goes on and consumes "+3". *)
Theorem ParseBinOpRHS_keeps_failed_operand :
  (exists s',
     settles (fun n => bind (main_prime n) (fun _ =>
                bind (ParsePrimary n) (fun LHS => ParseBinOpRHS n 0 LHS)))
       (initial "1+2*") (Ret (binop "+" (num 1) PyNone) s')) /\
  (exists s',
     settles (fun n => bind (main_prime n) (fun _ =>
                bind (ParsePrimary n) (fun LHS => ParseBinOpRHS n 0 LHS)))
       (initial "1+2*+3") (Ret (binop "+" (binop "+" (num 1) PyNone) (num 3)) s') /\
     CurTok s' = tok_eof).
Proof.
  assert (Hmono : forall n n', (n <= n')%nat ->
            refines (bind (main_prime n) (fun _ =>
                       bind (ParsePrimary n) (fun LHS => ParseBinOpRHS n 0 LHS)))
                    (bind (main_prime n') (fun _ =>
                       bind (ParsePrimary n') (fun LHS => ParseBinOpRHS n' 0 LHS)))).
  { apply (primed_mono (fun n => bind (ParsePrimary n) (fun LHS => ParseBinOpRHS n 0 LHS))).
    intros n n' Hle. destruct (parser_mono n n' Hle) as (_ & Hp & _ & _ & Hb).
    apply bind_mono; [exact Hp|]. intros LHS. apply Hb. }
  split; eexists; [|split].
  - apply (settles_intro _ _ _ 10 Hmono); [vm_compute; reflexivity|discriminate].
  - apply (settles_intro _ _ _ 10 Hmono); [vm_compute; reflexivity|discriminate].
  - vm_compute; reflexivity.
Qed.

(** C3 (what the code does): a lone dot, and a literal with two dots, are
    accumulated as numbers and [float] raises [ValueError]: on no amount of
    fuel does [gettok] return a token. *)
Theorem gettok_raises_ValueError :
  (exists s', settles gettok (initial ".") (Raise (ValueError ".") s')) /\
  (exists s', settles gettok (initial "1.2.3") (Raise (ValueError "1.2.3") s')).
Proof.
  split; eexists;
    (apply (settles_intro _ _ _ 10 gettok_mono); [vm_compute; reflexivity|discriminate]).
Qed.

(** A loop whose body always asks for another round runs out of any fuel. *)
Lemma loop_diverges {L R} (body : L -> M (flow L R)) (P : L -> state -> Prop) :
  (forall l s, P l s -> exists l' s', body l s = Ret (Continue l') s' /\ P l' s') ->
  forall n l s, P l s -> loop n body l s = OutOfFuel.
Proof.
  intros Hbody n. induction n as [|n IH]; intros l s Hl; [reflexivity|].
  cbn [loop]. unfold bind.
  destruct (Hbody l s Hl) as (l' & s' & E & Hl'). rewrite E. apply IH, Hl'.
Qed.

(** Inside a comment that no line end closes before the input is exhausted,
    [gettok] never returns. *)
Lemma gettok_open_comment fuel s :
  LastChar s = "#" -> has_line_end (stdin s) = false -> gettok fuel s = OutOfFuel.
Proof.
  intros HL Hin. destruct fuel as [|n]; [reflexivity|].
  cbn [gettok]. unfold gettok_.
  destruct n as [|n]; [reflexivity|].
  erewrite bind_returns
    by (cbn [loop]; unfold bind, get; rewrite HL; reflexivity).
  erewrite bind_returns by reflexivity. cbv beta. rewrite HL.
  change (re_match is_alpha "#") with false.
  change (re_match is_digit "#" || ("#" =? "."))%string with false.
  change ("#" =? "#")%string with true. cbv iota.
  apply bind_out_of_fuel, bind_out_of_fuel.
  apply (loop_diverges _ (fun _ s => has_line_end (stdin s) = false)); [|exact Hin].
  intros _ s0 H0. unfold bind, getchar, modify, ret.
  destruct (stdin s0) as [|c rest] eqn:E.
  - exists tt, (set_LastChar "" s0). split; [reflexivity|]. cbn. rewrite E. reflexivity.
  - cbn [has_line_end] in H0.
    apply orb_false_iff in H0 as [H0 Hrest]. apply orb_false_iff in H0 as [Hnl Hcr].
    exists tt, (set_LastChar (String c "") (set_stdin rest s0)).
    rewrite Hnl, Hcr. split; [reflexivity|exact Hrest].
Qed.

(** C4 (what the code does): on a comment that the end of the input cuts
    short, [gettok] runs out of every amount of fuel. *)
Theorem gettok_diverges_in_open_comment :
  forall fuel, gettok fuel (initial "#") = OutOfFuel /\
               gettok fuel (initial "  # to do") = OutOfFuel.
Proof.
  intros fuel. split.
  - destruct fuel as [|[|[|n]]]; try reflexivity.
    transitivity (gettok (S (S (S n))) (set_LastChar "#" (set_stdin "" (initial "#")))).
    + cbn [gettok]. unfold gettok_.
      erewrite bind_returns by (cbn [loop]; reflexivity).
      erewrite (bind_returns (loop _ _ _)) by (cbn [loop]; reflexivity).
      reflexivity.
    + apply gettok_open_comment; reflexivity.
  - destruct fuel as [|[|[|[|[|n]]]]]; try reflexivity.
    transitivity (gettok (S (S (S (S (S n)))))
                    (set_LastChar "#" (set_stdin " to do" (initial "  # to do")))).
    + cbn [gettok]. unfold gettok_.
      erewrite bind_returns by (cbn [loop]; reflexivity).
      erewrite (bind_returns (loop _ _ _)) by (cbn [loop]; reflexivity).
      reflexivity.
    + apply gettok_open_comment; reflexivity.
Qed.

(** C7 (what the code does): on "(1+2", and on "x; (y) z" after the first
    statement, the driver dies with the [NameError] of [ParseParenExpr]; the
    loop does not go on to the end of the input. *)
Theorem main_dies_on_open_parenthesis :
  (exists s', settles main (initial "(1+2") (Raise (NameError "V") s') /\
              stderr s' = ["ready> "; "ready> "]) /\
  (exists s', settles main (initial "x; (y) z") (Raise (NameError "V") s') /\
              CurTok s' = TokStr ")" /\ stdin s' = "z").
Proof.
  split; eexists; (split; [|try split]).
  - apply (settles_intro _ _ _ 10 main_mono); [vm_compute; reflexivity|discriminate].
  - vm_compute; reflexivity.
  - apply (settles_intro _ _ _ 10 main_mono); [vm_compute; reflexivity|discriminate].
  - vm_compute; reflexivity.
  - vm_compute; reflexivity.
Qed.

(** C9 (what the code does): [ParseIdentifierExpr] eats the ')' of a call
    without arguments by reading the token that follows it, and comes back
    only if the lexer does.  With "foo" as current identifier, on "foo()."
    the lexer raises the [ValueError] of [float] for the text "." (the
    defect of C3) and on "foo()#" it never leaves the comment (the defect of
    C4): in both cases no call node is returned, on whatever fuel.  The whole
    program dies of the same [ValueError] on "foo().". *)
Theorem call_with_no_arguments_lost_in_lookahead :
  (exists s', settles ParseIdentifierExpr (primed 10 "foo().")
                (Raise (ValueError ".") s') /\
              CurTok s' = TokStr ")" /\ stderr s' = ["ready> "]) /\
  (forall fuel, ParseIdentifierExpr fuel (primed 10 "foo()#") = OutOfFuel) /\
  (exists s', settles main (initial "foo().") (Raise (ValueError ".") s')).
Proof.
  assert (Hmono : forall n n', (n <= n')%nat ->
            refines (ParseIdentifierExpr n) (ParseIdentifierExpr n')).
  { intros n n' Hle. exact (proj1 (proj2 (proj2 (parser_mono n n' Hle)))). }
  split; [|split].
  - eexists. split; [|split].
    + apply (settles_intro _ _ _ 10 Hmono); [vm_compute; reflexivity|discriminate].
    + vm_compute; reflexivity.
    + vm_compute; reflexivity.
  - pose (s0 := primed 10 "foo()#").
    pose (s1 := final_state (getNextToken 10 s0) s0).
    pose (s2 := final_state (getNextToken 10 s1) s0).
    assert (H1 : getNextToken 10 s0 = Ret (TokStr "(") s1) by (vm_compute; reflexivity).
    assert (H2 : getNextToken 10 s1 = Ret (TokStr ")") s2) by (vm_compute; reflexivity).
    assert (HL : LastChar s2 = "#") by (vm_compute; reflexivity).
    assert (Hin : has_line_end (stdin s2) = false) by (vm_compute; reflexivity).
    change (forall fuel, ParseIdentifierExpr fuel s0 = OutOfFuel).
    clearbody s0 s1 s2. intros [|n]; [reflexivity|].
    assert (D1 : getNextToken n s0 = OutOfFuel \/ getNextToken n s0 = Ret (TokStr "(") s1).
    { apply (settles_intro getNextToken s0 _ 10 getNextToken_mono H1). discriminate. }
    assert (D2 : getNextToken n s1 = OutOfFuel \/ getNextToken n s1 = Ret (TokStr ")") s2).
    { apply (settles_intro getNextToken s1 _ 10 getNextToken_mono H2). discriminate. }
    assert (D3 : getNextToken n s2 = OutOfFuel).
    { unfold getNextToken. apply bind_out_of_fuel, gettok_open_comment; assumption. }
    change (ParseIdentifierExpr_ n (ParseExpression n) s0 = OutOfFuel).
    unfold ParseIdentifierExpr_, bind, get, ret.
    destruct D1 as [E1|E1]; rewrite E1; [reflexivity|].
    rewrite (getNextToken_CurTok _ _ _ _ H1). cbn.
    destruct D2 as [E2|E2]; rewrite E2; [reflexivity|].
    rewrite (getNextToken_CurTok _ _ _ _ H2). cbn.
    rewrite D3. reflexivity.
  - eexists. apply (settles_intro _ _ _ 10 main_mono); [vm_compute; reflexivity|discriminate].
Qed.

(** ** White space and closed comments *)

Lemma is_line_end_space c : is_line_end c = true -> is_space c = true.
Proof.
  unfold is_line_end. cbn.
  destruct (Ascii.eqb_spec c (ascii_of_nat 10)) as [->|_]; [reflexivity|].
  destruct (Ascii.eqb_spec c (ascii_of_nat 13)) as [->|_]; [reflexivity|].
  discriminate.
Qed.

(** At the end of the input [gettok] answers [tok_eof] and changes nothing. *)
Lemma gettok_at_eof n s :
  LastChar s = "" -> gettok (S (S n)) s = Ret tok_eof s.
Proof.
  intros HL. cbn [gettok]. unfold gettok_.
  erewrite bind_returns
    by (cbn [loop]; unfold bind, get; rewrite HL; reflexivity).
  erewrite bind_returns by reflexivity. cbv beta. rewrite HL. cbn.
  rewrite HL. reflexivity.
Qed.

(** One more round of a loop whose body asks for it. *)
Lemma bind_loop_continue {L R B} (body : L -> M (flow L R)) (k : R -> M B)
    n l s l' s1 :
  body l s = Ret (Continue l') s1 ->
  bind (loop (S n) body l) k s = bind (loop n body l') k s1.
Proof. intros E. cbn [loop]. unfold bind. rewrite E. reflexivity. Qed.

(** A white-space character in [LastChar] is skipped: whatever [gettok]
    does from the next character on, it does from here with one more unit of
    fuel. *)
Lemma gettok_skip_space n s c next rest :
  LastChar s = String c "" -> is_space c = true ->
  getchar s = Ret next rest ->
  gettok (S n) (set_LastChar next rest) = OutOfFuel \/
  gettok (S (S n)) s = gettok (S n) (set_LastChar next rest).
Proof.
  intros HL Hc Hg. cbn [gettok]. unfold gettok_.
  pose proof (gettok_mono n (S n) ltac:(lia)) as Hrec.
  lazymatch goal with
  | |- bind (loop n ?ws tt) ?K1 ?s1 = _ \/ bind (loop (S n) _ tt) ?K2 _ = _ =>
      assert (Hbody : ws tt s = Ret (Continue tt) s1)
        by (unfold bind, get, modify, ret; rewrite HL; cbn [re_match];
            rewrite Hc, Hg; reflexivity);
      rewrite (bind_loop_continue ws K2 n tt s tt s1 Hbody);
      assert (R : refines (bind (loop n ws tt) K1) (bind (loop n ws tt) K2)) by mono;
      destruct (R s1) as [E|E]; [left; exact E|right; symmetry; exact E]
  end.
Qed.

(** A comment closed by a line end: the text before it and the rest. *)
Lemma blank_comment_split x :
  blank true x = true ->
  exists pre d post,
    x = pre +:+ String d post /\ has_line_end pre = false /\
    is_line_end d = true /\ blank false post = true.
Proof.
  induction x as [|c x IH]; cbn [blank]; [discriminate|].
  destruct (is_line_end c) eqn:Ec; cbn [negb]; intros H.
  - exists "", c, x. repeat split; auto.
  - destruct (IH H) as (pre & d & post & -> & Hpre & Hd & Hpost).
    exists (String c pre), d, post. repeat split; auto.
    cbn [has_line_end]. rewrite Ec, Hpre. reflexivity.
Qed.

Lemma loop_continue {L R} (body : L -> M (flow L R)) n l s l' s1 :
  body l s = Ret (Continue l') s1 -> loop (S n) body l s = loop n body l' s1.
Proof. intros E. cbn [loop]. unfold bind. rewrite E. reflexivity. Qed.

Lemma loop_done {L R} (body : L -> M (flow L R)) n l s r s1 :
  body l s = Ret (Done r) s1 -> loop (S n) body l s = Ret r s1.
Proof. intros E. cbn [loop]. unfold bind. rewrite E. reflexivity. Qed.

Lemma comment_goes_on d :
  negb (true && negb (String.eqb (String d "") nl) && negb (String.eqb (String d "") cr))
  = is_line_end d.
Proof.
  unfold is_line_end.
  destruct (String.eqb (String d "") nl), (String.eqb (String d "") cr); reflexivity.
Qed.

(** The comment loop of [gettok] on such a text stops at the line end. *)
Lemma comment_loop_returns pre :
  forall s d post n,
    stdin s = pre +:+ String d post -> has_line_end pre = false ->
    is_line_end d = true -> (String.length pre < n)%nat ->
    loop n (fun _ : unit =>
              do c <- getchar;
              run modify (set_LastChar c);
              if negb (true && negb (String.eqb c nl) && negb (String.eqb c cr))
              then ret (Done tt)
              else ret (Continue tt)) tt s
    = Ret tt (set_LastChar (String d "") (set_stdin post s)).
Proof.
  induction pre as [|c pre IH]; intros s d post n Hin Hpre Hd Hn;
    (destruct n as [|n]; [cbn in Hn; lia|]).
  - change (stdin s = String d post) in Hin.
    apply loop_done. unfold bind, getchar, modify. rewrite Hin.
    rewrite comment_goes_on, Hd. reflexivity.
  - change (stdin s = String c (pre +:+ String d post)) in Hin.
    cbn [has_line_end] in Hpre. apply orb_false_iff in Hpre as [Hc Hpre].
    erewrite loop_continue
      by (unfold bind, getchar, modify; rewrite Hin;
          rewrite comment_goes_on, Hc; reflexivity).
    rewrite (IH (set_LastChar (String c "") (set_stdin (pre +:+ String d post) s))
               d post n eq_refl Hpre Hd ltac:(cbn in Hn; lia)).
    destruct s; reflexivity.
Qed.

Lemma bind_assoc {A B C} (m : M A) (k : A -> M B) (h : B -> M C) s :
  bind (bind m k) h s = bind m (fun a => bind (k a) h) s.
Proof. unfold bind. destruct (m s); reflexivity. Qed.

Lemma bind_option_return {A} (m : M A) (other : M A) s :
  bind (bind m (fun t => ret (Some t)))
       (fun r => match r with Some t => ret t | None => other end) s
  = m s.
Proof. unfold bind, ret. destruct (m s); reflexivity. Qed.

(** A closed comment is skipped: whatever [gettok] does after the line end,
    it does from the '#' with enough more fuel. *)
Lemma gettok_closed_comment s pre d post n0 :
  LastChar s = "#" -> stdin s = pre +:+ String d post ->
  has_line_end pre = false -> is_line_end d = true ->
  gettok n0 (set_LastChar (String d "") (set_stdin post s)) = OutOfFuel \/
  gettok (S (S (n0 + String.length pre))) s
  = gettok n0 (set_LastChar (String d "") (set_stdin post s)).
Proof.
  intros HL Hin Hpre Hd. cbn [gettok]. unfold gettok_.
  erewrite bind_returns
    by (apply loop_done; unfold bind, get; rewrite HL; reflexivity).
  erewrite bind_returns by reflexivity. cbv beta. rewrite HL.
  change (re_match is_alpha "#") with false.
  change (re_match is_digit "#" || ("#" =? "."))%string with false.
  change ("#" =? "#")%string with true. cbv iota.
  rewrite !bind_assoc.
  assert (Hlt : (String.length pre < S (n0 + String.length pre))%nat) by lia.
  erewrite bind_returns
    by (apply (comment_loop_returns pre _ d post); [exact Hin|exact Hpre|exact Hd|exact Hlt]).
  rewrite bind_assoc.
  erewrite bind_returns by reflexivity. cbv beta.
  change (negb (LastChar (set_LastChar (String d "") (set_stdin post s)) =? "")%string)
    with true. cbv iota.
  rewrite bind_option_return.
  assert (Hle : (n0 <= S (n0 + String.length pre))%nat) by lia.
  destruct (gettok_mono n0 _ Hle (set_LastChar (String d "") (set_stdin post s)))
    as [E|E]; [left; exact E|right; symmetry; exact E].
Qed.

Lemma length_append (a b : string) :
  String.length (a +:+ b) = (String.length a + String.length b)%nat.
Proof.
  induction a as [|c a IH]; [reflexivity|].
  change (S (String.length (a +:+ b)) = S (String.length a + String.length b)).
  rewrite IH. reflexivity.
Qed.

(** On white space and closed comments up to the end of the input, [gettok]
    returns, with enough fuel, the end-of-input token and nothing before
    it. *)
Lemma gettok_blank k :
  forall s c,
    (String.length (stdin s) <= k)%nat ->
    LastChar s = String c "" -> blank false (String c (stdin s)) = true ->
    exists fuel s', gettok fuel s = Ret tok_eof s' /\ stdin s' = "" /\ LastChar s' = "".
Proof.
  induction k as [k IH] using lt_wf_ind. intros s c Hk HL Hb.
  cbn [blank] in Hb. destruct (is_space c) eqn:Hc.
  - destruct (stdin s) as [|d rest] eqn:Hin.
    + exists 3%nat, (set_LastChar "" s). split; [|split; [exact Hin|reflexivity]].
      assert (Hg : getchar s = Ret "" s) by (unfold getchar; rewrite Hin; reflexivity).
      destruct (gettok_skip_space 1 s c "" s HL Hc Hg) as [E|E];
        rewrite (gettok_at_eof 0 (set_LastChar "" s) eq_refl) in E;
        [discriminate E|exact E].
    + destruct (IH (String.length rest) ltac:(cbn in Hk; lia)
                  (set_LastChar (String d "") (set_stdin rest s)) d
                  ltac:(cbn; lia) eq_refl Hb) as (fuel & s' & E & Hs').
      destruct fuel as [|fuel]; [discriminate E|].
      exists (S (S fuel)), s'. split; [|exact Hs'].
      assert (Hg : getchar s = Ret (String d "") (set_stdin rest s))
        by (unfold getchar; rewrite Hin; reflexivity).
      destruct (gettok_skip_space fuel s c _ _ HL Hc Hg) as [E'|E']; congruence.
  - destruct (Ascii.eqb_spec c "#") as [->|_]; [|discriminate].
    destruct (blank_comment_split _ Hb) as (pre & d & post & Hin & Hpre & Hd & Hpost).
    assert (Hlen : (String.length post < String.length (stdin s))%nat).
    { rewrite Hin, length_append. cbn. lia. }
    destruct (IH (String.length post) ltac:(lia)
                (set_LastChar (String d "") (set_stdin post s)) d
                ltac:(cbn; lia) eq_refl) as (fuel & s' & E & Hs').
    { cbn [blank stdin set_LastChar set_stdin]. rewrite (is_line_end_space _ Hd). exact Hpost. }
    eexists _, s'. split; [|exact Hs'].
    destruct (gettok_closed_comment s pre d post fuel HL Hin Hpre Hd) as [E'|E'];
      [congruence|]. rewrite E'. exact E.
Qed.

(** From the start of the program: on an input of white space and closed
    comments the first token is the end-of-input token. *)
Lemma gettok_blank_input (input : string) :
  blank false input = true ->
  exists fuel s', gettok fuel (initial input) = Ret tok_eof s' /\ stdin s' = "".
Proof.
  intros Hb.
  destruct (gettok_blank (String.length input) (initial input) " " (Nat.le_refl _) eq_refl Hb)
    as (fuel & s' & E & Hs & _).
  exists fuel, s'. split; assumption.
Qed.

(** ** Every token is delivered, or [float] raises *)

(** The identifier loop stops, at the latest at the end of the input. *)
Lemma identifier_loop_returns x :
  forall s n, stdin s = x -> (String.length x + 1 < n)%nat ->
    exists s1,
      loop n (fun _ : unit =>
                do s <- get;
                if re_match is_alnum (LastChar s)
                then run modify (set_IdentifierStr (IdentifierStr s +:+ LastChar s));
                     do c <- getchar; run modify (set_LastChar c); ret (Continue tt)
                else ret (Done tt)) tt s
      = Ret tt s1.
Proof.
  induction x as [|d x IH]; intros s n Hin Hn;
    (destruct n as [|n]; [lia|]);
    destruct (re_match is_alnum (LastChar s)) eqn:Ha.
  - erewrite loop_continue
      by (unfold bind, get, getchar, modify; rewrite Ha; cbn [stdin set_IdentifierStr];
          rewrite Hin; reflexivity).
    destruct n as [|n]; [cbn in Hn; lia|].
    eexists. apply loop_done. reflexivity.
  - eexists. apply loop_done. unfold bind, get. rewrite Ha. reflexivity.
  - erewrite loop_continue
      by (unfold bind, get, getchar, modify; rewrite Ha; cbn [stdin set_IdentifierStr];
          rewrite Hin; reflexivity).
    apply IH; [reflexivity|cbn in Hn; lia].
  - eexists. apply loop_done. unfold bind, get. rewrite Ha. reflexivity.
Qed.

(** So does the loop that accumulates a number. *)
Lemma number_loop_returns x :
  forall s n NumStr, stdin s = x -> (String.length x < n)%nat ->
    exists r s1,
      loop n (fun NumStr : string =>
                do s <- get;
                let NumStr := NumStr +:+ LastChar s in
                do c <- getchar;
                run modify (set_LastChar c);
                if negb (re_match is_digit c || String.eqb c ".")
                then ret (Done NumStr)
                else ret (Continue NumStr)) NumStr s
      = Ret r s1.
Proof.
  induction x as [|d x IH]; intros s n NumStr Hin Hn;
    (destruct n as [|n]; [cbn in Hn; lia|]).
  - eexists _, _. apply loop_done.
    unfold bind, get, getchar, modify. rewrite Hin. reflexivity.
  - destruct (negb (re_match is_digit (String d "") || String.eqb (String d "") ".")) eqn:Hd.
    + eexists _, _. apply loop_done.
      unfold bind, get, getchar, modify. rewrite Hin, Hd. reflexivity.
    + erewrite loop_continue
        by (unfold bind, get, getchar, modify; rewrite Hin, Hd; reflexivity).
      apply IH; [reflexivity|cbn in Hn; lia].
Qed.

Lemma getchar_returns s :
  exists next rest, getchar s = Ret next rest /\
                    (String.length (stdin rest) <= String.length (stdin s))%nat.
Proof.
  unfold getchar. destruct (stdin s) as [|c r] eqn:E.
  - exists "", s. split; [reflexivity|]. rewrite E. cbn. lia.
  - exists (String c ""), (set_stdin r s). split; [reflexivity|]. cbn. lia.
Qed.

(** A letter in [LastChar]: the lexer returns a keyword or an identifier. *)
Lemma gettok_word s c :
  LastChar s = String c "" -> is_space c = false -> is_alpha c = true ->
  lexed (gettok (S (String.length (stdin s) + 2)) s).
Proof.
  intros HL Hsp Ha. cbn [gettok]. unfold gettok_.
  replace (String.length (stdin s) + 2)%nat with (S (String.length (stdin s) + 1)) by lia.
  erewrite bind_returns
    by (apply loop_done; unfold bind, get; rewrite HL; cbn [re_match]; rewrite Hsp;
        reflexivity).
  erewrite bind_returns by reflexivity. cbv beta. rewrite HL. cbn [re_match]. rewrite Ha.
  erewrite bind_returns by reflexivity.
  destruct (getchar_returns (set_IdentifierStr (String c "") s)) as (next & rest & Hg & Hlen).
  erewrite bind_returns by exact Hg.
  erewrite bind_returns by reflexivity.
  destruct (identifier_loop_returns _ (set_LastChar next rest)
              (S (String.length (stdin s) + 1)) eq_refl ltac:(cbn in *; lia))
    as (s1 & Hloop).
  erewrite bind_returns by exact Hloop.
  erewrite bind_returns by reflexivity. cbv beta.
  destruct (IdentifierStr s1 =? "def")%string; [reflexivity|].
  destruct (IdentifierStr s1 =? "extern")%string; reflexivity.
Qed.

(** A digit or a dot in [LastChar]: the lexer returns a number, or [float]
    raises. *)
Lemma gettok_number s c :
  LastChar s = String c "" -> is_space c = false -> is_alpha c = false ->
  is_digit c || Ascii.eqb c "." = true ->
  lexed (gettok (S (S (String.length (stdin s)))) s).
Proof.
  intros HL Hsp Ha Hd. cbn [gettok]. unfold gettok_.
  erewrite bind_returns
    by (apply loop_done; unfold bind, get; rewrite HL; cbn [re_match]; rewrite Hsp;
        reflexivity).
  erewrite bind_returns by reflexivity. cbv beta. rewrite HL. cbn [re_match]. rewrite Ha.
  replace (is_digit c || (String c "" =? "."))%string with true
    by (cbn; destruct (is_digit c); [reflexivity|]; cbn in Hd; rewrite Hd; reflexivity).
  destruct (number_loop_returns _ s (S (String.length (stdin s))) "" eq_refl ltac:(lia))
    as (r & s1 & Hloop).
  erewrite bind_returns by exact Hloop.
  destruct (float r) eqn:Hf; cbn.
  - reflexivity.
  - exact Hf.
Qed.

Lemma head_closed_comment_split x :
  head_closed true x = true ->
  exists pre d post,
    x = pre +:+ String d post /\ has_line_end pre = false /\
    is_line_end d = true /\ head_closed false post = true.
Proof.
  induction x as [|c x IH]; cbn [head_closed]; [discriminate|].
  destruct (is_line_end c) eqn:Ec; cbn [negb]; intros H.
  - exists "", c, x. repeat split; auto.
  - destruct (IH H) as (pre & d & post & -> & Hpre & Hd & Hpost).
    exists (String c pre), d, post. repeat split; auto.
    cbn [has_line_end]. rewrite Ec, Hpre. reflexivity.
Qed.

Lemma gettok_delivers_from k :
  forall s c,
    (String.length (stdin s) <= k)%nat ->
    LastChar s = String c "" -> head_closed false (String c (stdin s)) = true ->
    exists fuel, lexed (gettok fuel s).
Proof.
  induction k as [k IH] using lt_wf_ind. intros s c Hk HL Hb.
  cbn [head_closed] in Hb. destruct (is_space c) eqn:Hc.
  - destruct (stdin s) as [|d rest] eqn:Hin.
    + exists 3%nat.
      assert (Hg : getchar s = Ret "" s) by (unfold getchar; rewrite Hin; reflexivity).
      destruct (gettok_skip_space 1 s c "" s HL Hc Hg) as [E|E];
        rewrite (gettok_at_eof 0 (set_LastChar "" s) eq_refl) in E;
        [discriminate E|rewrite E; reflexivity].
    + destruct (IH (String.length rest) ltac:(cbn in Hk; lia)
                  (set_LastChar (String d "") (set_stdin rest s)) d
                  ltac:(cbn; lia) eq_refl Hb) as (fuel & E).
      destruct fuel as [|fuel]; [destruct E|].
      exists (S (S fuel)).
      assert (Hg : getchar s = Ret (String d "") (set_stdin rest s))
        by (unfold getchar; rewrite Hin; reflexivity).
      destruct (gettok_skip_space fuel s c _ _ HL Hc Hg) as [E'|E'];
        [rewrite E' in E; destruct E|rewrite E'; exact E].
  - destruct (Ascii.eqb_spec c "#") as [->|Hhash].
    + destruct (head_closed_comment_split _ Hb)
        as (pre & d & post & Hin & Hpre & Hd & Hpost).
      assert (Hlen : (String.length post < String.length (stdin s))%nat).
      { rewrite Hin, length_append. cbn. lia. }
      destruct (IH (String.length post) ltac:(lia)
                  (set_LastChar (String d "") (set_stdin post s)) d
                  ltac:(cbn; lia) eq_refl) as (fuel & E).
      { cbn [head_closed stdin set_LastChar set_stdin].
        rewrite (is_line_end_space _ Hd). exact Hpost. }
      eexists.
      destruct (gettok_closed_comment s pre d post fuel HL Hin Hpre Hd) as [E'|E'];
        [rewrite E' in E; destruct E|rewrite E'; exact E].
    + destruct (is_alpha c) eqn:Ha; [eexists; apply (gettok_word s c); assumption|].
      destruct (is_digit c || Ascii.eqb c ".") eqn:Hd;
        [eexists; apply (gettok_number s c); assumption|].
      apply orb_false_iff in Hd as [Hd Hdot].
      assert (Hp : plain_char c = true).
      { unfold plain_char. rewrite Hc, Ha, Hd, Hdot.
        destruct (Ascii.eqb_spec c "#"); [contradiction|reflexivity]. }
      destruct (gettok_plain_char 0 s c HL Hp) as (next & rest & _ & E).
      exists 2%nat. rewrite E. exact Hp.
Qed.

(** Totality of the lexer, as far as it goes: from a state [getchar] may
    have left, when the comments before the next token are closed by a line
    end, [gettok] comes back on enough fuel, with a token, or with the
    [ValueError] of a literal that [float] rejects. *)
Lemma gettok_delivers s :
  one_char (LastChar s) = true ->
  head_closed false (LastChar s +:+ stdin s) = true ->
  exists fuel, lexed (gettok fuel s).
Proof.
  intros H1 Hb. destruct (LastChar s) as [|c [|c' r]] eqn:HL; [| |discriminate H1].
  - exists 2%nat. rewrite (gettok_at_eof 0 s HL). reflexivity.
  - apply (gettok_delivers_from (String.length (stdin s)) s c); auto.
Qed.

(** * Further properties of the lexer *)

Lemma append_nil_r (a : string) : a +:+ "" = a.
Proof.
  induction a as [|c a IH]; [reflexivity|].
  change (String c (a +:+ "") = String c a). rewrite IH. reflexivity.
Qed.

Lemma append_assoc (a b c : string) : (a +:+ b) +:+ c = a +:+ (b +:+ c).
Proof.
  induction a as [|x a IH]; [reflexivity|].
  change (String x ((a +:+ b) +:+ c) = String x (a +:+ (b +:+ c))).
  rewrite IH. reflexivity.
Qed.

(** Reading one character into [LastChar], as every loop of [gettok] does. *)
Lemma wp_read {A} (k : string -> M A) (Q : A -> state -> Prop) s :
  (forall next rest, getchar s = Ret next rest -> wp (k next) Q (set_LastChar next rest)) ->
  wp (do c <- getchar; run modify (set_LastChar c); k c) Q s.
Proof.
  intros H a s' E. unfold bind at 1 in E.
  destruct (getchar s) as [next rest| |] eqn:Hg; try discriminate.
  exact (H next rest eq_refl a s' E).
Qed.

(** What [getchar] returns, and what it leaves. *)
Lemma getchar_cases s next rest :
  getchar s = Ret next rest ->
  (stdin s = "" /\ next = "" /\ rest = s) \/
  (exists c r, stdin s = String c r /\ next = String c "" /\ rest = set_stdin r s).
Proof.
  unfold getchar. destruct (stdin s) as [|c r]; intros E; inversion E; subst.
  - left. auto.
  - right. exists c, r. auto.
Qed.

Ltac rd_step :=
  first [ apply wp_read; intros ? ? ? | wp_step ].

Ltac rd_steps := repeat rd_step.

(** An invariant of the state that reading a character and filling the two
    payload buffers keep is kept by [gettok]. *)
Section LexerInvariant.

Variable Inv : state -> Prop.

Hypothesis Inv_read : forall s next rest,
  Inv s -> getchar s = Ret next rest -> Inv (set_LastChar next rest).
Hypothesis Inv_IdentifierStr : forall x s, Inv s -> Inv (set_IdentifierStr x s).
Hypothesis Inv_NumVal : forall x s, Inv s -> Inv (set_NumVal x s).

Lemma gettok_invariant n : forall s, Inv s -> wp (gettok n) (fun _ s' => Inv s') s.
Proof.
  induction n as [|n IH]; intros s Hs; cbn [gettok].
  - apply wp_out_of_fuel.
  - unfold gettok_.
    wp_step.
    apply (wp_loop _ (fun _ s => Inv s) (fun _ s => Inv s)); [| |exact Hs].
    { intros _ s0 H0. rd_steps; eauto. }
    intros _ s1 H1. rd_steps; eauto.
    all: apply (wp_loop _ (fun _ s => Inv s) (fun _ s => Inv s));
      [intros ? s2 H2; rd_steps; eauto | | eauto].
    all: intros ? s2 H2; rd_steps; eauto.
    wp_call IH. intros t s3 H3. wp_steps. exact H3.
Qed.

End LexerInvariant.

Lemma pending_read s next rest :
  getchar s = Ret next rest ->
  pending s = LastChar s +:+ pending (set_LastChar next rest).
Proof.
  intros Hg. unfold pending.
  destruct (getchar_cases s next rest Hg) as [(Hin & -> & ->)|(c & r & Hin & -> & ->)];
    cbn [LastChar stdin set_LastChar set_stdin]; rewrite Hin; reflexivity.
Qed.

(** X1: [gettok] changes nothing but its own buffers and the input: the
    current token, the precedence table and what was written to [stderr] are
    as before, and what is left to read is a suffix of what was left. *)
Theorem gettok_frame (n : nat) (s : state) (t : token) (s' : state) :
  gettok n s = Ret t s' ->
  CurTok s' = CurTok s /\ BinopPrecedence s' = BinopPrecedence s /\
  stderr s' = stderr s /\
  exists consumed, pending s = consumed +:+ pending s'.
Proof.
  intros E.
  refine (gettok_invariant
            (fun x => CurTok x = CurTok s /\ BinopPrecedence x = BinopPrecedence s /\
                      stderr x = stderr s /\
                      exists consumed, pending s = consumed +:+ pending x)
            _ _ _ n s _ t s' E).
  - intros x next rest (Hc & Hb & He & pre & Hp) Hg.
    assert (Hf : CurTok rest = CurTok x /\ BinopPrecedence rest = BinopPrecedence x /\
                 stderr rest = stderr x).
    { destruct (getchar_cases x next rest Hg) as [(_ & _ & ->)|(c & r & _ & _ & ->)];
        auto. }
    destruct Hf as (Hc' & Hb' & He').
    cbn [CurTok BinopPrecedence stderr set_LastChar].
    repeat split; try congruence.
    exists (pre +:+ LastChar x). rewrite Hp, (pending_read x next rest Hg).
    symmetry. apply append_assoc.
  - intros x y H. exact H.
  - intros x y H. exact H.
  - repeat split. exists "". reflexivity.
Qed.

Lemma gettok_frame_witness :
  exists s', gettok 5 (initial " foo(1)") = Ret tok_identifier s' /\
             stderr s' = [] /\ pending s' = "(1)".
Proof.
  assert (E : exists s', gettok 5 (initial " foo(1)") = Ret tok_identifier s')
    by (eexists; vm_compute; reflexivity).
  destruct E as (s' & E). exists s'. split; [exact E|].
  destruct (gettok_frame 5 _ _ _ E) as (_ & _ & He & _).
  split; [exact He|].
  revert E. vm_compute. intros E. inversion E. reflexivity.
Defined.

(** [gettok] answers [tok_eof] only when [getchar] has returned the empty
    string. *)
Lemma gettok_eof_LastChar n :
  forall s, wp (gettok n) (fun t s' => t = tok_eof -> LastChar s' = "") s.
Proof.
  induction n as [|n IH]; intros s; cbn [gettok].
  - apply wp_out_of_fuel.
  - unfold gettok_.
    wp_step.
    apply (wp_loop _ (fun _ _ => True) (fun _ _ => True)); [| |exact I].
    { intros _ s0 _. wp_steps; exact I. }
    intros _ s1 _. wp_steps; try discriminate.
    all: try (apply (wp_loop _ (fun _ _ => True) (fun _ _ => True));
              [intros ? s2 _; wp_steps; exact I | | exact I]).
    all: try (intros ? s2 _; wp_steps; try discriminate).
    + wp_call IH. intros t s3 H3. wp_steps. exact H3.
    + intros _. apply String.eqb_eq. assumption.
    + intros _. apply String.eqb_eq. assumption.
Qed.

(** X2: the end of the input is not eaten: once [gettok] has answered
    [tok_eof], every further call (on two units of fuel or more) answers
    [tok_eof] again and leaves the state as it is. *)
Theorem gettok_eof_again (n : nat) (s s' : state) :
  gettok n s = Ret tok_eof s' ->
  forall m, gettok (S (S m)) s' = Ret tok_eof s'.
Proof.
  intros E m. apply gettok_at_eof.
  exact (gettok_eof_LastChar n s tok_eof s' E eq_refl).
Qed.

Lemma gettok_eof_again_witness :
  exists s', gettok 5 (initial "  ") = Ret tok_eof s' /\
             gettok 2 s' = Ret tok_eof s' /\ gettok 7 s' = Ret tok_eof s'.
Proof.
  assert (E : exists s', gettok 5 (initial "  ") = Ret tok_eof s')
    by (eexists; vm_compute; reflexivity).
  destruct E as (s' & E). exists s'. split; [exact E|].
  split; [exact (gettok_eof_again 5 _ _ E 0%nat)|exact (gettok_eof_again 5 _ _ E 5%nat)].
Defined.

(** ** Words and numbers *)

Lemma read_state s next rest :
  getchar s = Ret next rest ->
  eof_seen (set_LastChar next rest) /\ one_char next = true.
Proof.
  intros Hg. unfold eof_seen.
  destruct (getchar_cases s next rest Hg) as [(Hin & -> & ->)|(c & r & Hin & -> & ->)];
    cbn [LastChar stdin set_LastChar set_stdin]; split; auto; discriminate.
Qed.

Lemma pending_cases s :
  eof_seen s -> one_char (LastChar s) = true ->
  (LastChar s = "" /\ pending s = "") \/
  (exists c, LastChar s = String c "" /\ pending s = String c (stdin s)).
Proof.
  intros He H1. unfold pending.
  destruct (LastChar s) as [|c [|c' r]] eqn:HL; [| |discriminate H1].
  - left. rewrite (He HL). auto.
  - right. exists c. auto.
Qed.

Lemma is_alpha_not_space c : is_alpha c = true -> is_space c = false.
Proof.
  destruct c as [[] [] [] [] [] [] [] []]; vm_compute; congruence.
Qed.

Lemma is_numchar_not_space c : is_numchar c = true -> is_space c = false.
Proof.
  destruct c as [[] [] [] [] [] [] [] []]; vm_compute; congruence.
Qed.

Lemma is_numchar_not_alpha c : is_numchar c = true -> is_alpha c = false.
Proof.
  destruct c as [[] [] [] [] [] [] [] []]; vm_compute; congruence.
Qed.

(** The identifier loop appends to [IdentifierStr] the letters and digits
    that come next, and stops in front of the first other character. *)
Lemma identifier_loop_span p :
  forall s n w rest,
    pending s = p -> eof_seen s -> one_char (LastChar s) = true ->
    span is_alnum p = (w, rest) -> (String.length w < n)%nat ->
    exists s1,
      loop n (fun _ : unit =>
                do s <- get;
                if re_match is_alnum (LastChar s)
                then run modify (set_IdentifierStr (IdentifierStr s +:+ LastChar s));
                     do c <- getchar; run modify (set_LastChar c); ret (Continue tt)
                else ret (Done tt)) tt s
      = Ret tt s1 /\
      IdentifierStr s1 = IdentifierStr s +:+ w /\ pending s1 = rest.
Proof.
  induction p as [|c p IH]; intros s n w rest Hp He H1 Hspan Hn;
    (destruct n as [|n]; [lia|]);
    destruct (pending_cases s He H1) as [(HL & Hp')|(c' & HL & Hp')];
    rewrite Hp in Hp'; try discriminate Hp'.
  - cbn in Hspan. inversion Hspan; subst.
    exists s. split; [|split; [symmetry; apply append_nil_r|exact Hp]].
    apply loop_done. unfold bind, get. rewrite HL. reflexivity.
  - inversion Hp'; subst c' p. cbn [span] in Hspan.
    destruct (is_alnum c) eqn:Ha.
    + destruct (span is_alnum (stdin s)) as [w' rest'] eqn:Hspan'.
      inversion Hspan; subst w rest.
      destruct (getchar_returns (set_IdentifierStr (IdentifierStr s +:+ LastChar s) s))
        as (next & st & Hg & _).
      destruct (read_state _ _ _ Hg) as (He2 & H12).
      assert (Hp2 : pending (set_LastChar next st) = stdin s).
      { pose proof (pending_read _ _ _ Hg) as Hr. unfold pending at 1 in Hr.
        cbn [LastChar stdin set_IdentifierStr] in Hr. rewrite HL in Hr.
        change (String c (stdin s) = String c (pending (set_LastChar next st))) in Hr.
        inversion Hr. reflexivity. }
      destruct (IH (set_LastChar next st) n w' rest' Hp2 He2 H12 eq_refl
                  ltac:(cbn in Hn; lia)) as (s1 & Hloop & Hid & Hrest).
      exists s1. split; [|split; [|exact Hrest]].
      * erewrite loop_continue; [exact Hloop|].
        unfold bind at 1, get at 1. rewrite HL. cbn [re_match]. rewrite Ha.
        unfold bind at 1, modify at 1. unfold bind at 1. rewrite <- HL, Hg.
        reflexivity.
      * rewrite Hid.
        assert (Hst : IdentifierStr (set_LastChar next st)
                      = IdentifierStr s +:+ LastChar s).
        { destruct (getchar_cases _ _ _ Hg) as [(_ & _ & ->)|(d & r & _ & _ & ->)];
            reflexivity. }
        rewrite Hst, HL, append_assoc. reflexivity.
    + inversion Hspan; subst w rest.
      exists s. split; [|split; [symmetry; apply append_nil_r|exact Hp]].
      apply loop_done. unfold bind, get. rewrite HL. cbn [re_match]. rewrite Ha.
      reflexivity.
Qed.

(** X3: a word is lexed whole.  With a letter in [LastChar], [gettok] takes
    the letters and digits that follow, up to the first other character or
    the end of the input, leaves the word in [IdentifierStr] and what comes
    after it to be read, and answers [tok_def] for "def", [tok_extern] for
    "extern" and [tok_identifier] for any other word. *)
Theorem gettok_word_munch (s : state) (c : ascii) (w rest : string) :
  LastChar s = String c "" -> is_alpha c = true ->
  span is_alnum (stdin s) = (w, rest) ->
  exists s',
    gettok (S (S (String.length w))) s = Ret (keyword (String c w)) s' /\
    IdentifierStr s' = String c w /\ pending s' = rest.
Proof.
  intros HL Ha Hspan. cbn [gettok]. unfold gettok_.
  erewrite bind_returns
    by (apply loop_done; unfold bind, get; rewrite HL; cbn [re_match];
        rewrite (is_alpha_not_space _ Ha); reflexivity).
  erewrite bind_returns by reflexivity. cbv beta. rewrite HL. cbn [re_match]. rewrite Ha.
  erewrite bind_returns by reflexivity.
  destruct (getchar_returns (set_IdentifierStr (String c "") s)) as (next & st & Hg & _).
  erewrite bind_returns by exact Hg.
  erewrite bind_returns by reflexivity.
  destruct (read_state _ _ _ Hg) as (He2 & H12).
  assert (Hp2 : pending (set_LastChar next st) = stdin s).
  { pose proof (pending_read _ _ _ Hg) as Hr. unfold pending at 1 in Hr.
    cbn [LastChar stdin set_IdentifierStr] in Hr. rewrite HL in Hr.
    change (String c (stdin s) = String c (pending (set_LastChar next st))) in Hr.
    inversion Hr. reflexivity. }
  assert (Hst : IdentifierStr (set_LastChar next st) = String c "").
  { destruct (getchar_cases _ _ _ Hg) as [(_ & _ & ->)|(d & r & _ & _ & ->)];
      reflexivity. }
  destruct (identifier_loop_span (stdin s) (set_LastChar next st)
              (S (String.length w)) w rest Hp2 He2 H12 Hspan ltac:(lia))
    as (s1 & Hloop & Hid & Hrest).
  erewrite bind_returns by exact Hloop.
  erewrite bind_returns by reflexivity. cbv beta.
  rewrite Hst in Hid. change (String c "" +:+ w) with (String c w) in Hid.
  exists s1. split; [|split; [exact Hid|exact Hrest]].
  rewrite Hid. unfold keyword.
  destruct (String c w =? "def")%string; [reflexivity|].
  destruct (String c w =? "extern")%string; reflexivity.
Qed.

Lemma gettok_word_munch_witness :
  exists s',
    gettok 5 (set_LastChar "d" (initial "ef2 x")) = Ret tok_identifier s' /\
    IdentifierStr s' = "def2" /\ pending s' = " x".
Proof.
  exact (gettok_word_munch (set_LastChar "d" (initial "ef2 x")) "d" "ef2" " x"
           eq_refl eq_refl eq_refl).
Defined.

Lemma numchar_test d :
  re_match is_digit (String d "") || String.eqb (String d "") "." = is_numchar d.
Proof.
  unfold is_numchar. cbn. destruct (Ascii.eqb d "."); reflexivity.
Qed.

(** The number loop accumulates the character in hand and the digits and
    dots that follow it, and stops in front of the first other character. *)
Lemma number_loop_span x :
  forall s n c acc w rest,
    stdin s = x -> LastChar s = String c "" ->
    span is_numchar x = (w, rest) -> (String.length w < n)%nat ->
    exists s1,
      loop n (fun NumStr : string =>
                do s <- get;
                let NumStr := NumStr +:+ LastChar s in
                do c <- getchar;
                run modify (set_LastChar c);
                if negb (re_match is_digit c || String.eqb c ".")
                then ret (Done NumStr)
                else ret (Continue NumStr)) acc s
      = Ret (acc +:+ String c w) s1 /\
      pending s1 = rest.
Proof.
  induction x as [|d x IH]; intros s n c acc w rest Hin HL Hspan Hn;
    (destruct n as [|n]; [lia|]); cbn [span] in Hspan.
  - inversion Hspan; subst w rest.
    exists (set_LastChar "" s). split.
    + apply loop_done. unfold bind, get, getchar, modify. rewrite Hin, HL. reflexivity.
    + unfold pending. cbn [LastChar stdin set_LastChar]. rewrite Hin. reflexivity.
  - destruct (is_numchar d) eqn:Hd.
    + destruct (span is_numchar x) as [w' rest'] eqn:Hspan'.
      inversion Hspan; subst w rest.
      destruct (IH (set_LastChar (String d "") (set_stdin x s)) n d
                  (acc +:+ String c "") w' rest' eq_refl eq_refl eq_refl
                  ltac:(cbn in Hn; lia)) as (s1 & Hloop & Hrest).
      exists s1. split; [|exact Hrest].
      erewrite loop_continue
        by (unfold bind, get, getchar, modify; rewrite Hin, HL, numchar_test, Hd;
            reflexivity).
      rewrite Hloop, append_assoc. reflexivity.
    + inversion Hspan; subst w rest.
      exists (set_LastChar (String d "") (set_stdin x s)). split; [|reflexivity].
      apply loop_done.
      unfold bind, get, getchar, modify. rewrite Hin, HL, numchar_test, Hd. reflexivity.
Qed.

(** X4: a numeric literal is lexed whole.  With a digit or a dot in
    [LastChar], [gettok] takes the digits and dots that follow and hands
    exactly that text to [float]; when [float] accepts it the answer is
    [tok_number], otherwise [ValueError] is raised with that text; either way
    what comes after the literal is left to be read.  (Nothing is said of
    the value stored in [NumVal].) *)
Theorem gettok_number_munch (s : state) (c : ascii) (w rest : string) :
  LastChar s = String c "" -> is_numchar c = true ->
  span is_numchar (stdin s) = (w, rest) ->
  exists s',
    pending s' = rest /\
    gettok (S (S (String.length w))) s
    = match float (String c w) with
      | Some _ => Ret tok_number s'
      | None => Raise (ValueError (String c w)) s'
      end.
Proof.
  intros HL Hc Hspan. cbn [gettok]. unfold gettok_.
  erewrite bind_returns
    by (apply loop_done; unfold bind, get; rewrite HL; cbn [re_match];
        rewrite (is_numchar_not_space _ Hc); reflexivity).
  erewrite bind_returns by reflexivity. cbv beta. rewrite HL.
  cbn [re_match]. rewrite (is_numchar_not_alpha _ Hc).
  change (is_digit c) with (re_match is_digit (String c "")).
  rewrite numchar_test, Hc.
  destruct (number_loop_span (stdin s) s (S (String.length w)) c "" w rest
              eq_refl HL Hspan ltac:(lia)) as (s1 & Hloop & Hrest).
  change ("" +:+ String c w) with (String c w) in Hloop.
  erewrite bind_returns by exact Hloop.
  destruct (float (String c w)) as [v|].
  - exists (set_NumVal v s1). split; [exact Hrest|reflexivity].
  - exists s1. split; [exact Hrest|reflexivity].
Qed.

Lemma gettok_number_munch_witness :
  (exists s',
     pending s' = "+x" /\
     gettok 5 (set_LastChar "1" (initial ".50+x")) = Ret tok_number s') /\
  (exists s',
     pending s' = " " /\
     gettok 5 (set_LastChar "1" (initial ".2. ")) = Raise (ValueError "1.2.") s').
Proof.
  split.
  - exact (gettok_number_munch (set_LastChar "1" (initial ".50+x")) "1" ".50" "+x"
             eq_refl eq_refl eq_refl).
  - exact (gettok_number_munch (set_LastChar "1" (initial ".2. ")) "1" ".2." " "
             eq_refl eq_refl eq_refl).
Defined.

(** ** What the lexer returns *)

(** X5: whatever [gettok] returns, from a state whose [LastChar] holds at
    most one character, is one of the five token codes -1 to -5 or a string
    of exactly one character, which is neither white space, a letter, a
    digit, a dot nor '#'; and [LastChar] again holds at most one
    character. *)
Theorem gettok_returns_lexer_token (n : nat) (s : state) (t : token) (s' : state) :
  one_char (LastChar s) = true ->
  gettok n s = Ret t s' ->
  token_shape t = true /\ one_char (LastChar s') = true.
Proof.
  intros H1 E. destruct (gettok_token_shape n s H1 t s' E) as [Hl Ht]. split; assumption.
Qed.

Lemma gettok_returns_lexer_token_witness :
  exists s', gettok 5 (initial " <=") = Ret (TokStr "<") s' /\
             token_shape (TokStr "<") = true /\ one_char (LastChar s') = true.
Proof.
  assert (E : exists s', gettok 5 (initial " <=") = Ret (TokStr "<") s')
    by (eexists; vm_compute; reflexivity).
  destruct E as (s' & E). exists s'. split; [exact E|].
  exact (gettok_returns_lexer_token 5 (initial " <=") _ _ eq_refl E).
Defined.

(** X6: a character that starts no white space, word, number or comment is
    a token by itself: with it in [LastChar], [gettok] returns it as a string
    and reads exactly one character further. *)
Theorem gettok_single_character (n : nat) (s : state) (c : ascii) :
  LastChar s = String c "" -> plain_char c = true ->
  exists next rest,
    getchar s = Ret next rest /\
    gettok (S (S n)) s = Ret (TokStr (String c "")) (set_LastChar next rest).
Proof. intros HL Hc. exact (gettok_plain_char n s c HL Hc). Qed.

Lemma gettok_single_character_witness :
  exists next rest,
    getchar (set_LastChar "(" (initial "x)")) = Ret next rest /\
    gettok 2 (set_LastChar "(" (initial "x)")) = Ret (TokStr "(") (set_LastChar next rest).
Proof.
  exact (gettok_single_character 0 (set_LastChar "(" (initial "x)")) "(" eq_refl eq_refl).
Defined.

(** X9: inside a comment that no line end closes before the input is
    exhausted, [gettok] never comes back: with '#' in [LastChar] and neither
    line feed nor carriage return in the remaining input, it runs out of
    every amount of fuel. *)
Theorem gettok_never_leaves_open_comment (s : state) :
  LastChar s = "#" -> has_line_end (stdin s) = false ->
  forall fuel, gettok fuel s = OutOfFuel.
Proof. intros HL Hin fuel. exact (gettok_open_comment fuel s HL Hin). Qed.

Lemma gettok_never_leaves_open_comment_witness :
  gettok 100 (set_LastChar "#" (initial " to do")) = OutOfFuel.
Proof.
  exact (gettok_never_leaves_open_comment (set_LastChar "#" (initial " to do"))
           eq_refl eq_refl 100%nat).
Defined.

(** * Further properties of the parser *)

Lemma getNextToken_stderr n s :
  wp (getNextToken n) (fun _ s' => stderr s' = stderr s) s.
Proof.
  unfold getNextToken. wp_step.
  eapply wp_mono.
  - apply (gettok_invariant (fun x => stderr x = stderr s)); auto.
    intros x next rest Hx Hg.
    destruct (getchar_cases x next rest Hg) as [(_ & _ & ->)|(c & r & _ & _ & ->)];
      exact Hx.
  - cbv beta. intros t s1 H1. wp_steps. exact H1.
Qed.

Lemma getNextToken_written base k n s :
  written base k s -> wp (getNextToken n) (fun _ s' => written base k s') s.
Proof.
  intros Hs. eapply wp_mono; [apply getNextToken_stderr|].
  cbv beta. intros t s' E. unfold written in *. rewrite E. exact Hs.
Qed.

Lemma written_line base k x s :
  written base k s ->
  written base k (set_stderr (stderr s ++ [x]) s) /\
  (k < length (stderr (set_stderr (stderr s ++ [x]) s)))%nat.
Proof.
  intros [Hp Hk]. unfold written. cbn [stderr set_stderr].
  rewrite length_app. cbn [length]. repeat split; [|lia|lia].
  apply prefix_app_r, Hp.
Qed.

Lemma written_weaken base k k' s :
  (k <= k')%nat -> written base k' s -> written base k s.
Proof. intros Hle [Hp Hk]. split; [exact Hp|lia]. Qed.

Ltac shape_done :=
  unfold primary_post, expression_post, toplevel_post;
  try match goal with
      | H : written ?b ?k ?s |- context [set_stderr (stderr ?s ++ [?x]) ?s] =>
          destruct (written_line b k x s H)
      end;
  unfold written in *;
  repeat match goal with
         | H : _ /\ _ |- _ => destruct H
         end;
  repeat split; auto; try lia; try discriminate; try contradiction.

Section Reports.

Variable base : list string.
Variable k : nat.

Section Bodies.

Variable n : nat.
Variables PE PP PI PR : M (pyval ExprAST).
Variable PB : Z -> pyval ExprAST -> M (pyval ExprAST).

Hypothesis PE_ok : forall s, written base k s -> wp PE (expression_post base k) s.
Hypothesis PP_ok : forall s, written base k s -> wp PP (primary_post base k) s.
Hypothesis PI_ok : forall s, written base k s -> wp PI (primary_post base k) s.
Hypothesis PR_ok : forall s, written base k s -> wp PR (primary_post base k) s.
Hypothesis PB_ok : forall E L s,
  object_shape L = true -> written base k s -> wp (PB E L) (primary_post base k) s.

Lemma ParseNumberExpr_reports s :
  written base k s -> wp (ParseNumberExpr n) (primary_post base k) s.
Proof.
  intros Hs. unfold ParseNumberExpr. wp_steps.
  wp_call (getNextToken_written base k). intros t s1 H1. wp_steps. shape_done.
Qed.

Lemma ParseIdentifierExpr__reports s :
  written base k s -> wp (ParseIdentifierExpr_ n PE) (primary_post base k) s.
Proof.
  intros Hs. unfold ParseIdentifierExpr_. wp_steps.
  wp_call (getNextToken_written base k). intros t s1 H1. wp_steps.
  { shape_done. }
  wp_call (getNextToken_written base k). intros t2 s2 H2. wp_steps.
  - apply (wp_loop _
             (fun args s => written base k s /\ forallb object_shape args = true)
             (fun r s => written base k s /\
                         match r with
                         | inl args => forallb object_shape args = true
                         | inr v => v = PyNone /\ (k < length (stderr s))%nat
                         end)).
    + intros args s3 [H3 Hargs]. wp_step.
      wp_call PE_ok. intros arg s4 [H4 Harg]. wp_steps.
      * destruct arg as [|z|e]; cbn in *; try discriminate; shape_done.
      * destruct arg as [|z|e]; cbn in *; try discriminate.
        -- destruct Harg as [-> _]. discriminate.
        -- split; [exact H4|]. rewrite forallb_app, Hargs. cbn. rewrite Harg. reflexivity.
      * shape_done.
      * destruct arg as [|z|e]; cbn in *; try discriminate.
        { destruct Harg as [-> _]. discriminate. }
        wp_call (getNextToken_written base k). intros t5 s5 H5. wp_steps.
        split; [exact H5|]. rewrite forallb_app, Hargs. cbn. rewrite Harg. reflexivity.
    + intros [args|v] s3 [H3 Hr]; wp_steps.
      * wp_call (getNextToken_written base k). intros t4 s4 H4. wp_steps.
        split; [exact H4|]. exact Hr.
      * destruct Hr as [-> Hr]. split; assumption.
    + split; auto.
  - wp_call (getNextToken_written base k). intros t3 s3 H3. wp_steps. shape_done.
Qed.

Lemma ParseParenExpr__reports s :
  written base k s -> wp (ParseParenExpr_ n PE) (primary_post base k) s.
Proof.
  intros Hs. unfold ParseParenExpr_. wp_step.
  wp_call (getNextToken_written base k). intros t s1 H1. wp_step.
  wp_call PE_ok. intros v s2 _. wp_steps.
Qed.

Lemma ParsePrimary__reports s :
  written base k s -> wp (ParsePrimary_ n PI PR) (primary_post base k) s.
Proof.
  intros Hs. unfold ParsePrimary_. wp_steps.
  - apply PI_ok, Hs.
  - apply ParseNumberExpr_reports, Hs.
  - apply PR_ok, Hs.
  - shape_done.
Qed.

Lemma ParseBinOpRHS__reports E L s :
  object_shape L = true -> written base k s ->
  wp (ParseBinOpRHS_ n PP PB E L) (primary_post base k) s.
Proof.
  intros HL Hs. unfold ParseBinOpRHS_.
  apply (wp_loop _ (fun L s => written base k s /\ object_shape L = true)
           (primary_post base k)); [|auto|split; auto].
  clear L s HL Hs. intros L s [Hs HL]. wp_step.
  apply wp_GetTokPrecedence. intros p _. wp_steps.
  { destruct L as [|z|e]; cbn in HL; try discriminate. split; assumption. }
  wp_call (getNextToken_written base k). intros t s1 H1. wp_step.
  wp_call PP_ok. intros RHS s2 [H2 HR]. wp_steps.
  { destruct RHS as [|z|e]; cbn in *; try discriminate; try contradiction.
    split; assumption. }
  destruct RHS as [|z|e]; cbn in *; try discriminate; try contradiction.
  destruct L as [|z0|e0]; cbn in HL; try discriminate.
  apply wp_GetTokPrecedence. intros q _. wp_steps.
  - wp_call PB_ok. intros RHS' s3 [H3 HR']. wp_steps.
    + destruct RHS' as [|z'|e']; cbn in *; try discriminate; contradiction.
    + split; [exact H3|].
      destruct RHS' as [|z'|e']; cbn in *; try contradiction;
        rewrite HL; cbn; auto.
  - split; [exact H2|]. cbn. rewrite HL, HR. reflexivity.
Qed.

Lemma ParseExpression__reports s :
  written base k s -> wp (ParseExpression_ PP PB) (expression_post base k) s.
Proof.
  intros Hs. unfold ParseExpression_. wp_step.
  wp_call PP_ok. intros LHS s1 [H1 HL]. wp_steps.
  - destruct LHS as [|z|e]; cbn in *; try discriminate; try contradiction.
    split; [assumption|]. split; [reflexivity|assumption].
  - destruct LHS as [|z|e]; cbn in *; try discriminate; try contradiction.
    eapply wp_mono; [apply PB_ok; [exact HL|exact H1]|].
    intros v s2 [H2 Hv]. split; [exact H2|].
    destruct v as [|z|e']; cbn in *; auto; contradiction.
Qed.

End Bodies.

(** The five mutually recursive functions, at every depth. *)
Lemma parser_reports fuel :
  (forall s, written base k s -> wp (ParseExpression fuel) (expression_post base k) s) /\
  (forall s, written base k s -> wp (ParsePrimary fuel) (primary_post base k) s) /\
  (forall s, written base k s -> wp (ParseIdentifierExpr fuel) (primary_post base k) s) /\
  (forall s, written base k s -> wp (ParseParenExpr fuel) (primary_post base k) s) /\
  (forall E L s, object_shape L = true -> written base k s ->
                 wp (ParseBinOpRHS fuel E L) (primary_post base k) s).
Proof.
  induction fuel as [|n (IHe & IHp & IHi & IHr & IHb)].
  - split; [|split; [|split; [|split]]]; intros; apply wp_out_of_fuel.
  - split; [|split; [|split; [|split]]]; intros.
    + change (wp (ParseExpression_ (ParsePrimary n) (ParseBinOpRHS n))
                (expression_post base k) s).
      apply ParseExpression__reports; auto.
    + change (wp (ParsePrimary_ n (ParseIdentifierExpr n) (ParseParenExpr n))
                (primary_post base k) s).
      apply ParsePrimary__reports; auto.
    + change (wp (ParseIdentifierExpr_ n (ParseExpression n)) (primary_post base k) s).
      apply ParseIdentifierExpr__reports; auto.
    + change (wp (ParseParenExpr_ n (ParseExpression n)) (primary_post base k) s).
      apply ParseParenExpr__reports; auto.
    + change (wp (ParseBinOpRHS_ n (ParsePrimary n) (ParseBinOpRHS n) E L)
                (primary_post base k) s).
      apply ParseBinOpRHS__reports; auto.
Qed.

Lemma ParsePrototype_reports fuel s :
  written base k s ->
  wp (ParsePrototype fuel) (toplevel_post (fun _ => True) base k) s.
Proof.
  intros Hs. unfold ParsePrototype. wp_steps.
  { shape_done. }
  wp_call (getNextToken_written base k). intros t s1 H1. wp_steps.
  { shape_done. }
  apply (wp_loop _ (fun _ s => written base k s) (fun _ s => written base k s)); auto.
  - intros args s2 H2. wp_step.
    wp_call (getNextToken_written base k). intros t2 s3 H3. wp_steps; auto.
  - intros args s2 H2. wp_steps.
    + shape_done.
    + wp_call (getNextToken_written base k). intros t3 s3 H3. wp_steps. shape_done.
Qed.

Lemma ParseExtern_reports fuel s :
  written base k s ->
  wp (ParseExtern fuel) (toplevel_post (fun _ => True) base k) s.
Proof.
  intros Hs. unfold ParseExtern. wp_step.
  wp_call (getNextToken_written base k). intros t s1 H1.
  apply ParsePrototype_reports, H1.
Qed.

Lemma ParseDefinition_reports fuel s :
  written base k s ->
  wp (ParseDefinition fuel) (toplevel_post function_shape base k) s.
Proof.
  intros Hs. unfold ParseDefinition. wp_step.
  wp_call (getNextToken_written base k). intros t s1 H1. wp_step.
  wp_call ParsePrototype_reports. intros Proto s2 [H2 HP]. wp_steps.
  { destruct Proto as [|z|p]; cbn in *; try discriminate; try contradiction.
    split; assumption. }
  destruct Proto as [|z|p]; cbn in *; try discriminate; try contradiction.
  wp_call (proj1 (parser_reports fuel)). intros E s3 [H3 HE]. wp_steps.
  - destruct E as [|z|e]; cbn in *; try discriminate.
    + destruct HE as [-> _]. discriminate.
    + split; [exact H3|]. cbn. split; [eauto|exact HE].
  - destruct E as [|z|e]; cbn in *; try discriminate; split; tauto.
Qed.

Lemma ParseTopLevelExpr_reports fuel s :
  written base k s ->
  wp (ParseTopLevelExpr fuel) (toplevel_post function_shape base k) s.
Proof.
  intros Hs. unfold ParseTopLevelExpr. wp_step.
  wp_call (proj1 (parser_reports fuel)). intros E s3 [H3 HE]. wp_steps.
  - destruct E as [|z|e]; cbn in *; try discriminate.
    + destruct HE as [-> _]. discriminate.
    + split; [exact H3|]. cbn. split; [eauto|exact HE].
  - destruct E as [|z|e]; cbn in *; try discriminate; split; tauto.
Qed.

End Reports.

Lemma written_start s : written (stderr s) (length (stderr s)) s.
Proof. split; [reflexivity|lia]. Qed.

Lemma written_grew s s' :
  written (stderr s) (length (stderr s)) s' -> (length (stderr s) < length (stderr s'))%nat ->
  exists x l, stderr s' = stderr s ++ x :: l.
Proof.
  intros [[l Hl] _] Hlt. rewrite Hl, length_app in Hlt.
  destruct l as [|x l]; [cbn in Hlt; lia|]. exists x, l. exact Hl.
Qed.

(** X10: in a tree the parser returns, the left operand of every binary node
    and every argument of every call is an expression object, itself of that
    shape; only the right operand of a binary node may be [None].  A function
    object that [ParseDefinition] or [ParseTopLevelExpr] returns has a
    prototype object and such a tree as body.  [ParseBinOpRHS] is taken with
    a left operand of that shape, as at both of its call sites. *)
Theorem parsed_tree_shape (fuel : nat) (s s' : state) :
  (forall e, ParseExpression fuel s = Ret (PyObj e) s' -> tree_shape e = true) /\
  (forall e, ParsePrimary fuel s = Ret (PyObj e) s' -> tree_shape e = true) /\
  (forall E L e, object_shape L = true ->
     ParseBinOpRHS fuel E L s = Ret (PyObj e) s' -> tree_shape e = true) /\
  (forall f, ParseDefinition fuel s = Ret (PyObj f) s' -> function_shape f) /\
  (forall f, ParseTopLevelExpr fuel s = Ret (PyObj f) s' -> function_shape f).
Proof.
  pose proof (parser_reports (stderr s) (length (stderr s)) fuel)
    as (He & Hp & _ & _ & Hb).
  split; [|split; [|split; [|split]]].
  - intros e E. exact (proj2 (He s (written_start s) _ _ E)).
  - intros e E. exact (proj2 (Hp s (written_start s) _ _ E)).
  - intros E0 L e HL E. exact (proj2 (Hb E0 L s HL (written_start s) _ _ E)).
  - intros f E.
    exact (proj2 (ParseDefinition_reports _ _ fuel s (written_start s) _ _ E)).
  - intros f E.
    exact (proj2 (ParseTopLevelExpr_reports _ _ fuel s (written_start s) _ _ E)).
Qed.

Lemma parsed_tree_shape_witness :
  (exists e s', ParseExpression 10 (primed 10 "f(a<b, 2)-1") = Ret (PyObj e) s' /\
     tree_shape e = true) /\
  (exists e s', ParsePrimary 10 (primed 10 "f(a<b, 2)-1") = Ret (PyObj e) s' /\
     tree_shape e = true) /\
  (exists e s', ParseBinOpRHS 10 0 (num 1) (primed 10 "+2*") = Ret (PyObj e) s' /\
     tree_shape e = true) /\
  (exists f s', ParseDefinition 10 (primed 10 "def foo(x y) x+y") = Ret (PyObj f) s' /\
     function_shape f) /\
  (exists f s', ParseTopLevelExpr 10 (primed 10 "1+2*") = Ret (PyObj f) s' /\
     function_shape f).
Proof.
  split; [|split; [|split; [|split]]].
  - assert (E : exists e s', ParseExpression 10 (primed 10 "f(a<b, 2)-1") = Ret (PyObj e) s')
      by (eexists _, _; vm_compute; reflexivity).
    destruct E as (e & s' & E). exists e, s'. split; [exact E|].
    exact (proj1 (parsed_tree_shape 10 _ s') _ E).
  - assert (E : exists e s', ParsePrimary 10 (primed 10 "f(a<b, 2)-1") = Ret (PyObj e) s')
      by (eexists _, _; vm_compute; reflexivity).
    destruct E as (e & s' & E). exists e, s'. split; [exact E|].
    exact (proj1 (proj2 (parsed_tree_shape 10 _ s')) _ E).
  - assert (E : exists e s', ParseBinOpRHS 10 0 (num 1) (primed 10 "+2*") = Ret (PyObj e) s')
      by (eexists _, _; vm_compute; reflexivity).
    destruct E as (e & s' & E). exists e, s'. split; [exact E|].
    exact (proj1 (proj2 (proj2 (parsed_tree_shape 10 _ s'))) 0 (num 1) _ eq_refl E).
  - assert (E : exists f s', ParseDefinition 10 (primed 10 "def foo(x y) x+y") = Ret (PyObj f) s')
      by (eexists _, _; vm_compute; reflexivity).
    destruct E as (f & s' & E). exists f, s'. split; [exact E|].
    exact (proj1 (proj2 (proj2 (proj2 (parsed_tree_shape 10 _ s')))) _ E).
  - assert (E : exists f s', ParseTopLevelExpr 10 (primed 10 "1+2*") = Ret (PyObj f) s')
      by (eexists _, _; vm_compute; reflexivity).
    destruct E as (f & s' & E). exists f, s'. split; [exact E|].
    exact (proj2 (proj2 (proj2 (proj2 (parsed_tree_shape 10 _ s')))) _ E).
Defined.

(** X11: [ParsePrimary] returns [None] or an object, and so does
    [ParseBinOpRHS] when its left operand is an object of the shape above:
    the statement [return 0] of [ParseBinOpRHS] never decides its result.
    [ParseExpression] returns [None], the integer 0 or an object, and no
    other integer. *)
Theorem parser_return_values (fuel : nat) (s s' : state) :
  (forall v, ParsePrimary fuel s = Ret v s' -> v = PyNone \/ exists e, v = PyObj e) /\
  (forall E L v, object_shape L = true -> ParseBinOpRHS fuel E L s = Ret v s' ->
     v = PyNone \/ exists e, v = PyObj e) /\
  (forall v, ParseExpression fuel s = Ret v s' ->
     v = PyNone \/ v = PyInt 0 \/ exists e, v = PyObj e).
Proof.
  pose proof (parser_reports (stderr s) (length (stderr s)) fuel)
    as (He & Hp & _ & _ & Hb).
  split; [|split].
  - intros v E. destruct (Hp s (written_start s) _ _ E) as [_ H].
    destruct v as [|z|e]; [left; reflexivity|contradiction|right; eauto].
  - intros E0 L v HL E. destruct (Hb E0 L s HL (written_start s) _ _ E) as [_ H].
    destruct v as [|z|e]; [left; reflexivity|contradiction|right; eauto].
  - intros v E. destruct (He s (written_start s) _ _ E) as [_ H].
    destruct v as [|z|e]; [left; reflexivity| |right; right; eauto].
    destruct H as [-> _]. right; left; reflexivity.
Qed.

Lemma parser_return_values_witness :
  (exists v s', ParsePrimary 10 (primed 10 ")") = Ret v s' /\
     (v = PyNone \/ exists e, v = PyObj e)) /\
  (exists v s', ParseBinOpRHS 10 0 (num 1) (primed 10 "+2*3+") = Ret v s' /\
     (v = PyNone \/ exists e, v = PyObj e)) /\
  (exists v s', ParseExpression 10 (primed 10 ")") = Ret v s' /\
     (v = PyNone \/ v = PyInt 0 \/ exists e, v = PyObj e)).
Proof.
  split; [|split].
  - assert (E : exists v s', ParsePrimary 10 (primed 10 ")") = Ret v s')
      by (eexists _, _; vm_compute; reflexivity).
    destruct E as (v & s' & E). exists v, s'. split; [exact E|].
    exact (proj1 (parser_return_values 10 _ s') _ E).
  - assert (E : exists v s', ParseBinOpRHS 10 0 (num 1) (primed 10 "+2*3+") = Ret v s')
      by (eexists _, _; vm_compute; reflexivity).
    destruct E as (v & s' & E). exists v, s'. split; [exact E|].
    exact (proj1 (proj2 (parser_return_values 10 _ s')) 0 (num 1) _ eq_refl E).
  - assert (E : exists v s', ParseExpression 10 (primed 10 ")") = Ret v s')
      by (eexists _, _; vm_compute; reflexivity).
    destruct E as (v & s' & E). exists v, s'. split; [exact E|].
    exact (proj2 (proj2 (parser_return_values 10 _ s')) _ E).
Defined.

(** X12: a parse that fails has said so.  Whenever [ParsePrimary],
    [ParseExpression], [ParsePrototype], [ParseExtern], [ParseDefinition] or
    [ParseTopLevelExpr] returns a value that is not true ([None] or 0),
    [stderr] holds everything it held before the call and at least one more
    line. *)
Theorem failed_parse_is_reported (fuel : nat) (s s' : state) :
  (forall v, ParsePrimary fuel s = Ret v s' -> truthy v = false ->
     exists x l, stderr s' = stderr s ++ x :: l) /\
  (forall v, ParseExpression fuel s = Ret v s' -> truthy v = false ->
     exists x l, stderr s' = stderr s ++ x :: l) /\
  (forall v, ParsePrototype fuel s = Ret v s' -> truthy v = false ->
     exists x l, stderr s' = stderr s ++ x :: l) /\
  (forall v, ParseExtern fuel s = Ret v s' -> truthy v = false ->
     exists x l, stderr s' = stderr s ++ x :: l) /\
  (forall v, ParseDefinition fuel s = Ret v s' -> truthy v = false ->
     exists x l, stderr s' = stderr s ++ x :: l) /\
  (forall v, ParseTopLevelExpr fuel s = Ret v s' -> truthy v = false ->
     exists x l, stderr s' = stderr s ++ x :: l).
Proof.
  pose proof (parser_reports (stderr s) (length (stderr s)) fuel)
    as (He & Hp & _ & _ & _).
  split; [|split; [|split; [|split; [|split]]]]; intros v E Hv.
  - destruct (Hp s (written_start s) _ _ E) as [Hw H].
    destruct v as [|z|e]; [|contradiction|discriminate].
    apply written_grew; assumption.
  - destruct (He s (written_start s) _ _ E) as [Hw H].
    destruct v as [|z|e]; [| |discriminate]; apply written_grew; tauto.
  - destruct (ParsePrototype_reports _ _ fuel s (written_start s) _ _ E) as [Hw H].
    destruct v as [|z|e]; [|contradiction|discriminate].
    apply written_grew; assumption.
  - destruct (ParseExtern_reports _ _ fuel s (written_start s) _ _ E) as [Hw H].
    destruct v as [|z|e]; [|contradiction|discriminate].
    apply written_grew; assumption.
  - destruct (ParseDefinition_reports _ _ fuel s (written_start s) _ _ E) as [Hw H].
    destruct v as [|z|e]; [|contradiction|discriminate].
    apply written_grew; assumption.
  - destruct (ParseTopLevelExpr_reports _ _ fuel s (written_start s) _ _ E) as [Hw H].
    destruct v as [|z|e]; [|contradiction|discriminate].
    apply written_grew; assumption.
Qed.

Lemma failed_parse_is_reported_witness :
  (exists v s' x l, ParsePrimary 10 (primed 10 ")") = Ret v s' /\
     stderr s' = stderr (primed 10 ")") ++ x :: l) /\
  (exists v s' x l, ParseExpression 10 (primed 10 "1+") = Ret v s' /\
     stderr s' = stderr (primed 10 "1+") ++ x :: l) /\
  (exists v s' x l, ParsePrototype 10 (primed 10 "foo(x,") = Ret v s' /\
     stderr s' = stderr (primed 10 "foo(x,") ++ x :: l) /\
  (exists v s' x l, ParseExtern 10 (primed 10 "extern 3") = Ret v s' /\
     stderr s' = stderr (primed 10 "extern 3") ++ x :: l) /\
  (exists v s' x l, ParseDefinition 10 (primed 10 "def foo(x) ;") = Ret v s' /\
     stderr s' = stderr (primed 10 "def foo(x) ;") ++ x :: l) /\
  (exists v s' x l, ParseTopLevelExpr 10 (primed 10 "f(1;") = Ret v s' /\
     stderr s' = stderr (primed 10 "f(1;") ++ x :: l).
Proof.
  split; [|split; [|split; [|split; [|split]]]].
  - assert (E : exists v s', ParsePrimary 10 (primed 10 ")") = Ret v s' /\ truthy v = false)
      by (eexists _, _; split; vm_compute; reflexivity).
    destruct E as (v & s' & E & Hv).
    destruct (proj1 (failed_parse_is_reported 10 _ s') _ E Hv) as (x & l & H).
    exists v, s', x, l. split; [exact E|exact H].
  - assert (E : exists v s', ParseExpression 10 (primed 10 "1+") = Ret v s' /\ truthy v = false)
      by (eexists _, _; split; vm_compute; reflexivity).
    destruct E as (v & s' & E & Hv).
    destruct (proj1 (proj2 (failed_parse_is_reported 10 _ s')) _ E Hv) as (x & l & H).
    exists v, s', x, l. split; [exact E|exact H].
  - assert (E : exists v s', ParsePrototype 10 (primed 10 "foo(x,") = Ret v s' /\ truthy v = false)
      by (eexists _, _; split; vm_compute; reflexivity).
    destruct E as (v & s' & E & Hv).
    destruct (proj1 (proj2 (proj2 (failed_parse_is_reported 10 _ s'))) _ E Hv) as (x & l & H).
    exists v, s', x, l. split; [exact E|exact H].
  - assert (E : exists v s', ParseExtern 10 (primed 10 "extern 3") = Ret v s' /\ truthy v = false)
      by (eexists _, _; split; vm_compute; reflexivity).
    destruct E as (v & s' & E & Hv).
    destruct (proj1 (proj2 (proj2 (proj2 (failed_parse_is_reported 10 _ s')))) _ E Hv)
      as (x & l & H).
    exists v, s', x, l. split; [exact E|exact H].
  - assert (E : exists v s', ParseDefinition 10 (primed 10 "def foo(x) ;") = Ret v s' /\ truthy v = false)
      by (eexists _, _; split; vm_compute; reflexivity).
    destruct E as (v & s' & E & Hv).
    destruct (proj1 (proj2 (proj2 (proj2 (proj2 (failed_parse_is_reported 10 _ s'))))) _ E Hv)
      as (x & l & H).
    exists v, s', x, l. split; [exact E|exact H].
  - assert (E : exists v s', ParseTopLevelExpr 10 (primed 10 "f(1;") = Ret v s' /\ truthy v = false)
      by (eexists _, _; split; vm_compute; reflexivity).
    destruct E as (v & s' & E & Hv).
    destruct (proj2 (proj2 (proj2 (proj2 (proj2 (failed_parse_is_reported 10 _ s'))))) _ E Hv)
      as (x & l & H).
    exists v, s', x, l. split; [exact E|exact H].
Defined.

(** ** Precedence climbing *)

Lemma GetTokPrecedence_precedence s :
  GetTokPrecedence s = Ret (precedence (BinopPrecedence s) (CurTok s)) s.
Proof.
  unfold GetTokPrecedence, precedence, bind, get.
  destruct (CurTok s) as [z|c]; [reflexivity|].
  cbv zeta. destruct (default (-1) (BinopPrecedence s !! c) <=? 0)%Z; reflexivity.
Qed.

Lemma wp_GetTokPrecedence_value (Q : Z -> state -> Prop) s :
  Q (precedence (BinopPrecedence s) (CurTok s)) s -> wp GetTokPrecedence Q s.
Proof.
  intros H a s' E. rewrite GetTokPrecedence_precedence in E.
  inversion E; subst. exact H.
Qed.

Lemma precedence_range T t : precedence T t = -1 \/ 0 < precedence T t.
Proof.
  unfold precedence. destruct t as [z|c]; [left; reflexivity|].
  cbv zeta. destruct (default (-1) (T !! c) <=? 0)%Z eqn:E; [left; reflexivity|].
  right. apply Z.leb_gt in E. exact E.
Qed.

Lemma root_ge_primary T p e : is_primary e = true -> root_ge T p (PyObj e) = true.
Proof. destruct e; cbn; auto; discriminate. Qed.

(** [ParseBinOpRHS] returns an object only in front of a token that binds
    less tightly than the minimal precedence it was called with. *)
Lemma ParseBinOpRHS_stops fuel E L s :
  wp (ParseBinOpRHS fuel E L)
     (fun v s' => forall e, v = PyObj e ->
                            precedence (BinopPrecedence s') (CurTok s') < E) s.
Proof.
  destruct fuel as [|n]; [apply wp_out_of_fuel|].
  change (ParseBinOpRHS (S n) E L)
    with (ParseBinOpRHS_ n (ParsePrimary n) (ParseBinOpRHS n) E L).
  unfold ParseBinOpRHS_.
  apply (wp_loop _ (fun _ _ => True)
           (fun v s' => forall e, v = PyObj e ->
                                  precedence (BinopPrecedence s') (CurTok s') < E));
    [|auto|exact I].
  intros LHS s0 _. wp_step.
  apply wp_GetTokPrecedence_value. wp_steps.
  { intros e _. apply Z.ltb_lt. assumption. }
  eapply wp_mono; [apply wp_any|cbv beta]. intros _ s1 _. wp_step.
  eapply wp_mono; [apply wp_any|cbv beta]. intros RHS s2 _. wp_steps; try discriminate; try exact I.
  all: try (apply wp_GetTokPrecedence_value; wp_steps); try discriminate; try exact I.
  eapply wp_mono; [apply wp_any|cbv beta]. intros RHS' s3 _. wp_steps; try discriminate; exact I.
Qed.

Lemma complete_BinaryExprAST op lhs rhs :
  complete (BinaryExprAST op lhs rhs) = value_complete lhs && value_complete rhs.
Proof. reflexivity. Qed.

Lemma ordered_BinaryExprAST T op lhs rhs :
  ordered T (BinaryExprAST op lhs rhs)
  = root_ge T (precedence T op) lhs && root_ge T (precedence T op + 1) rhs
    && value_ordered T lhs && value_ordered T rhs.
Proof. reflexivity. Qed.

Lemma arguments_ordered T args :
  forallb (argument_ok T) args = true ->
  complete (CallExprAST "" args) = true -> ordered T (CallExprAST "" args) = true.
Proof.
  cbn [complete ordered]. induction args as [|a args IH]; [reflexivity|].
  cbn [forallb]. intros H C.
  apply andb_true_iff in H as [Ha H]. apply andb_true_iff in C as [Ca C].
  rewrite (IH H C), andb_true_r.
  unfold argument_ok, value_complete, value_ordered in Ha.
  destruct a as [|z|e]; try discriminate. rewrite Ca in Ha. exact Ha.
Qed.

Section Climbing.

Variable T : gmap string Z.

Section Bodies.

Variable n : nat.
Variables PE PP PI PR : M (pyval ExprAST).
Variable PB : Z -> pyval ExprAST -> M (pyval ExprAST).

Hypothesis PE_ok : forall s, table_is T s -> wp PE (climb_expression T) s.
Hypothesis PP_ok : forall s, table_is T s -> wp PP (climb_primary T) s.
Hypothesis PI_ok : forall s, table_is T s -> wp PI (climb_primary T) s.
Hypothesis PR_ok : forall s, table_is T s -> wp PR (climb_primary T) s.
Hypothesis PB_ok : forall E L s,
  primary_ok T L -> table_is T s -> wp (PB E L) (climb_binop T E) s.

Lemma ParseNumberExpr_climbs s :
  table_is T s -> wp (ParseNumberExpr n) (climb_primary T) s.
Proof.
  intros Hs. unfold ParseNumberExpr. wp_steps.
  wp_call (getNextToken_table T). intros t s1 H1. wp_steps.
  split; [exact H1|]. cbn. auto.
Qed.

Lemma ParseIdentifierExpr__climbs s :
  table_is T s -> wp (ParseIdentifierExpr_ n PE) (climb_primary T) s.
Proof.
  intros Hs. unfold ParseIdentifierExpr_. wp_steps.
  wp_call (getNextToken_table T). intros t s1 H1. wp_steps.
  { split; [exact H1|]. cbn. auto. }
  wp_call (getNextToken_table T). intros t2 s2 H2. wp_steps.
  - apply (wp_loop _
             (fun args s => table_is T s /\ forallb (argument_ok T) args = true)
             (fun r s => table_is T s /\
                         match r with
                         | inl args => forallb (argument_ok T) args = true
                         | inr v => v = PyNone
                         end)).
    + intros args s3 [H3 Hargs]. wp_step.
      wp_call PE_ok. intros arg s4 [H4 Harg].
      assert (Hnew : forallb (argument_ok T) (args ++ [arg]) = true).
      { rewrite forallb_app, Hargs. cbn. rewrite andb_true_r.
        unfold argument_ok. destruct arg as [|z|e]; cbn; try reflexivity.
        destruct (complete e); [cbn; auto|reflexivity]. }
      wp_steps; auto.
      wp_call (getNextToken_table T). intros t5 s5 H5. wp_steps. auto.
    + intros [args|v] s3 [H3 Hr]; wp_steps.
      * wp_call (getNextToken_table T). intros t4 s4 H4. wp_steps.
        split; [exact H4|]. split; [reflexivity|].
        exact (arguments_ordered T args Hr).
      * subst v. split; [exact H3|exact I].
    + split; auto.
  - wp_call (getNextToken_table T). intros t3 s3 H3. wp_steps.
    split; [exact H3|]. cbn. auto.
Qed.

Lemma ParseParenExpr__climbs s :
  table_is T s -> wp (ParseParenExpr_ n PE) (climb_primary T) s.
Proof.
  intros Hs. unfold ParseParenExpr_. wp_step.
  wp_call (getNextToken_table T). intros t s1 H1. wp_step.
  wp_call PE_ok. intros v s2 _. wp_steps.
Qed.

Lemma ParsePrimary__climbs s :
  table_is T s -> wp (ParsePrimary_ n PI PR) (climb_primary T) s.
Proof.
  intros Hs. unfold ParsePrimary_. wp_steps.
  - apply PI_ok, Hs.
  - apply ParseNumberExpr_climbs, Hs.
  - apply PR_ok, Hs.
  - split; [exact Hs|exact I].
Qed.

Lemma ParseBinOpRHS__climbs E L s :
  primary_ok T L -> table_is T s ->
  wp (ParseBinOpRHS_ n PP PB E L) (climb_binop T E) s.
Proof.
  intros HL Hs. unfold ParseBinOpRHS_.
  apply (wp_loop _
           (fun LHS s => table_is T s /\
              match LHS with
              | PyObj e => complete e = true ->
                  ordered T e = true /\ root_ge T E LHS = true /\
                  root_ge T (precedence T (CurTok s)) LHS = true
              | _ => True
              end)
           (climb_binop T E)); [|auto|].
  2:{ split; [exact Hs|]. destruct L as [|z|l]; auto.
      destruct HL as [Hp Ho]. intros C.
      split; [auto|]. split; apply root_ge_primary, Hp. }
  clear L s HL Hs. intros LHS s [Hs HL]. wp_step.
  apply wp_GetTokPrecedence_value. rewrite Hs.
  set (TokPrec := precedence T (CurTok s)) in *.
  wp_steps.
  { split; [exact Hs|]. destruct LHS as [|z|l]; auto.
    split; [apply Z.ltb_lt; assumption|]. intros C. destruct (HL C) as (Ho & Hr & _).
    auto. }
  wp_call (getNextToken_table T). intros t s1 H1. wp_step.
  wp_call PP_ok. intros RHS s2 [H2 HR]. wp_steps.
  { split; [exact H2|exact I]. }
  apply wp_GetTokPrecedence_value. rewrite H2.
  assert (HE : E <= TokPrec) by (apply Z.ltb_ge; assumption).
  wp_steps.
  - wp_call PB_ok. intros RHS' s3 [H3 HR']. wp_steps.
    + split; [exact H3|exact I].
    + split; [exact H3|].
      rewrite complete_BinaryExprAST, ordered_BinaryExprAST. intros C.
      apply andb_true_iff in C as [Cl Cr].
      destruct LHS as [|z|l]; try discriminate Cl.
      destruct RHS' as [|z|r]; try discriminate Cr.
      cbn [value_complete] in Cl, Cr.
      destruct (HL Cl) as (Ho & _ & Hnext).
      unfold table_is in Hs. rewrite Hs in *. unfold TokPrec in *.
      destruct HR' as (Hlt & HR'). destruct (HR' Cr) as (Hor & Hrr).
      cbn [value_ordered]. rewrite Ho, Hor, Hnext, Hrr. cbn [andb].
      split; [reflexivity|]. cbn [root_ge].
      split; apply Z.leb_le; lia.
  - split; [exact H2|].
    rewrite complete_BinaryExprAST, ordered_BinaryExprAST. intros C.
    apply andb_true_iff in C as [Cl Cr].
    destruct LHS as [|z|l]; try discriminate Cl.
    destruct RHS as [|z|r]; try discriminate Cr.
    cbn [value_complete] in Cl, Cr.
    destruct (HL Cl) as (Ho & _ & Hnext). destruct HR as [Hp Hor].
    unfold table_is in Hs. rewrite Hs in *. unfold TokPrec in *.
    cbn [value_ordered].
    rewrite Ho, (Hor Cr), Hnext, (root_ge_primary T _ r Hp). cbn [andb].
    split; [reflexivity|]. cbn [root_ge].
    assert (Hq : precedence T (CurTok s2) <= TokPrec) by (apply Z.ltb_ge; assumption).
    split; apply Z.leb_le; lia.
Qed.

Lemma ParseExpression__climbs s :
  table_is T s -> wp (ParseExpression_ PP PB) (climb_expression T) s.
Proof.
  intros Hs. unfold ParseExpression_. wp_step.
  wp_call PP_ok. intros LHS s1 [H1 HL]. wp_steps.
  - split; [exact H1|exact I].
  - eapply wp_mono; [apply PB_ok; [exact HL|exact H1]|].
    intros v s2 [H2 Hv]. split; [exact H2|].
    destruct v as [|z|e]; auto. intros C. apply Hv, C.
Qed.

End Bodies.

(** The five mutually recursive functions, at every depth. *)
Lemma parser_climbs fuel :
  (forall s, table_is T s -> wp (ParseExpression fuel) (climb_expression T) s) /\
  (forall s, table_is T s -> wp (ParsePrimary fuel) (climb_primary T) s) /\
  (forall s, table_is T s -> wp (ParseIdentifierExpr fuel) (climb_primary T) s) /\
  (forall s, table_is T s -> wp (ParseParenExpr fuel) (climb_primary T) s) /\
  (forall E L s, primary_ok T L -> table_is T s ->
                 wp (ParseBinOpRHS fuel E L) (climb_binop T E) s).
Proof.
  induction fuel as [|n (IHe & IHp & IHi & IHr & IHb)].
  - split; [|split; [|split; [|split]]]; intros; apply wp_out_of_fuel.
  - split; [|split; [|split; [|split]]]; intros.
    + change (wp (ParseExpression_ (ParsePrimary n) (ParseBinOpRHS n))
                (climb_expression T) s).
      apply ParseExpression__climbs; auto.
    + change (wp (ParsePrimary_ n (ParseIdentifierExpr n) (ParseParenExpr n))
                (climb_primary T) s).
      apply ParsePrimary__climbs; auto.
    + change (wp (ParseIdentifierExpr_ n (ParseExpression n)) (climb_primary T) s).
      apply ParseIdentifierExpr__climbs; auto.
    + change (wp (ParseParenExpr_ n (ParseExpression n)) (climb_primary T) s).
      apply ParseParenExpr__climbs; auto.
    + change (wp (ParseBinOpRHS_ n (ParsePrimary n) (ParseBinOpRHS n) E L)
                (climb_binop T E) s).
      apply ParseBinOpRHS__climbs; auto.
Qed.

End Climbing.

Lemma ParseDefinition_climbs T fuel s :
  table_is T s ->
  wp (ParseDefinition fuel)
     (fun f _ => match f with
                 | PyObj (MkFunctionAST _ (PyObj e)) =>
                     complete e = true -> ordered T e = true
                 | _ => True
                 end) s.
Proof.
  intros Hs. unfold ParseDefinition. wp_step.
  wp_call (getNextToken_table T). intros t s1 H1. wp_step.
  eapply wp_mono.
  { apply (ParsePrototype_inv (table_is T) (getNextToken_table T) (fun _ _ H => H)), H1. }
  cbv beta. intros Proto s2 H2. wp_steps; auto.
  wp_call (proj1 (parser_climbs T fuel)). intros E s3 [H3 HE]. wp_steps; auto.
Qed.

Lemma ParseTopLevelExpr_climbs T fuel s :
  table_is T s ->
  wp (ParseTopLevelExpr fuel)
     (fun f _ => match f with
                 | PyObj (MkFunctionAST _ (PyObj e)) =>
                     complete e = true -> ordered T e = true
                 | _ => True
                 end) s.
Proof.
  intros Hs. unfold ParseTopLevelExpr. wp_step.
  wp_call (proj1 (parser_climbs T fuel)). intros E s3 [H3 HE]. wp_steps; auto.
Qed.

(** X13: the parser stops only in front of a token that binds less tightly
    than it was asked to.  When [ParseBinOpRHS], called with the minimal
    precedence [E], returns an object, [GetTokPrecedence] answers less than
    [E] for the current token; when [ParseExpression] returns an object, the
    current token is no declared binary operator ([GetTokPrecedence] answers
    -1): no operator is left behind an expression. *)
Theorem parser_stops_at_weaker_operator (fuel : nat) (s s' : state) :
  (forall E L e, ParseBinOpRHS fuel E L s = Ret (PyObj e) s' ->
     exists p, GetTokPrecedence s' = Ret p s' /\ p < E) /\
  (forall e, ParseExpression fuel s = Ret (PyObj e) s' ->
     GetTokPrecedence s' = Ret (-1) s').
Proof.
  split.
  - intros E L e H. eexists. split; [apply GetTokPrecedence_precedence|].
    exact (ParseBinOpRHS_stops fuel E L s _ _ H e eq_refl).
  - intros e H.
    assert (Hw : wp (ParseExpression fuel)
                   (fun v s' => forall e, v = PyObj e ->
                      precedence (BinopPrecedence s') (CurTok s') < 0) s).
    { destruct fuel as [|n]; [apply wp_out_of_fuel|].
      change (ParseExpression (S n))
        with (ParseExpression_ (ParsePrimary n) (ParseBinOpRHS n)).
      unfold ParseExpression_. wp_step.
      eapply wp_mono; [apply wp_any|cbv beta]. intros LHS s1 _. wp_steps.
      - discriminate.
      - apply ParseBinOpRHS_stops. }
    pose proof (Hw _ _ H e eq_refl) as Hlt.
    rewrite GetTokPrecedence_precedence.
    destruct (precedence_range (BinopPrecedence s') (CurTok s')) as [->|Hpos];
      [reflexivity|lia].
Qed.

Lemma parser_stops_at_weaker_operator_witness :
  (exists e s' p, ParseBinOpRHS 10 21 (num 2) (primed 10 "2*3+4") = Ret (PyObj e) s' /\
     GetTokPrecedence s' = Ret p s' /\ p < 21) /\
  (exists e s', ParseExpression 10 (primed 10 "1+2*3 ; 4") = Ret (PyObj e) s' /\
     GetTokPrecedence s' = Ret (-1) s').
Proof.
  split.
  - assert (E : exists e s', ParseBinOpRHS 10 21 (num 2) (primed 10 "2*3+4") = Ret (PyObj e) s')
      by (eexists _, _; vm_compute; reflexivity).
    destruct E as (e & s' & E).
    destruct (proj1 (parser_stops_at_weaker_operator 10 _ s') 21 (num 2) e E) as (p & Hp).
    exists e, s', p. split; [exact E|exact Hp].
  - assert (E : exists e s', ParseExpression 10 (primed 10 "1+2*3 ; 4") = Ret (PyObj e) s')
      by (eexists _, _; vm_compute; reflexivity).
    destruct E as (e & s' & E). exists e, s'. split; [exact E|].
    exact (proj2 (parser_stops_at_weaker_operator 10 _ s') e E).
Defined.

(** X14: the trees follow the precedence table, whatever the input and the
    table.  In a tree that [ParseExpression] returns, or that is the body of
    a function [ParseTopLevelExpr] or [ParseDefinition] returns, and in which
    no operand is missing, a binary node that is the left operand of another
    binds at least as tightly as that one (operators of equal precedence
    group to the left), and a binary node that is the right operand of
    another binds strictly tighter.  Precedences are those
    [GetTokPrecedence] answers under the table of the starting state.
    ([ParseParenExpr] returns on no input, so no operand is a parenthesised
    expression.) *)
Theorem parsed_tree_respects_precedence (fuel : nat) (s s' : state) :
  (forall e, ParseExpression fuel s = Ret (PyObj e) s' ->
     complete e = true -> ordered (BinopPrecedence s) e = true) /\
  (forall p e, ParseTopLevelExpr fuel s = Ret (PyObj (MkFunctionAST p (PyObj e))) s' ->
     complete e = true -> ordered (BinopPrecedence s) e = true) /\
  (forall p e, ParseDefinition fuel s = Ret (PyObj (MkFunctionAST p (PyObj e))) s' ->
     complete e = true -> ordered (BinopPrecedence s) e = true).
Proof.
  split; [|split].
  - intros e H.
    exact (proj2 (proj1 (parser_climbs (BinopPrecedence s) fuel) s eq_refl _ _ H)).
  - intros p e H.
    exact (ParseTopLevelExpr_climbs (BinopPrecedence s) fuel s eq_refl _ _ H).
  - intros p e H.
    exact (ParseDefinition_climbs (BinopPrecedence s) fuel s eq_refl _ _ H).
Qed.

Lemma parsed_tree_respects_precedence_witness :
  (exists e s', ParseExpression 30 (primed 30 "a<b+1*f(x-2*y, 3)*4-5") = Ret (PyObj e) s' /\
     ordered builtin_table e = true) /\
  (exists p e s', ParseTopLevelExpr 12 (primed 12 "1-2-3*4<5")
                  = Ret (PyObj (MkFunctionAST p (PyObj e))) s' /\
     ordered builtin_table e = true) /\
  (exists p e s', ParseDefinition 12 (primed 12 "def f(x y) x*y+x<y")
                  = Ret (PyObj (MkFunctionAST p (PyObj e))) s' /\
     ordered builtin_table e = true).
Proof.
  split; [|split].
  - assert (E : exists e s',
               ParseExpression 30 (primed 30 "a<b+1*f(x-2*y, 3)*4-5") = Ret (PyObj e) s' /\
               complete e = true)
      by (eexists _, _; split; vm_compute; reflexivity).
    assert (HT : BinopPrecedence (primed 30 "a<b+1*f(x-2*y, 3)*4-5") = builtin_table)
      by (vm_compute; reflexivity).
    destruct E as (e & s' & E & C). exists e, s'. split; [exact E|].
    rewrite <- HT. exact (proj1 (parsed_tree_respects_precedence 30 _ s') e E C).
  - assert (E : exists p e s',
               ParseTopLevelExpr 12 (primed 12 "1-2-3*4<5")
               = Ret (PyObj (MkFunctionAST p (PyObj e))) s' /\ complete e = true)
      by (eexists _, _, _; split; vm_compute; reflexivity).
    assert (HT : BinopPrecedence (primed 12 "1-2-3*4<5") = builtin_table)
      by (vm_compute; reflexivity).
    destruct E as (p & e & s' & E & C). exists p, e, s'. split; [exact E|].
    rewrite <- HT.
    exact (proj1 (proj2 (parsed_tree_respects_precedence 12 _ s')) p e E C).
  - assert (E : exists p e s',
               ParseDefinition 12 (primed 12 "def f(x y) x*y+x<y")
               = Ret (PyObj (MkFunctionAST p (PyObj e))) s' /\ complete e = true)
      by (eexists _, _, _; split; vm_compute; reflexivity).
    assert (HT : BinopPrecedence (primed 12 "def f(x y) x*y+x<y") = builtin_table)
      by (vm_compute; reflexivity).
    destruct E as (p & e & s' & E & C). exists p, e, s'. split; [exact E|].
    rewrite <- HT.
    exact (proj2 (proj2 (parsed_tree_respects_precedence 12 _ s')) p e E C).
Defined.

(** * Further properties of the driver *)

(** ** The loop ends at the end of the input *)

Lemma wp_conj {A} (m : M A) (Q1 Q2 : A -> state -> Prop) s :
  wp m Q1 s -> wp m Q2 s -> wp m (fun a s' => Q1 a s' /\ Q2 a s') s.
Proof. intros H1 H2 a s' E. split; [apply H1|apply H2]; exact E. Qed.

Lemma gettok_eof_seen n s : eof_seen s -> wp (gettok n) (fun _ s' => eof_seen s') s.
Proof.
  apply (gettok_invariant eof_seen); auto.
  intros x next rest _ Hg. unfold eof_seen.
  destruct (getchar_cases x next rest Hg) as [(Hin & -> & ->)|(c & r & _ & -> & ->)];
    cbn [LastChar stdin set_LastChar set_stdin]; [auto|discriminate].
Qed.

Lemma getNextToken_at_end n s :
  at_end s -> wp (getNextToken n) (fun _ s' => at_end s') s.
Proof.
  intros [Hs _]. unfold getNextToken. wp_step.
  eapply wp_mono; [apply (wp_conj _ _ _ _ (gettok_eof_seen n s Hs) (gettok_eof_LastChar n s))|].
  cbv beta. intros t s1 [H1 Ht]. wp_steps. split; [exact H1|exact Ht].
Qed.

Lemma at_end_stderr x s : at_end s -> at_end (set_stderr x s).
Proof. intros H. exact H. Qed.

Lemma ParseExtern_inv (Inv : state -> Prop) fuel s :
  (forall n s, Inv s -> wp (getNextToken n) (fun _ s' => Inv s') s) ->
  (forall x s, Inv s -> Inv (set_stderr x s)) ->
  Inv s -> wp (ParseExtern fuel) (fun _ s' => Inv s') s.
Proof.
  intros Htok Herr Hs. unfold ParseExtern. wp_step.
  wp_call Htok. intros t s1 H1. apply (ParsePrototype_inv Inv Htok Herr), H1.
Qed.

(** The driver under an invariant of the state that reading a token and
    writing a message keep: the loop keeps it, and leaves on [tok_eof]. *)
Lemma MainLoop_inv (Inv : state -> Prop) fuel s :
  (forall n s, Inv s -> wp (getNextToken n) (fun _ s' => Inv s') s) ->
  (forall x s, Inv s -> Inv (set_stderr x s)) ->
  Inv s ->
  wp (MainLoop fuel) (fun _ s' => Inv s' /\ CurTok s' = tok_eof) s.
Proof.
  intros Htok Herr Hs. unfold MainLoop.
  apply (wp_loop _ (fun _ s => Inv s) (fun _ s => Inv s /\ CurTok s = tok_eof));
    [|auto|exact Hs].
  clear s Hs. intros _ s Hs. wp_steps.
  - split; [apply Herr, Hs|]. apply tok_eqb_eq. assumption.
  - wp_call Htok. intros t s1 H1. wp_steps. exact H1.
  - unfold HandleDefinition. wp_step.
    eapply wp_mono.
    { apply (ParseDefinition_ops Inv (fun _ => true) Htok Herr (fun _ _ _ => eq_refl)).
      apply Herr, Hs. }
    cbv beta. intros r s1 [H1 _]. wp_steps; auto.
    wp_call Htok. intros t s2 H2. wp_steps. exact H2.
  - unfold HandleExtern. wp_step.
    eapply wp_mono; [apply (ParseExtern_inv Inv); auto|].
    cbv beta. intros r s1 H1. wp_steps; auto.
    wp_call Htok. intros t s2 H2. wp_steps. exact H2.
  - unfold HandleTopLevelExpression. wp_step.
    eapply wp_mono.
    { apply (ParseTopLevelExpr_ops Inv (fun _ => true) Htok Herr (fun _ _ _ => eq_refl)).
      apply Herr, Hs. }
    cbv beta. intros r s1 [H1 _]. wp_steps; auto.
    wp_call Htok. intros t s2 H2. wp_steps. exact H2.
Qed.

(** X15: [main] returns only at the end of the input.  Started in a state
    where an empty [LastChar] means that [stdin] is used up (as in the
    initial state, where [LastChar] is a blank), [main] returns only with
    [tok_eof] as current token, an empty [LastChar] and nothing left in
    [stdin]: no part of the input is left unread. *)
Theorem main_returns_at_end_of_input (fuel : nat) (s s' : state) :
  eof_seen s ->
  main fuel s = Ret tt s' ->
  CurTok s' = tok_eof /\ LastChar s' = "" /\ stdin s' = "".
Proof.
  intros Hs E.
  assert (Hw : wp (main fuel) (fun _ s' => at_end s' /\ CurTok s' = tok_eof) s).
  { unfold main, main_prime, install_operators. wp_steps.
    unfold getNextToken. wp_step.
    eapply wp_mono;
      [apply wp_conj; [apply gettok_eof_seen; exact Hs|apply gettok_eof_LastChar]|].
    cbv beta. intros t s1 [H1 Ht]. wp_steps.
    apply (MainLoop_inv at_end fuel _ getNextToken_at_end at_end_stderr).
    split; [exact H1|exact Ht]. }
  destruct (Hw tt s' E) as [[Heof Hlast] Htok].
  split; [exact Htok|]. split; [auto|auto].
Qed.

Lemma main_returns_at_end_of_input_witness :
  exists s', main 30 (initial "def f(x y) x+y*2; f(1, 2) < 3 ; extern g(a) 4 +")
             = Ret tt s' /\
             CurTok s' = tok_eof /\ LastChar s' = "" /\ stdin s' = "".
Proof.
  assert (E : exists s',
             main 30 (initial "def f(x y) x+y*2; f(1, 2) < 3 ; extern g(a) 4 +") = Ret tt s')
    by (eexists; vm_compute; reflexivity).
  destruct E as (s' & E). exists s'. split; [exact E|].
  refine (main_returns_at_end_of_input 30 _ s' _ E).
  unfold eof_seen. cbn. discriminate.
Defined.

(** * Termination *)

Lemma halts_ret {A} (a : A) (Q : A -> state -> Prop) s :
  Q a s -> halts (fun _ => ret a) Q s.
Proof. intros H. exists 0%nat, (Ret a s). split; [reflexivity|exact H]. Qed.

Lemma halts_raise {A} e (Q : A -> state -> Prop) s : halts (fun _ => raise e) Q s.
Proof. exists 0%nat, (Raise e s). split; [reflexivity|exact I]. Qed.

Lemma halts_weaken {A} (f : nat -> M A) (Q Q' : A -> state -> Prop) s :
  halts f Q s -> (forall a s', Q a s' -> Q' a s') -> halts f Q' s.
Proof.
  intros (N & o & Hf & Ho) HQ. exists N, o. split; [exact Hf|].
  destruct o; auto.
Qed.

Lemma halts_wp {A} (f : nat -> M A) (Q Q' : A -> state -> Prop) s :
  halts f Q s -> (forall n, wp (f n) Q' s) ->
  halts f (fun a s' => Q a s' /\ Q' a s') s.
Proof.
  intros (N & o & Hf & Ho) Hw. exists N, o. split; [exact Hf|].
  destruct o as [a s'| |]; auto. split; [exact Ho|].
  apply (Hw N a s'). apply Hf. lia.
Qed.

Lemma halts_S {A} (f : nat -> M A) (Q : A -> state -> Prop) s :
  halts (fun n => f (S n)) Q s -> halts f Q s.
Proof.
  intros (N & o & Hf & Ho). exists (S N), o. split; [|exact Ho].
  intros [|n] Hn; [lia|]. apply Hf. lia.
Qed.

Lemma halts_bind {A B} (g : nat -> M A) (h : nat -> A -> M B)
    (Q1 : A -> state -> Prop) (Q2 : B -> state -> Prop) s :
  halts g Q1 s ->
  (forall a s1, Q1 a s1 -> halts (fun n => h n a) Q2 s1) ->
  halts (fun n => bind (g n) (h n)) Q2 s.
Proof.
  intros (N1 & o1 & Hg & Ho1) Hh.
  destruct o1 as [a s1|e s1|]; [| |contradiction].
  - destruct (Hh a s1 Ho1) as (N2 & o2 & Hh2 & Ho2).
    exists (Nat.max N1 N2), o2. split; [|exact Ho2].
    intros n Hn. unfold bind. rewrite (Hg n) by lia. apply Hh2. lia.
  - exists N1, (Raise e s1). split; [|exact I].
    intros n Hn. unfold bind. rewrite (Hg n) by lia. reflexivity.
Qed.

Lemma halts_get {A} (h : nat -> state -> M A) (Q : A -> state -> Prop) s :
  halts (fun n => h n s) Q s -> halts (fun n => bind get (h n)) Q s.
Proof. intros H. exact H. Qed.

Lemma halts_modify {A} f (h : nat -> unit -> M A) (Q : A -> state -> Prop) s :
  halts (fun n => h n tt) Q (f s) -> halts (fun n => bind (modify f) (h n)) Q s.
Proof. intros H. exact H. Qed.

Lemma halts_GetTokPrecedence {A} (h : nat -> Z -> M A) (Q : A -> state -> Prop) s :
  halts (fun n => h n (precedence (BinopPrecedence s) (CurTok s))) Q s ->
  halts (fun n => bind GetTokPrecedence (h n)) Q s.
Proof.
  intros (N & o & Hf & Ho). exists N, o. split; [|exact Ho].
  intros n Hn. unfold bind. rewrite GetTokPrecedence_precedence. apply Hf, Hn.
Qed.

(** A loop whose every round lowers the measure [mu] comes to an end. *)
Lemma halts_loop {L R} (body : nat -> L -> M (flow L R)) (mu : L -> state -> nat)
    (Inv : L -> state -> Prop) (J : R -> state -> Prop) :
  (forall l s, Inv l s ->
     halts (fun n => body n l)
           (fun r s' => match r with
                        | Continue l' => Inv l' s' /\ (mu l' s' < mu l s)%nat
                        | Done r => J r s'
                        end) s) ->
  forall l s, Inv l s -> halts (fun n => loop n (body n) l) J s.
Proof.
  intros Hbody l s Hl.
  assert (H : exists N o,
             (forall n m, (N <= n)%nat -> (N <= m)%nat -> loop n (body m) l s = o) /\
             match o with
             | Ret a s' => J a s'
             | Raise _ _ => True
             | OutOfFuel => False
             end).
  { remember (mu l s) as k eqn:Hk. revert l s Hl Hk.
    induction k as [k IH] using lt_wf_ind. intros l s Hl Hk.
    destruct (Hbody l s Hl) as (N1 & o1 & Hb & Ho1).
    destruct o1 as [[l'|r] s1|e s1|]; [| | |contradiction].
    - destruct Ho1 as [Hl' Hlt].
      destruct (IH (mu l' s1) ltac:(lia) l' s1 Hl' eq_refl) as (N2 & o2 & Hloop & Ho2).
      exists (S (Nat.max N1 N2)), o2. split; [|exact Ho2].
      intros [|n] m Hn Hm; [lia|]. cbn [loop]. unfold bind.
      rewrite (Hb m) by lia. apply Hloop; lia.
    - exists (S N1), (Ret r s1). split; [|exact Ho1].
      intros [|n] m Hn Hm; [lia|]. cbn [loop]. unfold bind.
      rewrite (Hb m) by lia. reflexivity.
    - exists (S N1), (Raise e s1). split; [|exact I].
      intros [|n] m Hn Hm; [lia|]. cbn [loop]. unfold bind.
      rewrite (Hb m) by lia. reflexivity. }
  destruct H as (N & o & Hloop & Ho). exists N, o. split; [|exact Ho].
  intros n Hn. apply Hloop; exact Hn.
Qed.

(** A call that came back once comes back the same on more fuel. *)
Lemma halts_run {A} (f : nat -> M A) (Q : A -> state -> Prop) s N :
  (forall n n', (n <= n')%nat -> refines (f n) (f n')) ->
  match f N s with
  | Ret a s' => Q a s'
  | Raise _ _ => True
  | OutOfFuel => False
  end ->
  halts f Q s.
Proof.
  intros Hmono H. exists N, (f N s). split; [|exact H].
  intros n Hn. destruct (Hmono N n Hn s) as [E|E]; [|symmetry; exact E].
  rewrite E in H. contradiction.
Qed.

Lemma comments_closed_suffix a b :
  comments_closed (a +:+ b) = true -> comments_closed b = true.
Proof.
  induction a as [|c a IH]; [auto|].
  change (String c a +:+ b) with (String c (a +:+ b)). cbn [comments_closed].
  intros H. apply andb_true_iff in H as [_ H]. apply IH, H.
Qed.

Lemma comments_closed_head x :
  comments_closed x = true ->
  head_closed false x = true /\ (has_line_end x = true -> head_closed true x = true).
Proof.
  induction x as [|c x IH]; cbn [comments_closed head_closed has_line_end].
  - intros _. split; [reflexivity|discriminate].
  - intros H. apply andb_true_iff in H as [Hc H]. destruct (IH H) as [IH0 IH1].
    split.
    + destruct (is_space c); [exact IH0|].
      destruct (Ascii.eqb c "#"); [apply IH1, Hc|reflexivity].
    + destruct (is_line_end c); cbn [negb orb]; auto.
Qed.

Lemma used_start s : used s s false.
Proof. exists "". split; [reflexivity|discriminate]. Qed.

Lemma used_weaken s x b : used s x true -> used s x b.
Proof. intros (u & Hu & Hne). exists u. split; [exact Hu|auto]. Qed.

Lemma append_nonempty_r (a b : string) : b <> "" -> a +:+ b <> "".
Proof. destruct a; [auto|discriminate]. Qed.

Lemma append_nonempty_l (a b : string) : a <> "" -> a +:+ b <> "".
Proof. destruct a; [congruence|discriminate]. Qed.

Lemma used_read s x b next rest :
  used s x b -> getchar x = Ret next rest ->
  used s (set_LastChar next rest) b /\
  (LastChar x <> "" -> used s (set_LastChar next rest) true).
Proof.
  intros (u & Hu & Hne) Hg.
  assert (E : pending s = (u +:+ LastChar x) +:+ pending (set_LastChar next rest)).
  { rewrite Hu, (pending_read x next rest Hg). symmetry. apply append_assoc. }
  split.
  - exists (u +:+ LastChar x). split; [exact E|].
    intros Hb. apply append_nonempty_l, Hne, Hb.
  - intros HL. exists (u +:+ LastChar x). split; [exact E|].
    intros _. apply append_nonempty_r, HL.
Qed.

Lemma re_match_nonempty cls x : re_match cls x = true -> x <> "".
Proof. destruct x; [discriminate|discriminate]. Qed.

Lemma eqb_nonempty (x y : string) : (x =? y) = true -> y <> "" -> x <> "".
Proof. intros H. apply String.eqb_eq in H. congruence. Qed.

Lemma eqb_empty_false (x : string) : (x =? "") = false -> x <> "".
Proof. intros H. apply String.eqb_neq in H. exact H. Qed.

Lemma numchar_nonempty (x : string) :
  re_match is_digit x || (x =? ".") = true -> x <> "".
Proof. destruct x; [discriminate|discriminate]. Qed.

Ltac nonempty :=
  match goal with
  | H : re_match _ ?x = true |- ?x <> "" => exact (re_match_nonempty _ _ H)
  | H : (?x =? "#") = true |- ?x <> "" => apply (eqb_nonempty _ _ H); discriminate
  | H : (?x =? "") = false |- ?x <> "" => exact (eqb_empty_false _ H)
  | H : re_match is_digit ?x || (?x =? ".") = true |- ?x <> "" =>
      exact (numchar_nonempty _ H)
  end.

Lemma gettok_consumes n :
  forall s x b, used s x b ->
    wp (gettok n) (fun t s' => used s s' (b || negb (tok_eqb t tok_eof))) x.
Proof.
  induction n as [|n IH]; intros s x b Hx; cbn [gettok].
  - apply wp_out_of_fuel.
  - unfold gettok_.
    wp_step.
    apply (wp_loop _ (fun _ y => used s y b) (fun _ y => used s y b)); [| |exact Hx].
    { intros _ y Hy. rd_steps; [|exact Hy].
      apply (proj1 (used_read s y b _ _ Hy ltac:(eassumption))). }
    intros _ s1 H1. rd_steps.
    + (* identifier *)
      apply (wp_loop _ (fun _ y => used s y true) (fun _ y => used s y true)).
      * intros _ y Hy. rd_steps; [|exact Hy].
        match goal with
        | Hg : getchar ?z = Ret _ _ |- used _ (set_LastChar _ _) _ =>
            exact (proj1 (used_read s z true _ _ Hy Hg))
        end.
      * intros _ y Hy. rd_steps; apply used_weaken, Hy.
      * match goal with
        | Hg : getchar ?z = Ret _ _ |- _ => apply (proj2 (used_read s z b _ _ H1 Hg))
        end.
        cbn [LastChar set_IdentifierStr]. nonempty.
    + (* number *)
      apply (wp_loop _ (fun _ y => used s y b /\ LastChar y <> "")
               (fun _ y => used s y true)).
      * intros l y [Hy Hne]. rd_steps.
        -- match goal with
           | Hg : getchar ?z = Ret _ _ |- _ =>
               exact (proj2 (used_read s z b _ _ Hy Hg) Hne)
           end.
        -- split.
           ++ match goal with
              | Hg : getchar ?z = Ret _ _ |- _ =>
                  exact (proj1 (used_read s z b _ _ Hy Hg))
              end.
           ++ cbn [LastChar set_LastChar]. apply numchar_nonempty.
              apply negb_false_iff. assumption.
      * intros l y Hy. rd_steps; apply used_weaken, Hy.
      * split; [exact H1|nonempty].
    + (* comment *)
      apply (wp_loop _ (fun _ y => used s y true \/ (used s y b /\ LastChar y <> ""))
               (fun _ y => used s y true)).
      * intros _ y Hy.
        assert (Hnext : forall next rest, getchar y = Ret next rest ->
                                          used s (set_LastChar next rest) true).
        { intros next rest Hg. destruct Hy as [Hy|[Hy Hne]].
          - exact (proj1 (used_read s y true _ _ Hy Hg)).
          - exact (proj2 (used_read s y b _ _ Hy Hg) Hne). }
        rd_steps; [|left]; apply Hnext; assumption.
      * intros _ y Hy. rd_steps.
        -- wp_call (IH s y true). intros t s3 H3. wp_steps.
           apply used_weaken. exact H3.
        -- apply used_weaken, Hy.
        -- match goal with
           | Hg : getchar ?z = Ret _ _ |- _ =>
               exact (used_weaken _ _ _ (proj1 (used_read s z true _ _ Hy Hg)))
           end.
      * right. split; [exact H1|nonempty].
    + rewrite orb_false_r. exact H1.
    + apply used_weaken.
      match goal with
      | Hg : getchar ?z = Ret _ _ |- _ => apply (proj2 (used_read s z b _ _ H1 Hg))
      end.
      nonempty.
Qed.

Lemma used_unread s s' b :
  used s s' b ->
  (unread s' <= unread s)%nat /\ (b = true -> (unread s' < unread s)%nat).
Proof.
  intros (u & Hu & Hne). unfold unread. rewrite Hu, length_append.
  split; [lia|]. intros Hb. specialize (Hne Hb).
  destruct u; [congruence|cbn [String.length]; lia].
Qed.

Lemma used_closed s s' b :
  used s s' b -> comments_closed (pending s) = true ->
  comments_closed (pending s') = true.
Proof. intros (u & Hu & _) H. rewrite Hu in H. exact (comments_closed_suffix _ _ H). Qed.

Lemma gettok_CurTok n s : wp (gettok n) (fun _ s' => CurTok s' = CurTok s) s.
Proof.
  apply (gettok_invariant (fun x => CurTok x = CurTok s)); auto.
  intros x next rest Hx Hg.
  destruct (getchar_cases x next rest Hg) as [(_ & _ & ->)|(c & r & _ & _ & ->)];
    exact Hx.
Qed.

Lemma gettok_halts s : tame s -> halts gettok (lexer_step s) s.
Proof.
  intros [H1 Hc].
  destruct (gettok_delivers s H1 (proj1 (comments_closed_head _ Hc))) as (N & HN).
  apply (halts_run gettok _ s N); [intros n n' Hle; apply gettok_mono, Hle|].
  destruct (gettok N s) as [t s'|e s'|] eqn:E; [|exact I|exact HN].
  pose proof (gettok_consumes N s s false (used_start s) t s' E) as Hu.
  destruct (used_unread _ _ _ Hu) as [Hle Hlt].
  split; [split|split; [|split]].
  - exact (proj1 (gettok_token_shape N s H1 t s' E)).
  - exact (used_closed _ _ _ Hu Hc).
  - exact (gettok_CurTok N s t s' E).
  - exact Hle.
  - intros Ht. apply Hlt. rewrite Ht. reflexivity.
Qed.

(** X7: an input of nothing but white space and comments, each closed by a
    line end, holds no token.  On such an input the first call of [gettok]
    comes to an end, and when it returns, it returns the end-of-input token
    with nothing left unread. *)
Theorem blank_input_is_end_of_input (input : string) :
  blank false input = true ->
  halts gettok (fun t s' => t = tok_eof /\ pending s' = "") (initial input).
Proof.
  intros Hb.
  destruct (gettok_blank (String.length input) (initial input) " "
              (Nat.le_refl _) eq_refl Hb)
    as (fuel & s' & E & Hs & HL).
  apply (halts_run gettok _ _ fuel); [intros n n' Hle; apply gettok_mono, Hle|].
  rewrite E. split; [reflexivity|]. unfold pending. rewrite HL, Hs. reflexivity.
Qed.

Lemma blank_input_is_end_of_input_witness :
  halts gettok (fun t s' => t = tok_eof /\ pending s' = "")
        (initial ("  # a comment" +:+ nl +:+ " ")).
Proof.
  apply blank_input_is_end_of_input. vm_compute. reflexivity.
Defined.

(** X8: the lexer comes to an end when the comments in front of the next
    token are closed.  From a state with at most one character in
    [LastChar], and with every comment before the next token closed by a
    line end, [gettok] on enough fuel returns or raises, with one and the
    same outcome on every larger amount; what it returns is a token of the
    lexer. *)
Theorem gettok_comes_back (s : state) :
  one_char (LastChar s) = true ->
  head_closed false (pending s) = true ->
  halts gettok (fun t _ => token_shape t = true) s.
Proof.
  intros H1 Hc. destruct (gettok_delivers s H1 Hc) as (N & HN).
  apply (halts_run gettok _ s N); [intros n n' Hle; apply gettok_mono, Hle|].
  destruct (gettok N s) as [t s'|e s'|]; [exact HN|exact I|exact HN].
Qed.

Lemma gettok_comes_back_witness :
  halts gettok (fun t _ => token_shape t = true)
        (initial ("# c" +:+ nl +:+ "x1 = 1.2.3 # open")).
Proof.
  apply gettok_comes_back; vm_compute; reflexivity.
Defined.

Lemma getNextToken_halts s : tame s -> halts getNextToken (token_step s) s.
Proof.
  intros Hs. unfold getNextToken.
  apply (halts_bind _ _ (lexer_step s)); [apply gettok_halts, Hs|].
  intros t s1 (Ht & Hc & Hle & Hlt).
  apply halts_modify. apply halts_ret.
  unfold token_step, advance, work_left, unread in *.
  cbn [CurTok LastChar stdin set_CurTok pending] in *.
  change (pending (set_CurTok t s1)) with (pending s1).
  split; [reflexivity|]. split; [split; [exact Ht|]|].
  - split; [exact Hle|].
    destruct (tok_eqb t tok_eof) eqn:Et; [lia|]. specialize (Hlt eq_refl).
    destruct (tok_eqb (CurTok s) tok_eof); lia.
  - intros Hs0. rewrite Hs0.
    destruct (tok_eqb t tok_eof) eqn:Et; [lia|]. specialize (Hlt eq_refl). lia.
Qed.

Lemma work_left_stderr x s : work_left (set_stderr x s) = work_left s.
Proof. reflexivity. Qed.

Lemma unread_stderr x s : unread (set_stderr x s) = unread s.
Proof. reflexivity. Qed.

Lemma tame_stderr x s : tame s -> tame (set_stderr x s).
Proof. intros H. exact H. Qed.

Lemma advance_refl s : tame s -> advance s s.
Proof. intros H. split; [exact H|]. split; lia. Qed.

Lemma advance_trans s s1 s2 : advance s s1 -> advance s1 s2 -> advance s s2.
Proof.
  intros (_ & H1 & H2) (Ht & H3 & H4). split; [exact Ht|]. split; lia.
Qed.

Lemma halts_unbound {A B} name (h : nat -> A -> M B) (Q : B -> state -> Prop) s :
  halts (fun n => bind (unbound_name name) (h n)) Q s.
Proof.
  apply (halts_bind _ _ (fun _ _ => False)); [apply halts_raise|].
  intros a s1 [].
Qed.

Lemma halts_assoc {A B C} (g : nat -> M A) (f : nat -> A -> M B) (h : nat -> B -> M C)
    (Q : C -> state -> Prop) s :
  halts (fun n => bind (g n) (fun a => bind (f n a) (h n))) Q s ->
  halts (fun n => bind (bind (g n) (f n)) (h n)) Q s.
Proof.
  intros (N & o & Hf & Ho). exists N, o. split; [|exact Ho].
  intros n Hn. rewrite bind_assoc. apply Hf, Hn.
Qed.

Lemma halts_ret_bind {A B} (a : A) (h : nat -> A -> M B) (Q : B -> state -> Prop) s :
  halts (fun n => h n a) Q s -> halts (fun n => bind (ret a) (h n)) Q s.
Proof. intros H. exact H. Qed.

Lemma precedence_not_eof T t : 0 <= precedence T t -> tok_eqb t tok_eof = false.
Proof. destruct t as [z|c]; cbn; [lia|reflexivity]. Qed.

Ltac halts_step :=
  cbv beta iota;
  lazymatch goal with
  | |- halts (fun n => bind get (@?h n)) _ _ => apply halts_get
  | |- halts (fun n => bind (modify _) (@?h n)) _ _ => apply halts_modify
  | |- halts (fun n => bind GetTokPrecedence (@?h n)) _ _ =>
      apply halts_GetTokPrecedence
  | |- halts (fun n => bind (unbound_name _) (@?h n)) _ _ => apply halts_unbound
  | |- halts (fun n => bind (eprint _) (@?h n)) _ _ => unfold eprint
  | |- halts (fun n => bind (eprint_noend _) (@?h n)) _ _ => unfold eprint_noend
  | |- halts (fun n => ret _) _ _ => apply halts_ret
  | |- halts (fun n => raise _) _ _ => apply halts_raise
  | |- halts (fun n => error _) _ _ => unfold error
  | |- halts (fun n => errorP _) _ _ => unfold errorP
  | |- halts (fun n => bind (error _) (@?h n)) _ _ => unfold error
  | |- halts (fun n => bind (ret _) (@?h n)) _ _ => apply halts_ret_bind
  | |- halts (fun n => bind (bind (@?g n) (@?f n)) (@?h n)) _ _ => apply halts_assoc
  | |- halts (fun n => bind (if ?b then @?x n else @?y n) (@?h n)) _ _ =>
      destruct b eqn:?
  | |- halts (fun n => bind (match ?x with _ => _ end) (@?h n)) _ _ =>
      destruct x eqn:?
  | |- halts (fun n => if ?b then @?x n else @?y n) _ _ => destruct b eqn:?
  | |- halts (fun n => match ?x with _ => _ end) _ _ => destruct x eqn:?
  end.

Ltac halts_steps := repeat halts_step.

(** Reading a token in the middle of a function. *)
Ltac halts_token s :=
  cbv beta;
  apply (halts_bind _ _ (token_step s)); [apply getNextToken_halts|].

Ltac adv_hyps :=
  repeat match goal with
         | H : _ /\ _ |- _ => destruct H
         | H : negb _ = false |- _ => apply negb_false_iff in H
         | H : negb _ = true |- _ => apply negb_true_iff in H
         | H : ?P -> _, HP : ?P |- _ => specialize (H HP)
         end.

Ltac adv_goal :=
  first
    [ assumption
    | lia
    | discriminate
    | match goal with
      | |- _ /\ _ => split; adv_goal
      | |- _ -> _ => intros; adv_hyps; adv_goal
      end ].

Ltac adv :=
  repeat match goal with
         | H : parsed _ _ _ |- _ => unfold parsed in H
         | H : used_up _ _ _ |- _ => unfold used_up in H
         | H : token_step _ _ _ |- _ => unfold token_step in H
         | H : advance _ _ |- _ => unfold advance in H
         | H : _ /\ _ |- _ => destruct H
         end;
  unfold parsed, used_up, token_step, advance;
  adv_hyps;
  rewrite ?work_left_stderr, ?unread_stderr;
  adv_goal.

Section Halting.

Variable k : nat.
Variables PE PP : nat -> M (pyval ExprAST).
Variable PB : nat -> Z -> pyval ExprAST -> M (pyval ExprAST).

Hypothesis PE_lt : forall s,
  tame s -> (work_left s < k)%nat -> halts PE (parsed s) s.
Hypothesis PP_lt : forall s,
  tame s -> (work_left s < k)%nat -> halts PP (parsed s) s.
Hypothesis PB_lt : forall E L s,
  0 <= E -> tame s -> (work_left s < k)%nat ->
  halts (fun n => PB n E L) (fun _ s' => advance s s') s.

Lemma ParseNumberExpr_halts s :
  tame s -> tok_eqb (CurTok s) tok_eof = false ->
  halts ParseNumberExpr (used_up s) s.
Proof.
  intros Hs Hc. unfold ParseNumberExpr. halts_step.
  halts_token s; [exact Hs|]. intros t s1 H1. halts_steps.
  adv.
Qed.

Lemma ParseParenExpr__halts s :
  tame s -> (work_left s <= k)%nat -> tok_eqb (CurTok s) tok_eof = false ->
  halts (fun n => ParseParenExpr_ n (PE n)) (used_up s) s.
Proof.
  intros Hs Hk Hc. unfold ParseParenExpr_.
  halts_token s; [exact Hs|]. intros t s1 H1.
  apply (halts_bind _ _ (parsed s1)).
  { apply PE_lt; adv. }
  intros v s2 H2. halts_steps.
Qed.

Lemma ParsePrimary__halts (PI PR : nat -> M (pyval ExprAST)) s :
  (forall s, tame s -> (work_left s <= k)%nat -> tok_eqb (CurTok s) tok_eof = false ->
             halts PI (used_up s) s) ->
  (forall s, tame s -> (work_left s <= k)%nat -> tok_eqb (CurTok s) tok_eof = false ->
             halts PR (used_up s) s) ->
  tame s -> (work_left s <= k)%nat ->
  halts (fun n => ParsePrimary_ n (PI n) (PR n)) (parsed s) s.
Proof.
  intros HPI HPR Hs Hk. unfold ParsePrimary_. halts_steps.
  - apply (halts_weaken _ (used_up s)); [|intros; adv].
    apply HPI; auto. rewrite (tok_eqb_eq _ _ Heqb). reflexivity.
  - apply (halts_weaken _ (used_up s)); [|intros; adv].
    apply ParseNumberExpr_halts; auto. rewrite (tok_eqb_eq _ _ Heqb0). reflexivity.
  - apply (halts_weaken _ (used_up s)); [|intros; adv].
    apply HPR; auto. rewrite (tok_eqb_eq _ _ Heqb1). reflexivity.
  - cbn [truthy]. adv.
Qed.

Lemma ParseBinOpRHS__halts E L s :
  0 <= E -> tame s -> (work_left s <= k)%nat ->
  halts (fun n => ParseBinOpRHS_ n (PP n) (PB n) E L) (fun _ s' => advance s s') s.
Proof.
  intros HE Hs Hk. unfold ParseBinOpRHS_.
  apply (halts_loop _ (fun _ x => work_left x) (fun _ x => advance s x)
           (fun _ x => advance s x)); [|apply advance_refl, Hs].
  intros LHS x Hx. halts_steps; [exact Hx|].
  assert (Hop : tok_eqb (CurTok x) tok_eof = false).
  { apply (precedence_not_eof (BinopPrecedence x)). apply Z.ltb_ge in Heqb. lia. }
  halts_token x; [apply Hx|]. intros t s1 H1.
  apply (halts_bind _ _ (parsed s1)); [apply PP_lt; adv|].
  intros RHS s2 H2. halts_steps.
  - adv.
  - apply (halts_bind _ _ (fun _ s' => advance s2 s')).
    { apply PB_lt; [apply Z.ltb_ge in Heqb; lia|adv|adv]. }
    intros RHS' s3 H3. halts_steps; adv.
  - adv.
Qed.

Lemma ParseIdentifierExpr__halts s :
  tame s -> (work_left s <= k)%nat -> tok_eqb (CurTok s) tok_eof = false ->
  halts (fun n => ParseIdentifierExpr_ n (PE n)) (used_up s) s.
Proof.
  intros Hs Hk Hc. unfold ParseIdentifierExpr_. halts_step.
  halts_token s; [exact Hs|]. intros t s1 H1. halts_steps.
  { adv. }
  halts_token s1; [apply H1|]. intros t2 s2 H2. halts_steps.
  - apply (halts_bind _ _ (fun _ x => advance s2 x)).
    + apply (halts_loop _ (fun _ x => work_left x) (fun _ x => advance s2 x)
               (fun _ x => advance s2 x)); [|apply advance_refl, H2].
      intros args x Hx.
      apply (halts_bind _ _ (parsed x)); [apply PE_lt; adv|].
      intros arg s4 H4. halts_steps; try adv.
      halts_token s4; [apply H4|]. intros t5 s5 H5. halts_steps. adv.
    + intros r s3 H3. halts_steps; [|adv].
      halts_token s3; [apply H3|]. intros t4 s4 H4. halts_steps. adv.
  - halts_token s2; [apply H2|]. intros t3 s3 H3. halts_steps. adv.
Qed.

Lemma ParseExpression__halts (PP' : nat -> M (pyval ExprAST))
    (PB' : nat -> Z -> pyval ExprAST -> M (pyval ExprAST)) s :
  (forall s, tame s -> (work_left s <= k)%nat -> halts PP' (parsed s) s) ->
  (forall E L s, 0 <= E -> tame s -> (work_left s <= k)%nat ->
                 halts (fun n => PB' n E L) (fun _ s' => advance s s') s) ->
  tame s -> (work_left s <= k)%nat ->
  halts (fun n => ParseExpression_ (PP' n) (PB' n)) (parsed s) s.
Proof.
  intros HPP HPB Hs Hk. unfold ParseExpression_.
  apply (halts_bind _ _ (parsed s)); [apply HPP; assumption|].
  intros LHS s1 H1. halts_steps.
  - cbn [truthy]. adv.
  - apply (halts_weaken _ (fun _ s' => advance s1 s')); [|intros; adv].
    apply HPB; [lia|adv|adv].
Qed.

End Halting.

(** The five mutually recursive functions come back from every tame state. *)
Lemma parser_halts k :
  (forall s, tame s -> (work_left s <= k)%nat -> halts ParseExpression (parsed s) s) /\
  (forall s, tame s -> (work_left s <= k)%nat -> halts ParsePrimary (parsed s) s) /\
  (forall s, tame s -> (work_left s <= k)%nat -> tok_eqb (CurTok s) tok_eof = false ->
             halts ParseIdentifierExpr (used_up s) s) /\
  (forall s, tame s -> (work_left s <= k)%nat -> tok_eqb (CurTok s) tok_eof = false ->
             halts ParseParenExpr (used_up s) s) /\
  (forall E L s, 0 <= E -> tame s -> (work_left s <= k)%nat ->
                 halts (fun n => ParseBinOpRHS n E L) (fun _ s' => advance s s') s).
Proof.
  induction k as [k IH] using lt_wf_ind.
  assert (PE_lt : forall s, tame s -> (work_left s < k)%nat ->
                            halts ParseExpression (parsed s) s).
  { intros s Hs Hlt. apply (proj1 (IH (work_left s) Hlt)); auto. }
  assert (PP_lt : forall s, tame s -> (work_left s < k)%nat ->
                            halts ParsePrimary (parsed s) s).
  { intros s Hs Hlt. apply (proj1 (proj2 (IH (work_left s) Hlt))); auto. }
  assert (PB_lt : forall E L s, 0 <= E -> tame s -> (work_left s < k)%nat ->
                    halts (fun n => ParseBinOpRHS n E L) (fun _ s' => advance s s') s).
  { intros E L s HE Hs Hlt.
    apply (proj2 (proj2 (proj2 (proj2 (IH (work_left s) Hlt))))); auto. }
  assert (HPI : forall s, tame s -> (work_left s <= k)%nat ->
                  tok_eqb (CurTok s) tok_eof = false ->
                  halts ParseIdentifierExpr (used_up s) s).
  { intros s Hs Hk Hc. apply halts_S.
    change (halts (fun n => ParseIdentifierExpr_ n (ParseExpression n)) (used_up s) s).
    eapply (ParseIdentifierExpr__halts k); eassumption. }
  assert (HPR : forall s, tame s -> (work_left s <= k)%nat ->
                  tok_eqb (CurTok s) tok_eof = false ->
                  halts ParseParenExpr (used_up s) s).
  { intros s Hs Hk Hc. apply halts_S.
    change (halts (fun n => ParseParenExpr_ n (ParseExpression n)) (used_up s) s).
    eapply (ParseParenExpr__halts k); eassumption. }
  assert (HPP : forall s, tame s -> (work_left s <= k)%nat ->
                  halts ParsePrimary (parsed s) s).
  { intros s Hs Hk. apply halts_S.
    change (halts (fun n => ParsePrimary_ n (ParseIdentifierExpr n) (ParseParenExpr n))
              (parsed s) s).
    eapply (ParsePrimary__halts k); eassumption. }
  assert (HPB : forall E L s, 0 <= E -> tame s -> (work_left s <= k)%nat ->
                  halts (fun n => ParseBinOpRHS n E L) (fun _ s' => advance s s') s).
  { intros E L s HE Hs Hk. apply (halts_S (fun n => ParseBinOpRHS n E L)).
    change (halts (fun n => ParseBinOpRHS_ n (ParsePrimary n) (ParseBinOpRHS n) E L)
              (fun _ s' => advance s s') s).
    eapply (ParseBinOpRHS__halts k); eassumption. }
  split; [|split; [|split; [|split]]]; auto.
  intros s Hs Hk. apply halts_S.
  change (halts (fun n => ParseExpression_ (ParsePrimary n) (ParseBinOpRHS n))
            (parsed s) s).
  eapply (ParseExpression__halts k); eassumption.
Qed.

Lemma ParseExpression_halts s : tame s -> halts ParseExpression (parsed s) s.
Proof. intros Hs. apply (proj1 (parser_halts (work_left s))); auto. Qed.

Lemma ParsePrototype_halts s :
  tame s -> halts ParsePrototype (fun _ s' => advance s s') s.
Proof.
  intros Hs. unfold ParsePrototype. halts_steps.
  { adv. }
  halts_token s; [exact Hs|]. intros t s1 H1. halts_steps.
  { adv. }
  apply (halts_bind _ _ (fun _ x => advance s1 x)).
  - apply (halts_loop _ (fun _ x => work_left x)
             (fun _ x => advance s1 x /\ tok_eqb (CurTok x) tok_eof = false)
             (fun _ x => advance s1 x)).
    + intros args x [Hx Hc].
      halts_token x; [apply Hx|]. intros t2 s2 H2. halts_steps.
      * split; [split; [adv|]|adv].
        destruct H2 as [-> _]. rewrite (tok_eqb_eq _ _ Heqb1). reflexivity.
      * adv.
    + split; [apply advance_refl, H1|].
      apply negb_false_iff in Heqb0. rewrite (tok_eqb_eq _ _ Heqb0). reflexivity.
  - intros args s3 H3. halts_steps.
    + adv.
    + halts_token s3; [apply H3|]. intros t4 s4 H4. halts_steps. adv.
Qed.

Lemma ParseExtern_halts s :
  tame s -> tok_eqb (CurTok s) tok_eof = false ->
  halts ParseExtern (used_up s) s.
Proof.
  intros Hs Hc. unfold ParseExtern.
  halts_token s; [exact Hs|]. intros t s1 H1.
  apply (halts_weaken _ (fun _ s' => advance s1 s')); [|intros; adv].
  apply ParsePrototype_halts. apply H1.
Qed.

Lemma ParseDefinition_halts s :
  tame s -> tok_eqb (CurTok s) tok_eof = false ->
  halts ParseDefinition (used_up s) s.
Proof.
  intros Hs Hc. unfold ParseDefinition.
  halts_token s; [exact Hs|]. intros t s1 H1.
  apply (halts_bind _ _ (fun _ s' => advance s1 s')).
  { apply ParsePrototype_halts. apply H1. }
  intros Proto s2 H2. halts_steps.
  { adv. }
  apply (halts_bind _ _ (parsed s2)).
  { apply ParseExpression_halts. apply H2. }
  intros E s3 H3. halts_steps; adv.
Qed.

Lemma ParseTopLevelExpr_halts s :
  tame s -> halts ParseTopLevelExpr (parsed s) s.
Proof.
  intros Hs. unfold ParseTopLevelExpr.
  apply (halts_bind _ _ (parsed s)).
  { apply ParseExpression_halts. exact Hs. }
  intros E s1 H1. halts_steps; [|cbn [truthy]]; adv.
Qed.

(** After a parse that failed, skipping one token still leaves less to do
    than before the parse. *)
Lemma recovery_step s s1 s2 (t : token) :
  tok_eqb (CurTok s) tok_eof = false ->
  advance s s1 -> token_step s1 t s2 -> used_up s tt s2.
Proof.
  intros Hc (_ & Hu & Hw) (_ & (Ht & Hu2 & Hw2) & Hlt).
  split; [split; [exact Ht|split; lia]|].
  destruct (tok_eqb (CurTok s1) tok_eof) eqn:E1.
  - unfold work_left in *. rewrite E1 in *. rewrite Hc in *. lia.
  - specialize (Hlt eq_refl). lia.
Qed.

Lemma HandleDefinition_halts s :
  tame s -> tok_eqb (CurTok s) tok_eof = false ->
  halts HandleDefinition (used_up s) s.
Proof.
  intros Hs Hc. unfold HandleDefinition.
  apply (halts_bind _ _ (used_up s)); [apply ParseDefinition_halts; assumption|].
  intros r s1 H1. halts_steps.
  - unfold eprint. apply (halts_modify _ (fun _ _ => ret tt)). apply halts_ret. adv.
  - halts_token s1; [apply H1|]. intros t s2 H2. halts_steps.
    apply (recovery_step s s1 s2 t Hc); [apply H1|exact H2].
Qed.

Lemma HandleExtern_halts s :
  tame s -> tok_eqb (CurTok s) tok_eof = false ->
  halts HandleExtern (used_up s) s.
Proof.
  intros Hs Hc. unfold HandleExtern.
  apply (halts_bind _ _ (used_up s)); [apply ParseExtern_halts; assumption|].
  intros r s1 H1. halts_steps.
  - unfold eprint. apply (halts_modify _ (fun _ _ => ret tt)). apply halts_ret. adv.
  - halts_token s1; [apply H1|]. intros t s2 H2. halts_steps.
    apply (recovery_step s s1 s2 t Hc); [apply H1|exact H2].
Qed.

Lemma HandleTopLevelExpression_halts s :
  tame s -> tok_eqb (CurTok s) tok_eof = false ->
  halts HandleTopLevelExpression (used_up s) s.
Proof.
  intros Hs Hc. unfold HandleTopLevelExpression.
  apply (halts_bind _ _ (parsed s)); [apply ParseTopLevelExpr_halts; assumption|].
  intros r s1 H1. halts_steps.
  - unfold eprint. apply (halts_modify _ (fun _ _ => ret tt)). apply halts_ret. adv.
  - halts_token s1; [apply H1|]. intros t s2 H2. halts_steps.
    apply (recovery_step s s1 s2 t Hc); [apply H1|exact H2].
Qed.

Lemma MainLoop_halts s : tame s -> halts MainLoop (fun _ _ => True) s.
Proof.
  intros Hs. unfold MainLoop.
  apply (halts_loop _ (fun _ x => work_left x) (fun _ x => tame x) (fun _ _ => True));
    [|exact Hs].
  clear s Hs. intros _ s Hs. halts_steps.
  - exact I.
  - halts_token (set_stderr (stderr s ++ ["ready> "]) s); [exact Hs|].
    intros t s1 H1. halts_steps. cbn [CurTok set_stderr] in *. adv.
  - apply (halts_bind _ _ (used_up (set_stderr (stderr s ++ ["ready> "]) s))).
    { apply HandleDefinition_halts; [exact Hs|assumption]. }
    intros r s1 H1. halts_steps. adv.
  - apply (halts_bind _ _ (used_up (set_stderr (stderr s ++ ["ready> "]) s))).
    { apply HandleExtern_halts; [exact Hs|assumption]. }
    intros r s1 H1. halts_steps. adv.
  - apply (halts_bind _ _ (used_up (set_stderr (stderr s ++ ["ready> "]) s))).
    { apply HandleTopLevelExpression_halts; [exact Hs|assumption]. }
    intros r s1 H1. halts_steps. adv.
Qed.

Lemma main_halts s : tame s -> halts main (fun _ _ => True) s.
Proof.
  intros Hs. unfold main, main_prime, install_operators.
  halts_steps.
  match goal with
  | |- halts _ _ ?x => halts_token x; [exact Hs|]
  end.
  intros t s1 H1. halts_steps. apply MainLoop_halts. apply H1.
Qed.

(** X17: a token costs input.  Whenever [gettok] returns a token other than
    [tok_eof], fewer characters are left unread ([LastChar] followed by
    [stdin]) than before the call; when it returns [tok_eof], not more. *)
Theorem gettok_makes_progress (n : nat) (s : state) (t : token) (s' : state) :
  gettok n s = Ret t s' ->
  (unread s' <= unread s)%nat /\ (t <> tok_eof -> (unread s' < unread s)%nat).
Proof.
  intros E.
  pose proof (gettok_consumes n s s false (used_start s) t s' E) as Hu.
  destruct (used_unread _ _ _ Hu) as [Hle Hlt].
  split; [exact Hle|]. intros Ht. apply Hlt.
  destruct (tok_eqb t tok_eof) eqn:Et; [|reflexivity].
  destruct (Ht (tok_eqb_eq _ _ Et)).
Qed.

Lemma gettok_makes_progress_witness :
  exists s', gettok 5 (initial ("# c" +:+ nl +:+ " x1+2")) = Ret tok_identifier s' /\
             (unread s' < unread (initial ("# c" +:+ nl +:+ " x1+2")))%nat.
Proof.
  assert (E : exists s', gettok 5 (initial ("# c" +:+ nl +:+ " x1+2")) = Ret tok_identifier s')
    by (eexists; vm_compute; reflexivity).
  destruct E as (s' & E). exists s'. split; [exact E|].
  apply (proj2 (gettok_makes_progress 5 _ _ s' E)). discriminate.
Defined.



(** X19: [main] terminates.  On every input in which each '#' is followed,
    sooner or later, by a line feed or a carriage return, [main] started in
    the initial state comes to an end: from some amount of fuel on it has one
    and the same outcome, which is a return or an exception.  (A comment that
    the end of the input cuts off is the only way not to come back.) *)
Theorem main_terminates (input : string) :
  comments_closed input = true ->
  exists N o,
    o <> OutOfFuel /\ forall fuel, (N <= fuel)%nat -> main fuel (initial input) = o.
Proof.
  intros Hc.
  assert (Hs : tame (initial input)).
  { split; [reflexivity|]. exact Hc. }
  destruct (main_halts (initial input) Hs) as (N & o & Hf & Ho).
  exists N, o. split; [|exact Hf].
  destruct o; [discriminate|discriminate|contradiction].
Qed.

Lemma main_terminates_witness :
  exists N o,
    o <> OutOfFuel /\
    forall fuel, (N <= fuel)%nat ->
      main fuel (initial ("def f(x) x+1 # add" +:+ nl +:+
                          "f(2) * (3 - 1); extern g(a b) 4.5.6"))
      = o.
Proof.
  apply main_terminates. vm_compute. reflexivity.
Defined.

(** X20: the precedence table is set once.  When [main] returns, the table
    is the one it started with plus the four operators it installs ('<' at
    10, '+' and '-' at 20, '*' at 40): nothing in the input adds, removes or
    changes an operator. *)
Theorem main_table (fuel : nat) (s s' : state) :
  main fuel s = Ret tt s' ->
  BinopPrecedence s'
  = <["*" := 40]> (<["-" := 20]> (<["+" := 20]> (<["<" := 10]> (BinopPrecedence s)))).
Proof.
  intros E.
  set (T := <["*" := 40]> (<["-" := 20]> (<["+" := 20]> (<["<" := 10]> (BinopPrecedence s))))).
  assert (Hw : wp (main fuel) (fun _ s' => table_is T s') s).
  { unfold main, main_prime, install_operators. wp_steps.
    wp_call (getNextToken_table T); [reflexivity|]. intros t s1 H1. wp_steps.
    eapply wp_mono.
    - apply (MainLoop_inv (table_is T) fuel s1 (getNextToken_table T) (fun _ _ H => H) H1).
    - cbv beta. intros _ s2 [H2 _]. exact H2. }
  exact (Hw tt s' E).
Qed.

Lemma main_table_witness :
  exists s', main 30 (initial "def f(x y) x+y*2; f(1, 2) < 3 ; * 4") = Ret tt s' /\
             BinopPrecedence s' = builtin_table.
Proof.
  assert (E : exists s', main 30 (initial "def f(x y) x+y*2; f(1, 2) < 3 ; * 4") = Ret tt s')
    by (eexists; vm_compute; reflexivity).
  destruct E as (s' & E). exists s'. split; [exact E|].
  exact (main_table 30 _ s' E).
Defined.

Lemma written_prefix base s : written base 0 s <-> base `prefix_of` stderr s.
Proof. unfold written. split; [intros [H _]; exact H|intros H; split; [exact H|lia]]. Qed.

(** The handlers only add to what was written. *)
Lemma MainLoop_prompts base fuel s :
  written base 0 s ->
  wp (MainLoop fuel) (fun _ s' => exists rest, stderr s' = base ++ rest ++ ["ready> "]) s.
Proof.
  intros Hs. unfold MainLoop.
  apply (wp_loop _ (fun _ x => written base 0 x)
           (fun _ x => exists rest, stderr x = base ++ rest ++ ["ready> "]));
    [|auto|exact Hs].
  clear s Hs. intros _ s Hs.
  assert (Hp : written base 0 (set_stderr (stderr s ++ ["ready> "]) s)).
  { apply written_line, Hs. }
  wp_steps.
  - destruct Hs as [[rest Hr] _]. exists rest. cbn [stderr set_stderr].
    rewrite Hr, <- app_assoc. reflexivity.
  - wp_call (getNextToken_written base 0). intros t s1 H1. wp_steps. exact H1.
  - unfold HandleDefinition. wp_step.
    wp_call (ParseDefinition_reports base 0). intros r s1 [H1 _]. wp_steps.
    + apply written_line, H1.
    + wp_call (getNextToken_written base 0). intros t s2 H2. wp_steps. exact H2.
  - unfold HandleExtern. wp_step.
    wp_call (ParseExtern_reports base 0). intros r s1 [H1 _]. wp_steps.
    + apply written_line, H1.
    + wp_call (getNextToken_written base 0). intros t s2 H2. wp_steps. exact H2.
  - unfold HandleTopLevelExpression. wp_step.
    wp_call (ParseTopLevelExpr_reports base 0). intros r s1 [H1 _]. wp_steps.
    + apply written_line, H1.
    + wp_call (getNextToken_written base 0). intros t s2 H2. wp_steps. exact H2.
Qed.

(** X22: the prompt comes first and last, and twice at least.  When [main]
    returns, what it has added to [stderr] starts with the prompt "ready> "
    written before the first token is read and ends with the prompt written
    before the loop sees [tok_eof]; these are two different prompts, so that
    even an empty input is answered with "ready> ready> ". *)
Theorem main_prompts (fuel : nat) (s s' : state) :
  main fuel s = Ret tt s' ->
  exists rest, stderr s' = stderr s ++ ["ready> "] ++ rest ++ ["ready> "].
Proof.
  intros E.
  assert (Hw : wp (main fuel)
                 (fun _ s' => exists rest,
                    stderr s' = (stderr s ++ ["ready> "]) ++ rest ++ ["ready> "]) s).
  { unfold main, main_prime, install_operators. wp_steps.
    wp_call (getNextToken_written (stderr s ++ ["ready> "]) 0).
    { split; [reflexivity|lia]. }
    intros t s1 H1. wp_steps. apply MainLoop_prompts, H1. }
  destruct (Hw tt s' E) as (rest & Hr). exists rest. rewrite Hr, <- app_assoc. reflexivity.
Qed.

Lemma main_prompts_witness :
  (exists s' rest, main 10 (initial "") = Ret tt s' /\
     stderr s' = ["ready> "] ++ rest ++ ["ready> "]) /\
  (exists s' rest, main 30 (initial "def f(x) x+1; f(2); )") = Ret tt s' /\
     stderr s' = ["ready> "] ++ rest ++ ["ready> "]).
Proof.
  split.
  - assert (E : exists s', main 10 (initial "") = Ret tt s')
      by (eexists; vm_compute; reflexivity).
    destruct E as (s' & E). exists s'.
    destruct (main_prompts 10 _ s' E) as (rest & Hr).
    exists rest. split; [exact E|exact Hr].
  - assert (E : exists s', main 30 (initial "def f(x) x+1; f(2); )") = Ret tt s')
      by (eexists; vm_compute; reflexivity).
    destruct E as (s' & E). exists s'.
    destruct (main_prompts 30 _ s' E) as (rest & Hr).
    exists rest. split; [exact E|exact Hr].
Defined.

(** * The names in the trees *)

Lemma all_alnum_app a b : all_alnum (a +:+ b) = all_alnum a && all_alnum b.
Proof.
  induction a as [|c a IH]; [reflexivity|].
  change (String c a +:+ b) with (String c (a +:+ b)). cbn [all_alnum].
  rewrite IH. apply andb_assoc.
Qed.

Lemma is_word_start x :
  one_char x = true -> re_match is_alpha x = true -> is_word x = true.
Proof.
  destruct x as [|c [|c' r]]; cbn; try discriminate.
  intros _ ->. reflexivity.
Qed.

Lemma is_word_app a b :
  is_word a = true -> one_char b = true -> re_match is_alnum b = true ->
  is_word (a +:+ b) = true.
Proof.
  destruct a as [|c a]; [discriminate|].
  change (String c a +:+ b) with (String c (a +:+ b)). cbn [is_word].
  intros Ha Hb Hm. apply andb_true_iff in Ha as [Hc Ha].
  rewrite Hc, all_alnum_app, Ha.
  destruct b as [|d [|d' r]]; cbn in *; try discriminate.
  rewrite Hm. reflexivity.
Qed.

(** The lexer answers [tok_identifier] only with a name in the buffer. *)
Lemma gettok_names n :
  forall s, one_char (LastChar s) = true ->
    wp (gettok n)
       (fun t s' => t = tok_identifier -> is_name (IdentifierStr s') = true) s.
Proof.
  induction n as [|n IH]; intros s Hs; cbn [gettok].
  - apply wp_out_of_fuel.
  - unfold gettok_.
    wp_step.
    apply (wp_loop _ (fun _ s => one_char (LastChar s) = true)
             (fun _ s => one_char (LastChar s) = true)); [| |exact Hs].
    { intros _ s0 H0. wp_steps; auto. }
    intros _ s1 H1. wp_steps; try discriminate.
    + apply (wp_loop _ (fun _ s => one_char (LastChar s) = true
                                   /\ is_word (IdentifierStr s) = true)
               (fun _ s => is_word (IdentifierStr s) = true)).
      * intros _ s2 [H2 Hw]. wp_steps; auto.
        all: split; [reflexivity|]; cbn; apply is_word_app; assumption.
      * intros _ s2 H2. wp_steps; try discriminate. intros _.
        unfold is_name. rewrite H2, Heqb0, Heqb1. reflexivity.
      * split; [reflexivity|]. cbn. apply is_word_start; assumption.
    + apply (wp_loop _ (fun _ s => one_char (LastChar s) = true
                                   /\ is_word (IdentifierStr s) = true)
               (fun _ s => is_word (IdentifierStr s) = true)).
      * intros _ s2 [H2 Hw]. wp_steps; auto.
        all: split; [reflexivity|]; cbn; apply is_word_app; assumption.
      * intros _ s2 H2. wp_steps; try discriminate. intros _.
        unfold is_name. rewrite H2, Heqb0, Heqb1. reflexivity.
      * split; [reflexivity|]. cbn. apply is_word_start; assumption.
    + apply (wp_loop _ (fun _ _ => True) (fun _ _ => True)); [| |exact I].
      * intros l s2 _. wp_steps; exact I.
      * intros r s2 _. wp_steps. discriminate.
    + apply (wp_loop _ (fun _ s => one_char (LastChar s) = true)
               (fun _ s => one_char (LastChar s) = true)); [| |exact H1].
      * intros _ s2 H2. wp_steps; auto.
      * intros _ s2 H2. wp_steps; try discriminate.
        wp_call IH. intros t s3 H3. wp_steps. exact H3.
Qed.

Lemma getNextToken_named n s :
  one_char (LastChar s) = true -> wp (getNextToken n) (fun _ s' => named s') s.
Proof.
  intros Hs. unfold getNextToken. wp_step.
  eapply wp_mono;
    [apply wp_conj; [apply gettok_token_shape, Hs|apply gettok_names, Hs]|].
  cbv beta. intros t s1 [[H1 _] Ht]. wp_steps.
  split; [exact H1|]. exact Ht.
Qed.

Lemma getNextToken_CurTok_wp n s :
  wp (getNextToken n) (fun t s' => CurTok s' = t) s.
Proof. intros t s' E. exact (getNextToken_CurTok n s t s' E). Qed.

Lemma all_names_BinaryExprAST op lhs rhs :
  all_names (BinaryExprAST op lhs rhs) = value_names lhs && value_names rhs.
Proof. reflexivity. Qed.

Lemma getNextToken_keeps_named n s :
  named s -> wp (getNextToken n) (fun _ s' => named s') s.
Proof. intros [Hs _]. apply getNextToken_named, Hs. Qed.

Ltac conj_auto :=
  lazymatch goal with
  | |- _ /\ _ => split; auto
  | |- _ => idtac
  end.

Section Names.

Section Bodies.

Variable n : nat.
Variables PE PP PI PR : M (pyval ExprAST).
Variable PB : Z -> pyval ExprAST -> M (pyval ExprAST).

Hypothesis PE_ok : forall s, named s -> wp PE names_post s.
Hypothesis PP_ok : forall s, named s -> wp PP names_post s.
Hypothesis PI_ok : forall s, named s -> CurTok s = tok_identifier -> wp PI names_post s.
Hypothesis PR_ok : forall s, named s -> wp PR names_post s.
Hypothesis PB_ok : forall E L s,
  value_names L = true -> named s -> wp (PB E L) names_post s.

Lemma ParseNumberExpr_names s :
  named s -> wp (ParseNumberExpr n) names_post s.
Proof.
  intros Hs. unfold ParseNumberExpr. wp_steps.
  wp_call getNextToken_keeps_named. intros t s1 H1. wp_steps. split; auto.
Qed.

Lemma ParseIdentifierExpr__names s :
  named s -> CurTok s = tok_identifier ->
  wp (ParseIdentifierExpr_ n PE) names_post s.
Proof.
  intros Hs Hc. pose proof (proj2 Hs Hc) as Hname.
  unfold ParseIdentifierExpr_. wp_steps.
  wp_call getNextToken_keeps_named. intros t s1 H1. wp_steps.
  { split; auto. }
  wp_call getNextToken_keeps_named. intros t2 s2 H2. wp_steps.
  - apply (wp_loop _ (fun args s => named s /\ forallb value_names args = true)
             (fun r s => named s /\
                         match r with
                         | inl args => forallb value_names args = true
                         | inr v => value_names v = true
                         end)).
    + intros args s3 [H3 Hargs]. wp_step.
      wp_call PE_ok. intros arg s4 [H4 Harg]. wp_steps; try (split; auto).
      * rewrite forallb_app, Hargs. cbn. rewrite Harg. reflexivity.
      * wp_call getNextToken_keeps_named. intros t5 s5 H5. wp_steps. split; auto.
        rewrite forallb_app, Hargs. cbn. rewrite Harg. reflexivity.
    + intros [args|v] s3 [H3 Hr]; wp_steps.
      * wp_call getNextToken_keeps_named. intros t4 s4 H4. wp_steps. split; auto.
        cbn [value_names all_names]. rewrite Hname. exact Hr.
      * split; auto.
    + split; auto.
  - wp_call getNextToken_keeps_named. intros t3 s3 H3. wp_steps. split; auto.
    cbn [value_names all_names forallb]. rewrite Hname. reflexivity.
Qed.

Lemma ParseParenExpr__names s :
  named s -> wp (ParseParenExpr_ n PE) names_post s.
Proof.
  intros Hs. unfold ParseParenExpr_. wp_step.
  wp_call getNextToken_keeps_named. intros t s1 H1. wp_step.
  wp_call PE_ok. intros v s2 _. wp_steps.
Qed.

Lemma ParsePrimary__names s :
  named s -> wp (ParsePrimary_ n PI PR) names_post s.
Proof.
  intros Hs. unfold ParsePrimary_. wp_steps.
  - apply PI_ok; [exact Hs|]. apply tok_eqb_eq. assumption.
  - apply ParseNumberExpr_names, Hs.
  - apply PR_ok, Hs.
  - split; auto.
Qed.

Lemma ParseBinOpRHS__names E L s :
  value_names L = true -> named s ->
  wp (ParseBinOpRHS_ n PP PB E L) names_post s.
Proof.
  intros HL Hs. unfold ParseBinOpRHS_.
  apply (wp_loop _ (fun L s => named s /\ value_names L = true) names_post);
    [|auto|split; auto].
  clear L s HL Hs. intros L s [Hs HL]. wp_step.
  apply wp_GetTokPrecedence. intros p _. wp_steps.
  { split; auto. }
  wp_call getNextToken_keeps_named. intros t s1 H1. wp_step.
  wp_call PP_ok. intros RHS s2 [H2 HR]. wp_steps.
  { split; auto. }
  apply wp_GetTokPrecedence. intros q _. wp_steps.
  - wp_call PB_ok. intros RHS' s3 [H3 HR']. wp_steps.
    + split; auto.
    + split; auto. cbn [value_names]. rewrite all_names_BinaryExprAST, HL, HR'.
      reflexivity.
  - split; auto. cbn [value_names]. rewrite all_names_BinaryExprAST, HL, HR.
    reflexivity.
Qed.

Lemma ParseExpression__names s :
  named s -> wp (ParseExpression_ PP PB) names_post s.
Proof.
  intros Hs. unfold ParseExpression_. wp_step.
  wp_call PP_ok. intros LHS s1 [H1 HL]. wp_steps.
  - split; auto.
  - apply PB_ok; auto.
Qed.

End Bodies.

(** The five mutually recursive functions, at every depth. *)
Lemma parser_names fuel :
  (forall s, named s -> wp (ParseExpression fuel) names_post s) /\
  (forall s, named s -> wp (ParsePrimary fuel) names_post s) /\
  (forall s, named s -> CurTok s = tok_identifier ->
             wp (ParseIdentifierExpr fuel) names_post s) /\
  (forall s, named s -> wp (ParseParenExpr fuel) names_post s) /\
  (forall E L s, value_names L = true -> named s ->
                 wp (ParseBinOpRHS fuel E L) names_post s).
Proof.
  induction fuel as [|n (IHe & IHp & IHi & IHr & IHb)].
  - split; [|split; [|split; [|split]]]; intros; apply wp_out_of_fuel.
  - split; [|split; [|split; [|split]]]; intros.
    + change (wp (ParseExpression_ (ParsePrimary n) (ParseBinOpRHS n)) names_post s).
      apply ParseExpression__names; auto.
    + change (wp (ParsePrimary_ n (ParseIdentifierExpr n) (ParseParenExpr n))
                names_post s).
      apply ParsePrimary__names; auto.
    + change (wp (ParseIdentifierExpr_ n (ParseExpression n)) names_post s).
      apply ParseIdentifierExpr__names; auto.
    + change (wp (ParseParenExpr_ n (ParseExpression n)) names_post s).
      apply ParseParenExpr__names; auto.
    + change (wp (ParseBinOpRHS_ n (ParsePrimary n) (ParseBinOpRHS n) E L) names_post s).
      apply ParseBinOpRHS__names; auto.
Qed.

End Names.

Lemma ParsePrototype_names fuel s :
  named s ->
  wp (ParsePrototype fuel) (fun v s' => named s' /\ prototype_names v = true) s.
Proof.
  intros Hs. unfold ParsePrototype. wp_steps; conj_auto.
  assert (Hname : is_name (IdentifierStr s) = true).
  { apply Hs. apply tok_eqb_eq. apply negb_false_iff. assumption. }
  wp_call getNextToken_keeps_named. intros t s1 H1. wp_steps; conj_auto.
  apply (wp_loop _ (fun args s => named s /\ forallb is_name args = true)
           (fun args s => named s /\ forallb is_name args = true)); auto.
  - intros args s2 [H2 Hargs]. wp_step.
    eapply wp_mono.
    { apply wp_conj; [apply getNextToken_keeps_named, H2|apply getNextToken_CurTok_wp]. }
    cbv beta. intros t2 s3 [H3 Ht]. wp_steps; conj_auto.
    rewrite forallb_app, Hargs. cbn. rewrite andb_true_r.
    apply H3. rewrite Ht. apply tok_eqb_eq. assumption.
  - intros args s2 [H2 Hargs]. wp_steps; conj_auto.
    wp_call getNextToken_keeps_named. intros t3 s3 H3. wp_steps. split; auto.
    cbn. rewrite Hname, Hargs. reflexivity.
Qed.

Lemma ParseExtern_names fuel s :
  one_char (LastChar s) = true ->
  wp (ParseExtern fuel) (fun v _ => prototype_names v = true) s.
Proof.
  intros Hs. unfold ParseExtern. wp_step.
  wp_call getNextToken_named. intros t s1 H1.
  eapply wp_mono; [apply ParsePrototype_names, H1|].
  cbv beta. intros v s2 [_ Hv]. exact Hv.
Qed.

Lemma ParseDefinition_names fuel s :
  one_char (LastChar s) = true ->
  wp (ParseDefinition fuel) (fun f _ => function_names f = true) s.
Proof.
  intros Hs. unfold ParseDefinition. wp_step.
  wp_call getNextToken_named. intros t s1 H1. wp_step.
  wp_call ParsePrototype_names. intros Proto s2 [H2 HP]. wp_steps; auto.
  wp_call (proj1 (parser_names fuel)). intros E s3 [H3 HE]. wp_steps; auto.
  cbn [function_names]. rewrite HP, HE. reflexivity.
Qed.

Lemma ParseTopLevelExpr_names fuel s :
  named s ->
  wp (ParseTopLevelExpr fuel)
     (fun f _ => match f with
                 | PyObj (MkFunctionAST _ body) => value_names body = true
                 | _ => True
                 end) s.
Proof.
  intros Hs. unfold ParseTopLevelExpr. wp_step.
  wp_call (proj1 (parser_names fuel)). intros E s3 [H3 HE]. wp_steps; auto.
Qed.

(** X21: the names in what the parser returns are identifiers.  From a
    state the lexer may have left (at most one character in [LastChar], and
    a name in [IdentifierStr] when the current token is [tok_identifier]),
    every variable and every callee of a tree that [ParseExpression]
    returns, and the name and every parameter of a prototype that
    [ParsePrototype] returns, is a letter followed by letters and digits and
    is neither "def" nor "extern".  The same holds of what [ParseExtern] and
    [ParseDefinition] return, which read a token first, and of the body of
    the function [ParseTopLevelExpr] returns. *)
Theorem parsed_names_are_identifiers (fuel : nat) (s s' : state) :
  (named s ->
   forall v, ParseExpression fuel s = Ret v s' -> value_names v = true) /\
  (named s ->
   forall v, ParsePrototype fuel s = Ret v s' -> prototype_names v = true) /\
  (one_char (LastChar s) = true ->
   forall v, ParseExtern fuel s = Ret v s' -> prototype_names v = true) /\
  (one_char (LastChar s) = true ->
   forall f, ParseDefinition fuel s = Ret f s' -> function_names f = true) /\
  (named s ->
   forall p body, ParseTopLevelExpr fuel s = Ret (PyObj (MkFunctionAST p body)) s' ->
                  value_names body = true).
Proof.
  split; [|split; [|split; [|split]]].
  - intros Hs v E. exact (proj2 (proj1 (parser_names fuel) s Hs v s' E)).
  - intros Hs v E. exact (proj2 (ParsePrototype_names fuel s Hs v s' E)).
  - intros Hs v E. exact (ParseExtern_names fuel s Hs v s' E).
  - intros Hs f E. exact (ParseDefinition_names fuel s Hs f s' E).
  - intros Hs p body E. exact (ParseTopLevelExpr_names fuel s Hs _ s' E).
Qed.

Lemma parsed_names_are_identifiers_witness :
  (exists v s', ParseExpression 12 (primed 12 "f(x1, g(y) + defs) * externs") = Ret v s' /\
     value_names v = true) /\
  (exists v s', ParsePrototype 12 (primed 12 "foo(a b2 c)") = Ret v s' /\
     prototype_names v = true) /\
  (exists v s', ParseExtern 12 (primed 12 "extern sin(x)") = Ret v s' /\
     prototype_names v = true) /\
  (exists f s', ParseDefinition 12 (primed 12 "def add(x y) x + y") = Ret f s' /\
     function_names f = true) /\
  (exists p body s',
     ParseTopLevelExpr 12 (primed 12 "a < b") = Ret (PyObj (MkFunctionAST p body)) s' /\
     value_names body = true).
Proof.
  split; [|split; [|split; [|split]]].
  - assert (Hs : named (primed 12 "f(x1, g(y) + defs) * externs"))
      by (split; [vm_compute; reflexivity|intros _; vm_compute; reflexivity]).
    assert (E : exists v s',
               ParseExpression 12 (primed 12 "f(x1, g(y) + defs) * externs") = Ret v s')
      by (eexists _, _; vm_compute; reflexivity).
    destruct E as (v & s' & E). exists v, s'. split; [exact E|].
    exact (proj1 (parsed_names_are_identifiers 12 _ s') Hs v E).
  - assert (Hs : named (primed 12 "foo(a b2 c)"))
      by (split; [vm_compute; reflexivity|intros _; vm_compute; reflexivity]).
    assert (E : exists v s', ParsePrototype 12 (primed 12 "foo(a b2 c)") = Ret v s')
      by (eexists _, _; vm_compute; reflexivity).
    destruct E as (v & s' & E). exists v, s'. split; [exact E|].
    exact (proj1 (proj2 (parsed_names_are_identifiers 12 _ s')) Hs v E).
  - assert (Hs : one_char (LastChar (primed 12 "extern sin(x)")) = true)
      by (vm_compute; reflexivity).
    assert (E : exists v s', ParseExtern 12 (primed 12 "extern sin(x)") = Ret v s')
      by (eexists _, _; vm_compute; reflexivity).
    destruct E as (v & s' & E). exists v, s'. split; [exact E|].
    exact (proj1 (proj2 (proj2 (parsed_names_are_identifiers 12 _ s'))) Hs v E).
  - assert (Hs : one_char (LastChar (primed 12 "def add(x y) x + y")) = true)
      by (vm_compute; reflexivity).
    assert (E : exists f s', ParseDefinition 12 (primed 12 "def add(x y) x + y") = Ret f s')
      by (eexists _, _; vm_compute; reflexivity).
    destruct E as (f & s' & E). exists f, s'. split; [exact E|].
    exact (proj1 (proj2 (proj2 (proj2 (parsed_names_are_identifiers 12 _ s')))) Hs f E).
  - assert (Hs : named (primed 12 "a < b"))
      by (split; [vm_compute; reflexivity|intros _; vm_compute; reflexivity]).
    assert (E : exists p body s',
               ParseTopLevelExpr 12 (primed 12 "a < b")
               = Ret (PyObj (MkFunctionAST p body)) s')
      by (eexists _, _, _; vm_compute; reflexivity).
    destruct E as (p & body & s' & E). exists p, body, s'. split; [exact E|].
    exact (proj2 (proj2 (proj2 (proj2 (parsed_names_are_identifiers 12 _ s')))) Hs p body E).
Defined.
